(** * gungnir: a task pool (include/gungnir/gungnir.hpp)

    A shallow embedding of [gungnir::TaskPool] and of the free functions
    [onSuccess], [onFailure], [onComplete].

    - The dispatch operations are written in a state-and-exception monad
      over the data the pool shares with its threads.
    - The lambdas the pool puts on its queue are a data type ([closure]);
      executing one is a sequence of atomic steps ([frame_step]), one per
      access to shared data.
    - The worker loop, the destructor and its drainer threads are control
      points of a machine whose moves interleave freely ([step]). *)

From stdpp Require Import prelude list strings.

Set Default Proof Using "Type".

(** ** Exceptions and results *)

(** What a C++ exception object can be here: the two exceptions thrown by
    [checkArgs], the two the standard library throws on an empty
    [std::function] and on a promise that is already satisfied, and
    whatever a user's callable throws. *)
Inductive exn (E : Type) : Type :=
  | runtime_error (what : string)
  | invalid_argument (what : string)
  | bad_function_call
  | future_error
  | user_exn (e : E).
Arguments runtime_error {E} what.
Arguments invalid_argument {E} what.
Arguments bad_function_call {E}.
Arguments future_error {E}.
Arguments user_exn {E} e.

(** The result of a call: it returns or it throws. *)
Inductive outcome (E A : Type) : Type :=
  | Returned (a : A)
  | Raised (e : exn E).
Arguments Returned {E A} a.
Arguments Raised {E A} e.

(** The shared state of a [std::promise<R>] / [std::future<R>] pair. *)
Inductive slot (E R : Type) : Type :=
  | Unset
  | Value (r : R)
  | Failure (e : exn E).
Arguments Unset {E R}.
Arguments Value {E R} r.
Arguments Failure {E R} e.

Definition slot_of {E R} (o : outcome E R) : slot E R :=
  match o with Returned v => Value v | Raised e => Failure e end.

(** [future.get()] on the shared state: [None] while it blocks. *)
Definition future_get {E R} (s : slot E R) : option (outcome E R) :=
  match s with
  | Unset => None
  | Value v => Some (Returned v)
  | Failure e => Some (Raised e)
  end.

Section gungnir.

(** [World] is whatever the user's callables read and write, [R] the result
    type of the value-returning tasks, [E] the user's exceptions. *)
Context {World R E : Type}.

(** ** Tasks *)

(** A user's nullary callable: one atomic transition of the world. *)
Definition callable (A : Type) : Type := World → outcome E A * World.

(** [Task<A>] as the caller supplies it: [std::function<A()>], empty or not. *)
Abbreviation Task A := (option (callable A)).

(** The target of the [Task<R>] that reaches [dispatch<R>]: the caller's
    callable, or the [std::bind] object [dispatchSync<R>] builds (line 184),
    which holds a copy of the caller's [Task<R>]. *)
Inductive rfun : Type :=
  | RUser (f : callable R)
  | RBind (t : Task R).

(** The targets of the [Task<void>] values that travel through the queue:
    the caller's callable (line 99, 126) and the lambdas of lines 108, 158,
    207, 231 and 245 with what they capture. *)
Inductive closure : Type :=
  | CUser (f : callable ())
  | CPromise (p : nat) (task : option rfun)
  | CSync (count : nat) (t : Task ())
  | CSerial (tasks : list (Task ()))
  | CSerialR (promises : nat) (tasks : list (Task R))
  | COnce (flag : nat) (task : Task ()).

(** A callable as it appears in the history of invocations. *)
Inductive call : Type :=
  | call_void (f : callable ())
  | call_R (f : callable R).

(** ** The shared data *)

Record Pool : Type := mkPool {
  destroyed_ : bool;
  (** Modelled from the spec: the queue [tasks_], of type
      [moodycamel::BlockingConcurrentQueue<Task<void>>] from the header
      gungnir/external/blockingconcurrentqueue.h, is "an unbounded FIFO of
      Task<void> values" that "never drops tasks"; an empty [Task<void>]
      is [None]. *)
  tasks_ : list (option closure);
  (** the shared states of the promises made so far, by address *)
  promises : list (slot E R);
  (** the [count] variables of the [dispatchSync] calls made so far *)
  counts : list nat;
  (** the [std::once_flag]s that are set *)
  flags : list nat;
  world : World;
  (** history: which thread invoked which user callable, in order *)
  calls : list (nat * call);
  (** history: the non-empty tasks put on the queue, in order *)
  accepted : list closure;
  (** history: the non-empty tasks taken from the queue, in order *)
  executed : list closure;
}.

Definition set_destroyed (b : bool) (s : Pool) : Pool :=
  mkPool b (tasks_ s) (promises s) (counts s) (flags s) (world s)
         (calls s) (accepted s) (executed s).
Definition set_queue (q : list (option closure)) (acc exe : list closure)
    (s : Pool) : Pool :=
  mkPool (destroyed_ s) q (promises s) (counts s) (flags s) (world s)
         (calls s) acc exe.
Definition set_promises (ps : list (slot E R)) (s : Pool) : Pool :=
  mkPool (destroyed_ s) (tasks_ s) ps (counts s) (flags s) (world s)
         (calls s) (accepted s) (executed s).
Definition set_counts (cs : list nat) (s : Pool) : Pool :=
  mkPool (destroyed_ s) (tasks_ s) (promises s) cs (flags s) (world s)
         (calls s) (accepted s) (executed s).
Definition set_flags (fs : list nat) (s : Pool) : Pool :=
  mkPool (destroyed_ s) (tasks_ s) (promises s) (counts s) fs (world s)
         (calls s) (accepted s) (executed s).
Definition set_world (w : World) (cs : list (nat * call)) (s : Pool) : Pool :=
  mkPool (destroyed_ s) (tasks_ s) (promises s) (counts s) (flags s) w
         cs (accepted s) (executed s).

(** ** The monad of the operations

    State, and C++ exceptions: a throw keeps the state reached so far. *)
Definition ST (S A : Type) : Type := S → outcome E A * S.

Definition ret {S A} (a : A) : ST S A := λ s, (Returned a, s).
Definition throw {S A} (e : exn E) : ST S A := λ s, (Raised e, s).
Definition bind {S A B} (m : ST S A) (k : A → ST S B) : ST S B :=
  λ s, match m s with
       | (Returned a, s') => k a s'
       | (Raised e, s') => (Raised e, s')
       end.

(** The outcome of [m] as a value: the [try] of a [try]/[catch]. *)
Definition attempt {S A} (m : ST S A) : ST S (outcome E A) := λ s,
  let '(o, s') := m s in (Returned o, s').

(** [try { m } catch (...) { h(std::current_exception()) }] *)
Definition try_catch {S A} (m : ST S A) (h : exn E → ST S A) : ST S A := λ s,
  match m s with
  | (Raised e, s') => h e s'
  | r => r
  end.

(** The dispatch operations work on the pool's data. *)
Abbreviation M := (ST Pool).

Notation "x <- m ;; k" := (bind m (λ x, k))
  (at level 100, m at next level, right associativity).
Notation "m ;; k" := (bind m (λ _, k))
  (at level 100, right associativity).

(** The loops [for (auto it = first; it != last; ++it)] that call [f] on
    each element and collect the results in order. *)
Fixpoint for_each {A B} (f : A → M B) (l : list A) : M (list B) :=
  match l with
  | [] => ret []
  | a :: l' => b <- f a ;; bs <- for_each f l' ;; ret (b :: bs)
  end.

(** *** Queue adapter *)

(** Modelled from the spec: [tasks_.enqueue(t)], the "insertion of one
    task", at the tail of the FIFO. The history [accepted] records the task
    when it is not empty. *)
Definition enqueue (t : option closure) : M () := λ s,
  (Returned (),
   set_queue (tasks_ s ++ [t]) (accepted s ++ option_list t) (executed s) s).

(** Modelled from the spec: [tasks_.enqueue_bulk(first, count)], the
    "batched insertion of count tasks", in one step. *)
Definition enqueue_bulk (ts : list (option closure)) : M () := λ s,
  (Returned (),
   set_queue (tasks_ s ++ ts) (accepted s ++ omap id ts) (executed s) s).

(** *** Allocation *)

(** [std::make_shared<std::promise<R>>()]: the address of the new state. *)
Definition make_promise : M nat := λ s,
  (Returned (length (promises s)), set_promises (promises s ++ [Unset]) s).

(** [std::make_shared<std::vector<std::promise<R>>>(n)]: the address of
    the first of [n] consecutive new states. *)
Definition make_promises (n : nat) : M nat := λ s,
  (Returned (length (promises s)),
   set_promises (promises s ++ replicate n Unset) s).

(** [std::atomic<std::size_t> count{n}] with its mutex and condition. *)
Definition make_count (n : nat) : M nat := λ s,
  (Returned (length (counts s)), set_counts (counts s ++ [n]) s).

(** ** The acceptance gate (lines 251-273) *)

Definition PoolDestroyed : exn E :=
  runtime_error "task pool already destroyed"%string.
Definition InvalidTask : exn E :=
  invalid_argument "task has no target callable object"%string.

Definition checkArgs {T} (task : option T) : M () := λ s,
  if destroyed_ s then throw PoolDestroyed s
  else if negb (bool_decide (is_Some task)) then throw InvalidTask s
  else ret () s.

Definition checkArgs_range {T} (tasks : list (option T)) : M () := λ s,
  if destroyed_ s then throw PoolDestroyed s
  else if negb (forallb (λ t, bool_decide (is_Some t)) tasks)
       then throw InvalidTask s
  else ret () s.

(** ** The dispatch surface (lines 95-248) *)

(** [void dispatch(const Task<void> &task)] *)
Definition dispatch (task : option closure) : M () :=
  checkArgs task ;;
  enqueue task.

(** [std::future<R> dispatch(const Task<R> &task)]; the future is the
    address of the promise's shared state. *)
Definition dispatch_R (task : option rfun) : M nat :=
  checkArgs task ;;
  p <- make_promise ;;
  enqueue (Some (CPromise p task)) ;;
  ret p.

(** [void dispatch(Iter first, Iter last)] *)
Definition dispatch_range (tasks : list (Task ())) : M () :=
  match tasks with
  | [] => ret ()
  | _ =>
      checkArgs_range tasks ;;
      enqueue_bulk ((λ t : Task (), CUser <$> t) <$> tasks)
  end.

(** [std::vector<std::future<R>> dispatch(Iter first, Iter last)] *)
Definition dispatch_range_R (tasks : list (Task R)) : M (list nat) :=
  match tasks with
  | [] => ret []
  | _ =>
      checkArgs_range tasks ;;
      for_each (λ t, dispatch_R (RUser <$> t)) tasks
  end.

(** [void dispatchSync(Iter first, Iter last)] up to the wait on the
    condition variable: the result is the counter to wait for, or [None]
    when the call has returned at once. *)
Definition dispatchSync (tasks : list (Task ())) : M (option nat) :=
  match tasks with
  | [] => ret None
  | _ =>
      checkArgs_range tasks ;;
      count <- make_count (length tasks) ;;
      for_each (λ t, dispatch (Some (CSync count t))) tasks ;;
      ret (Some count)
  end.

(** [std::vector<R> dispatchSync(Iter first, Iter last)] up to the loop
    that gets the futures: the result is the futures to get, or [None] when
    the call has returned an empty vector at once. *)
Definition dispatchSync_R (tasks : list (Task R)) : M (option (list nat)) :=
  match tasks with
  | [] => ret None
  | _ =>
      checkArgs_range tasks ;;
      futures <- for_each (λ t, dispatch_R (Some (RBind t))) tasks ;;
      ret (Some futures)
  end.

(** [void dispatchSerial(Iter first, Iter last)] *)
Definition dispatchSerial (tasks : list (Task ())) : M () :=
  match tasks with
  | [] => ret ()
  | _ =>
      checkArgs_range tasks ;;
      dispatch (Some (CSerial tasks))
  end.

(** [std::vector<std::future<R>> dispatchSerial(Iter first, Iter last)] *)
Definition dispatchSerial_R (tasks : list (Task R)) : M (list nat) :=
  match tasks with
  | [] => ret []
  | _ =>
      checkArgs_range tasks ;;
      promises <- make_promises (length tasks) ;;
      dispatch (Some (CSerialR promises tasks)) ;;
      ret (seq promises (length tasks))
  end.

(** [void dispatchOnce(std::once_flag &flag, const Task<void> &task)] *)
Definition dispatchOnce (flag : nat) (task : Task ()) : M () :=
  dispatch (Some (COnce flag task)).

(** ** Executing a task

    A thread that has taken a task from the queue runs it in atomic steps;
    [tid] is the index of the thread in [threads_]. *)

(** [t()] on a [std::function]: an empty one throws. *)
Definition invoke {A} (tid : nat) (mk : callable A → call) (t : Task A)
    : M A := λ s,
  match t with
  | None => (Raised bad_function_call, s)
  | Some f =>
      let '(o, w) := f (world s) in
      (o, set_world w (calls s ++ [(tid, mk f)]) s)
  end.

Definition invoke_rfun (tid : nat) (task : option rfun) : M R :=
  match task with
  | None => throw bad_function_call
  | Some (RUser f) => invoke tid call_R (Some f)
  | Some (RBind t) => invoke tid call_R t
  end.

(** [set_value] and [set_exception]: a state is set at most once. *)
Definition satisfy (p : nat) (v : slot E R) : M () := λ s,
  match promises s !! p with
  | Some Unset => (Returned (), set_promises (<[p:=v]> (promises s)) s)
  | _ => (Raised future_error, s)
  end.

(** The second half of
    [try { p.set_value(task()); } catch (...) { p.set_exception(...); }]
    once [task()] has come back with [o]. *)
Definition fulfil (p : nat) (o : outcome E R) : M () :=
  match o with
  | Returned v =>
      try_catch (satisfy p (Value v)) (λ e, satisfy p (Failure e))
  | Raised e => satisfy p (Failure e)
  end.

(** [std::call_once(flag, task)]: a call that throws leaves the flag unset. *)
Definition call_once (tid flag : nat) (task : Task ()) : M () := λ s,
  if bool_decide (flag ∈ flags s) then ret () s
  else (invoke tid call_void task ;;
        λ s', (Returned (), set_flags (flag :: flags s') s')) s.

(** [std::size_t] arithmetic wraps around at [2^64]. *)
Definition size_modulus : Z := 2 ^ 64.

(** [--count] on a [std::size_t]: from [0] it wraps around to
    [2^64 - 1]. *)
Definition size_dec (k : nat) : nat :=
  match k with
  | 0 => Z.to_nat (size_modulus - 1)
  | S k' => k'
  end.

(** [--count] on the [std::atomic<std::size_t>] of line 153, under the
    mutex (the notification wakes a waiter whose predicate the machine
    below evaluates). *)
Definition count_down (c : nat) : M () := λ s,
  (Returned (), set_counts (alter size_dec c (counts s)) s).

(** Where a thread is inside the task it runs. *)
Inductive frame : Type :=
  | FTarget (c : closure)
  | FPromiseSet (p : nat) (o : outcome E R)
  | FSyncDone (count : nat)
  | FSerial (rest : list (Task ()))
  | FSerialR (promises i : nat) (rest : list (Task R))
  | FSerialRSet (promises i : nat) (o : outcome E R) (rest : list (Task R)).

(** [for (const auto &t: *tasks) { t(); }] (line 208) *)
Definition serial_step (tid : nat) (rest : list (Task ()))
    : M (option frame) :=
  match rest with
  | [] => ret None
  | t :: rest' => invoke tid call_void t ;; ret (Some (FSerial rest'))
  end.

(** [for (std::size_t i = 0; i < tasks->size(); ++i)] (line 232) *)
Definition serialR_step (tid b i : nat) (rest : list (Task R))
    : M (option frame) :=
  match rest with
  | [] => ret None
  | t :: rest' =>
      o <- attempt (invoke tid call_R t) ;;
      ret (Some (FSerialRSet b i o rest'))
  end.

(** One atomic step: [Returned None] when the task has returned,
    [Raised e] when [e] leaves the task. *)
Definition frame_step (tid : nat) (f : frame) : M (option frame) :=
  match f with
  | FTarget (CUser f) => invoke tid call_void (Some f) ;; ret None
  | FTarget (CPromise p task) =>
      o <- attempt (invoke_rfun tid task) ;;
      ret (Some (FPromiseSet p o))
  | FPromiseSet p o => fulfil p o ;; ret None
  | FTarget (CSync c t) =>
      invoke tid call_void t ;; ret (Some (FSyncDone c))
  | FSyncDone c => count_down c ;; ret None
  | FTarget (CSerial ts) => serial_step tid ts
  | FSerial rest => serial_step tid rest
  | FTarget (CSerialR b ts) => serialR_step tid b 0 ts
  | FSerialR b i rest => serialR_step tid b i rest
  | FSerialRSet b i o rest =>
      fulfil (b + i) o ;; ret (Some (FSerialR b (S i) rest))
  | FTarget (COnce flag task) => call_once tid flag task ;; ret None
  end.

(** The number of steps a frame has left at most. *)
Definition frame_size (f : frame) : nat :=
  match f with
  | FTarget (CUser _) | FTarget (COnce _ _) => 1
  | FTarget (CPromise _ _) | FTarget (CSync _ _) => 2
  | FPromiseSet _ _ | FSyncDone _ => 1
  | FTarget (CSerial ts) | FSerial ts => S (length ts)
  | FTarget (CSerialR _ ts) | FSerialR _ _ ts => S (2 * length ts)
  | FSerialRSet _ _ _ rest => S (S (2 * length rest))
  end.

(** A thread running a frame to its end on its own; [false] is "out of
    fuel". *)
Fixpoint run_frame (fuel tid : nat) (f : frame) : M bool :=
  match fuel with
  | 0 => ret false
  | S fuel' =>
      r <- frame_step tid f ;;
      match r with
      | None => ret true
      | Some f' => run_frame fuel' tid f'
      end
  end.

(** [t()] for a task [t] taken from the queue. *)
Definition run_closure (tid : nat) (c : closure) : M bool :=
  run_frame (frame_size (FTarget c)) tid (FTarget c).

(** ** The calls a client makes *)

Inductive op : Type :=
  | Dispatch (task : Task ())
  | DispatchR (task : Task R)
  | DispatchRange (tasks : list (Task ()))
  | DispatchRangeR (tasks : list (Task R))
  | DispatchSync (tasks : list (Task ()))
  | DispatchSyncR (tasks : list (Task R))
  | DispatchSerial (tasks : list (Task ()))
  | DispatchSerialR (tasks : list (Task R))
  | DispatchOnce (flag : nat) (task : Task ()).

(** What the caller holds when the call returns or reaches the point
    where it blocks. *)
Inductive reply : Type :=
  | Void
  | Future (p : nat)
  | Futures (ps : list nat)
  | Results (rs : list R)
  | Waiting (count : nat)
  | Gathering (ps : list nat).

Definition call_op (o : op) : M reply :=
  match o with
  | Dispatch task => dispatch (CUser <$> task) ;; ret Void
  | DispatchR task => p <- dispatch_R (RUser <$> task) ;; ret (Future p)
  | DispatchRange tasks => dispatch_range tasks ;; ret Void
  | DispatchRangeR tasks => ps <- dispatch_range_R tasks ;; ret (Futures ps)
  | DispatchSync tasks =>
      c <- dispatchSync tasks ;;
      ret (match c with Some c => Waiting c | None => Void end)
  | DispatchSyncR tasks =>
      ps <- dispatchSync_R tasks ;;
      ret (match ps with Some ps => Gathering ps | None => Results [] end)
  | DispatchSerial tasks => dispatchSerial tasks ;; ret Void
  | DispatchSerialR tasks => ps <- dispatchSerial_R tasks ;; ret (Futures ps)
  | DispatchOnce flag task => dispatchOnce flag task ;; ret Void
  end.

(** The operations that take a range, with its length and whether
    each of its tasks has a target. *)
Definition op_range (o : op) : option (nat * bool) :=
  let valid {A} (ts : list (option A)) :=
    (length ts, forallb (λ t, bool_decide (is_Some t)) ts) in
  match o with
  | DispatchRange ts | DispatchSync ts | DispatchSerial ts => Some (valid ts)
  | DispatchRangeR ts | DispatchSyncR ts | DispatchSerialR ts =>
      Some (valid ts)
  | Dispatch _ | DispatchR _ | DispatchOnce _ _ => None
  end.

(** What a range operation returns on an empty range. *)
Definition empty_reply (o : op) : reply :=
  match o with
  | DispatchRangeR _ | DispatchSerialR _ => Futures []
  | DispatchSyncR _ => Results []
  | _ => Void
  end.

(** ** The pool and its threads *)

(** Where a thread of [threads_] is: a worker (lines 46-55) or, once the
    destructor has reused its place, a drainer (lines 73-83). *)
Inductive thread : Type :=
  | WWait              (* worker, in wait_dequeue *)
  | WRun (f : frame)   (* worker, inside t() *)
  | DPump              (* drainer, at try_dequeue *)
  | DRun (f : frame)   (* drainer, inside t() *)
  | DCount             (* drainer, at numDones.fetch_add *)
  | TDone.             (* the thread's function has returned *)

(** Where the thread that owns the pool is: in client code, blocked inside
    one of the two [dispatchSync], or in the destructor (lines 59-88). *)
Inductive main_pc : Type :=
  | MIdle
  | MWaitCount (count : nat)
  | MGather (futures : list nat) (results : list R)
  | MSignal (i : nat)   (* destroyed_ is set; loop of line 63 *)
  | MJoin (i : nat)     (* loop of line 66 *)
  | MSpawn (i : nat)    (* loop of line 72 *)
  | MJoinD (i : nat)    (* loop of line 85 *)
  | MFinished.

Record TaskPool : Type := mkTaskPool {
  shared : Pool;
  numThreads_ : nat;
  threads_ : list thread;
  numDones : Z;
  main : main_pc;
  (** [std::terminate] has been called: an exception left a thread *)
  terminated : option (exn E);
}.

Definition set_shared (s : Pool) (m : TaskPool) : TaskPool :=
  mkTaskPool s (numThreads_ m) (threads_ m) (numDones m) (main m)
             (terminated m).
Definition set_thread (i : nat) (t : thread) (m : TaskPool) : TaskPool :=
  mkTaskPool (shared m) (numThreads_ m) (<[i:=t]> (threads_ m)) (numDones m)
             (main m) (terminated m).
Definition set_numDones (n : Z) (m : TaskPool) : TaskPool :=
  mkTaskPool (shared m) (numThreads_ m) (threads_ m) n (main m)
             (terminated m).
Definition set_main (pc : main_pc) (m : TaskPool) : TaskPool :=
  mkTaskPool (shared m) (numThreads_ m) (threads_ m) (numDones m) pc
             (terminated m).
Definition set_terminated (e : exn E) (m : TaskPool) : TaskPool :=
  mkTaskPool (shared m) (numThreads_ m) (threads_ m) (numDones m) (main m)
             (Some e).

(** *** The constructor (lines 39-57) *)

(** [for (i = 0; i < numThreads_; ++i) threads_.emplace_back(worker)];
    a new worker goes straight to its first [wait_dequeue]. *)
Fixpoint spawn_workers (n : nat) (threads : list thread) : list thread :=
  match n with
  | 0 => threads
  | S n' => spawn_workers n' (threads ++ [WWait])
  end.

Definition new_pool (w : World) : Pool :=
  mkPool false [] [] [] [] w [] [] [].

Definition TaskPool_new (numThreads : nat) (w : World) : TaskPool :=
  mkTaskPool (new_pool w) numThreads (spawn_workers numThreads []) 0
             MIdle None.

(** The default argument: [hardware_concurrency] is what
    [std::thread::hardware_concurrency()] returns, which is [0] when the
    number cannot be computed. *)
Definition TaskPool_default (hardware_concurrency : nat) (w : World)
    : TaskPool :=
  TaskPool_new hardware_concurrency w.

(** *** The moves of the machine *)

Inductive move : Type :=
  | Client (o : op)   (* the owner calls a dispatch operation *)
  | Destroy           (* the owner enters the destructor *)
  | Main              (* the owner's next step where it is *)
  | Thread (i : nat). (* the next step of thread [i] *)

(** A dispatch operation, up to its return or to the point where it
    blocks. Its enqueues are taken together: nothing but the owner writes
    [destroyed_], and an insertion at the tail commutes with what the
    workers do at the head. An exception goes back to the client code. *)
Definition client_step (o : op) (m : TaskPool) : option TaskPool :=
  match main m with
  | MIdle =>
      let '(r, s') := call_op o (shared m) in
      Some (set_main match r with
                     | Returned (Waiting c) => MWaitCount c
                     | Returned (Gathering ps) => MGather ps []
                     | _ => MIdle
                     end (set_shared s' m))
  | _ => None
  end.

(** [destroyed_ = true;] (line 61) *)
Definition destroy_step (m : TaskPool) : option TaskPool :=
  match main m with
  | MIdle =>
      Some (set_main (MSignal 0)
              (set_shared (set_destroyed true (shared m)) m))
  | _ => None
  end.

Definition main_step (m : TaskPool) : option TaskPool :=
  match main m with
  | MIdle | MFinished => None
  | MWaitCount c =>
      (* cv.wait(lk, [&count] { return count == 0; }) *)
      if decide (counts (shared m) !! c = Some 0)
      then Some (set_main MIdle m) else None
  | MGather [] rs => Some (set_main MIdle m)
  | MGather (p :: ps) rs =>
      (* results.emplace_back(f.get()); a failure leaves dispatchSync *)
      match promises (shared m) !! p with
      | Some (Value v) => Some (set_main (MGather ps (rs ++ [v])) m)
      | Some (Failure e) => Some (set_main MIdle m)
      | _ => None
      end
  | MSignal i =>
      if decide (i < numThreads_ m)
      then Some (set_main (MSignal (S i))
                   (set_shared (enqueue None (shared m)).2 m))
      else Some (set_main (MJoin 0) m)
  | MJoin i =>
      match threads_ m !! i with
      | None => Some (set_main (MSpawn 0) (set_numDones 0 m))
      | Some TDone => Some (set_main (MJoin (S i)) m)
      | Some _ => None
      end
  | MSpawn i =>
      match threads_ m !! i with
      | None => Some (set_main (MJoinD 0) m)
      | Some _ => Some (set_main (MSpawn (S i)) (set_thread i DPump m))
      end
  | MJoinD i =>
      match threads_ m !! i with
      | None => Some (set_main MFinished m)
      | Some TDone => Some (set_main (MJoinD (S i)) m)
      | Some _ => None
      end
  end.

(** Modelled from the spec: what [wait_dequeue] and [try_dequeue] do when
    the queue holds a task: they take the one at its head; [None] when the
    queue is empty, where [wait_dequeue] blocks and [try_dequeue] returns
    false. The history [executed] records the task when it is not empty. *)
Definition dequeue (s : Pool) : option (option closure * Pool) :=
  match tasks_ s with
  | [] => None
  | t :: q =>
      Some (t, set_queue q (accepted s) (executed s ++ option_list t) s)
  end.

(** One step inside [t()]; back to [resume] when the task returns. *)
Definition run_step (i : nat) (f : frame) (resume : thread)
    (running : frame → thread) (m : TaskPool) : TaskPool :=
  match frame_step i f (shared m) with
  | (Returned None, s') => set_thread i resume (set_shared s' m)
  | (Returned (Some f'), s') => set_thread i (running f') (set_shared s' m)
  | (Raised e, s') => set_terminated e (set_shared s' m)
  end.

Definition thread_step (i : nat) (m : TaskPool) : option TaskPool :=
  match threads_ m !! i with
  | None | Some TDone => None
  | Some WWait =>
      (* tasks_.wait_dequeue(ctok, t); while (t) *)
      match dequeue (shared m) with
      | None => None
      | Some (None, s') => Some (set_thread i TDone (set_shared s' m))
      | Some (Some c, s') =>
          Some (set_thread i (WRun (FTarget c)) (set_shared s' m))
      end
  | Some (WRun f) => Some (run_step i f WWait WRun m)
  | Some DPump =>
      (* while (tasks_.try_dequeue(ctok, t)) { t(); } *)
      match dequeue (shared m) with
      | None => Some (set_thread i DCount m)
      | Some (None, s') =>
          Some (set_terminated bad_function_call (set_shared s' m))
      | Some (Some c, s') =>
          Some (set_thread i (DRun (FTarget c)) (set_shared s' m))
      end
  | Some (DRun f) => Some (run_step i f DPump DRun m)
  | Some DCount =>
      (* while (numThreads_ == numDones.fetch_add(1) + 1) *)
      let n := ((numDones m + 1) `mod` size_modulus)%Z in
      Some (set_thread i
              (if decide (Z.of_nat (numThreads_ m) = n) then DPump else TDone)
              (set_numDones n m))
  end.

Definition step (mv : move) (m : TaskPool) : option TaskPool :=
  match terminated m with
  | Some _ => None
  | None =>
      match mv with
      | Client o => client_step o m
      | Destroy => destroy_step m
      | Main => main_step m
      | Thread i => thread_step i m
      end
  end.

Fixpoint run (mvs : list move) (m : TaskPool) : option TaskPool :=
  match mvs with
  | [] => Some m
  | mv :: mvs' =>
      match step mv m with
      | Some m' => run mvs' m'
      | None => None
      end
  end.

Definition reachable (m0 m : TaskPool) : Prop := ∃ mvs, run mvs m0 = Some m.

(** ** The completion helpers (lines 282-322)

    Each runs in a thread of its own, on the world and on a history of
    the callbacks it has called. *)

Inductive callback_call : Type :=
  | called_success (v : R)
  | called_failure (e : exn E).

Record Observer : Type := mkObserver {
  obs_world : World;
  obs_calls : list callback_call;
}.

(** [callback(x)] *)
Definition call_back {X} (mk : X → callback_call) (cb : X → callable ())
    (x : X) : ST Observer () := λ s,
  let '(o, w) := cb x (obs_world s) in
  (o, mkObserver w (obs_calls s ++ [mk x])).

(** [future.get()] on a state that is set. *)
Definition got {S} (o : outcome E R) : ST S R := λ s, (o, s).

(** The thread of [onSuccess]; [None] while [future.get()] blocks. *)
Definition onSuccess (future : slot E R) (callback : R → callable ())
    : option (ST Observer ()) :=
  o ← future_get future;
  Some (try_catch (v <- got o ;; call_back called_success callback v)
                  (λ _, ret ())).

(** The thread of [onFailure]. *)
Definition onFailure (future : slot E R) (callback : exn E → callable ())
    : option (ST Observer ()) :=
  o ← future_get future;
  Some (try_catch (got o ;; ret ())
                  (λ e, call_back called_failure callback e)).

(** The thread of [onComplete]. *)
Definition onComplete (future : slot E R) (success : R → callable ())
    (failure : exn E → callable ()) : option (ST Observer ()) :=
  o ← future_get future;
  Some (try_catch (v <- got o ;; call_back called_success success v)
                  (λ e, call_back called_failure failure e)).

(** ** Reference functions for the statements *)

(** Calling each of [gs] in input order, whatever the earlier ones did:
    the outcomes in input order, and the world at the end. *)
Fixpoint in_order {A} (gs : list (callable A)) (w : World)
    : list (outcome E A) * World :=
  match gs with
  | [] => ([], w)
  | g :: gs' =>
      let '(o, w') := g w in
      let '(os, w'') := in_order gs' w' in
      (o :: os, w'')
  end.

(** Calling each of [fs] in input order up to the first that throws: the
    callables that were called, what the last one did, and the world at
    the end. *)
Fixpoint until_failure (fs : list (callable ())) (w : World)
    : list (callable ()) * outcome E () * World :=
  match fs with
  | [] => ([], Returned (), w)
  | f :: fs' =>
      match f w with
      | (Returned _, w') =>
          let '(called, o, w'') := until_failure fs' w' in
          (f :: called, o, w'')
      | (Raised e, w') => ([f], Raised e, w')
      end
  end.

(** A thread that is a worker, running or returned. *)
Definition is_worker (t : thread) : bool :=
  match t with
  | WWait | WRun _ | TDone => true
  | DPump | DRun _ | DCount => false
  end.

(** The owner has not yet reached the loop that starts the drainers. *)
Definition before_drain (pc : main_pc) : bool :=
  match pc with
  | MIdle | MWaitCount _ | MGather _ _ | MSignal _ | MJoin _ => true
  | MSpawn _ | MJoinD _ | MFinished => false
  end.

(** ** Invariants of the machine *)

(** A worker that has not returned; a drainer that has not returned; an
    empty task in the queue. *)
Definition live (t : thread) : nat :=
  match t with WWait | WRun _ => 1 | _ => 0 end.
Definition active (t : thread) : nat :=
  match t with DPump | DRun _ | DCount => 1 | _ => 0 end.
Definition sentinel (t : option closure) : nat :=
  match t with None => 1 | Some _ => 0 end.

Definition is_drainer (t : thread) : bool :=
  match t with
  | DPump | DRun _ | DCount | TDone => true
  | WWait | WRun _ => false
  end.

(** A drainer that has found the queue empty since it last took a task. *)
Definition saw_empty (t : thread) : bool :=
  match t with DCount | TDone => true | _ => false end.

(** What a step inside a task leaves alone: the queue, its history and
    the flag. *)
Definition same_queue (s s' : Pool) : Prop :=
  tasks_ s' = tasks_ s ∧ accepted s' = accepted s ∧
  executed s' = executed s ∧ destroyed_ s' = destroyed_ s.

(** What a dispatch operation does on a pool that is not destroyed: it
    appends tasks that are not empty to the queue, and leaves alone what
    is already there and the flag. *)
Definition accepts {A} (mop : M A) : Prop :=
  ∀ s, destroyed_ s = false →
    ∃ new : list closure,
      tasks_ (mop s).2 = tasks_ s ++ (Some <$> new) ∧
      accepted (mop s).2 = accepted s ++ new ∧
      executed (mop s).2 = executed s ∧
      destroyed_ (mop s).2 = false.

(** [threads_] holds [numThreads_] threads, workers until the destructor
    starts its drainers. *)
Definition workers_ok (m : TaskPool) : Prop :=
  length (threads_ m) = numThreads_ m ∧
  (before_drain (main m) → Forall (λ t, is_worker t) (threads_ m)).

(** What thread [j] can be while the owner is at [pc]. *)
Definition thread_ok (pc : main_pc) (j : nat) (t : thread) : Prop :=
  match pc with
  | MIdle | MWaitCount _ | MGather _ _ => live t = 1
  | MSignal _ => is_worker t
  | MJoin i => is_worker t ∧ (j < i → t = TDone)
  | MSpawn i => if decide (j < i) then is_drainer t else t = TDone
  | MJoinD i => is_drainer t ∧ (j < i → t = TDone)
  | MFinished => t = TDone
  end.

(** Thread [j] is a drainer that has found the queue empty. *)
Definition drained (pc : main_pc) (j : nat) (t : thread) : Prop :=
  match pc with
  | MSpawn i => j < i ∧ saw_empty t
  | MJoinD _ => saw_empty t
  | MFinished => True
  | _ => False
  end.

(** The drainers that have an increment of [numDones] ahead of them. *)
Definition pending (m : TaskPool) : nat :=
  match main m with
  | MSpawn i => numThreads_ m - i + sum_list_with active (threads_ m)
  | _ => sum_list_with active (threads_ m)
  end.

Definition counter_ok (m : TaskPool) : Prop :=
  match main m with
  | MSpawn _ | MJoinD _ =>
      ∃ k : nat, numDones m = Z.of_nat k ∧
        (k < numThreads_ m ∧ k + pending m = numThreads_ m ∨
         numThreads_ m ≤ k ∧ k + pending m = S (numThreads_ m) ∨
         numThreads_ m = 0)
  | _ => True
  end.

Definition phase_ok (m : TaskPool) : Prop :=
  let sentinels := sum_list_with sentinel (tasks_ (shared m)) in
  let workers := sum_list_with live (threads_ m) in
  match main m with
  | MIdle | MWaitCount _ | MGather _ _ =>
      destroyed_ (shared m) = false ∧ sentinels = 0
  | MSignal i => i ≤ numThreads_ m ∧ sentinels + (numThreads_ m - i) = workers
  | MJoin i => i ≤ numThreads_ m ∧ sentinels = workers
  | MSpawn i | MJoinD i => i ≤ numThreads_ m
  | MFinished => True
  end.

(** What holds while no exception has left a thread: every task that was
    accepted has been taken from the queue or is still in it. *)
Definition running_ok (m : TaskPool) : Prop :=
  length (threads_ m) = numThreads_ m ∧
  accepted (shared m) ≡ₚ
    executed (shared m) ++ omap id (tasks_ (shared m)) ∧
  (∀ j t, threads_ m !! j = Some t → thread_ok (main m) j t) ∧
  (∀ j t, threads_ m !! j = Some t → drained (main m) j t →
          tasks_ (shared m) = []) ∧
  phase_ok m ∧
  counter_ok m.

Definition invariant (m : TaskPool) : Prop :=
  match terminated m with
  | Some _ => main m ≠ MFinished
  | None => running_ok m
  end.

(** *** Who may set a promise

    The promises a task on the queue, a frame and a thread still have to
    set. *)
Definition owned_closure (c : closure) : list nat :=
  match c with
  | CPromise p _ => [p]
  | CSerialR b ts => seq b (length ts)
  | _ => []
  end.

Definition owned_item (t : option closure) : list nat :=
  from_option owned_closure [] t.

Definition owned_frame (fr : frame) : list nat :=
  match fr with
  | FTarget c => owned_closure c
  | FPromiseSet p _ => [p]
  | FSerialR b i rest => seq (b + i) (length rest)
  | FSerialRSet b i _ rest => seq (b + i) (S (length rest))
  | FSyncDone _ | FSerial _ => []
  end.

Definition owned_thread (t : thread) : list nat :=
  match t with
  | WRun fr | DRun fr => owned_frame fr
  | _ => []
  end.

Definition owned (m : TaskPool) : list nat :=
  (tasks_ (shared m) ≫= owned_item) ++ (threads_ m ≫= owned_thread).

(** Every promise that is still to be set is not set, and is to be set by
    one task only. *)
Definition promises_ok (m : TaskPool) : Prop :=
  NoDup (owned m) ∧
  ∀ p, p ∈ owned m → promises (shared m) !! p = Some Unset.

(** What a dispatch operation does to the promises on a pool that is not
    destroyed: it makes new ones, not set, and hands each of them to one
    of the tasks it appends to the queue. *)
Definition allocates {A} (mop : M A) : Prop :=
  ∀ s, destroyed_ s = false →
    ∃ (new : list closure) (k : nat),
      tasks_ (mop s).2 = tasks_ s ++ (Some <$> new) ∧
      promises (mop s).2 = promises s ++ replicate k Unset ∧
      new ≫= owned_closure = seq (length (promises s)) k ∧
      destroyed_ (mop s).2 = false.

(** The owner has entered the destructor. *)
Definition in_destructor (pc : main_pc) : bool :=
  match pc with
  | MSignal _ | MJoin _ | MSpawn _ | MJoinD _ | MFinished => true
  | MIdle | MWaitCount _ | MGather _ _ => false
  end.

(** The promises have their owners, and the flag is not set before the
    destructor sets it. *)
Definition owners_ok (m : TaskPool) : Prop :=
  promises_ok m ∧
  (in_destructor (main m) = false → destroyed_ (shared m) = false).

(** Every promise made so far is set, or has a task that will set it. *)
Definition resolved (m : TaskPool) : Prop :=
  ∀ p x, promises (shared m) !! p = Some x → p ∈ owned m ∨ x ≠ Unset.

(** *** The workers before the destructor, the queue after the join *)

(** Before the destructor every thread is a worker that has not returned,
    and the queue holds no empty task. *)
Definition alive (m : TaskPool) : Prop :=
  in_destructor (main m) = false →
  Forall (λ t, live t = 1) (threads_ m) ∧
  sum_list_with sentinel (tasks_ (shared m)) = 0.

(** Once the destructor has joined the workers, the queue holds no empty
    task. *)
Definition drain_clean (m : TaskPool) : Prop :=
  before_drain (main m) = false →
  sum_list_with sentinel (tasks_ (shared m)) = 0.

(** The frames of the wrappers that catch what the task throws (lines
    109-113 and 233-237). *)
Definition catches (fr : frame) : bool :=
  match fr with
  | FTarget (CPromise _ _) | FPromiseSet _ _ => true
  | FTarget (CSerialR _ _) | FSerialR _ _ _ | FSerialRSet _ _ _ _ => true
  | _ => false
  end.

(** *** Who a [dispatchSync] waits for

    The wrappers of the call whose counter is [c0] that have not yet
    decremented it: on the queue, or in a thread. *)
Definition waits_closure (c0 : nat) (c : closure) : nat :=
  match c with
  | CSync c' _ => if decide (c' = c0) then 1 else 0
  | _ => 0
  end.

Definition waits_item (c0 : nat) (t : option closure) : nat :=
  from_option (waits_closure c0) 0 t.

Definition waits_frame (c0 : nat) (fr : frame) : nat :=
  match fr with
  | FTarget c => waits_closure c0 c
  | FSyncDone c' => if decide (c' = c0) then 1 else 0
  | _ => 0
  end.

Definition waits_thread (c0 : nat) (t : thread) : nat :=
  match t with
  | WRun fr | DRun fr => waits_frame c0 fr
  | _ => 0
  end.

Definition outstanding (c0 : nat) (m : TaskPool) : nat :=
  sum_list_with (waits_item c0) (tasks_ (shared m))
  + sum_list_with (waits_thread c0) (threads_ m).

(** The threads the destructor has joined, and those whose place it has
    not yet given to a drainer, have returned. *)
Definition joined (m : TaskPool) : Prop :=
  match main m with
  | MJoin i => ∀ j t, j < i → threads_ m !! j = Some t → t = TDone
  | MSpawn i => ∀ j t, i ≤ j → threads_ m !! j = Some t → t = TDone
  | _ => True
  end.

(** Every counter holds the number of wrappers that have still to
    decrement it. *)
Definition counts_ok (m : TaskPool) : Prop :=
  joined m ∧
  (∀ c k, counts (shared m) !! c = Some k → k = outstanding c m) ∧
  (∀ c, length (counts (shared m)) ≤ c → outstanding c m = 0) ∧
  (∀ c, main m = MWaitCount c → c < length (counts (shared m))).

(** What a dispatch operation other than the void [dispatchSync] does on
    a pool that is not destroyed: it makes no counter and appends no
    wrapper that decrements one. *)
Definition plain {A} (mop : M A) : Prop :=
  ∀ s, destroyed_ s = false →
    ∃ new : list closure,
      tasks_ (mop s).2 = tasks_ s ++ (Some <$> new) ∧
      counts (mop s).2 = counts s ∧
      destroyed_ (mop s).2 = false ∧
      ∀ c0, sum_list_with (waits_closure c0) new = 0.

(** *** What [dispatchSync<R>] has gathered

    The futures of the call are consecutive promises; the results gathered
    so far are the values of the first of them, in order. *)
Definition gather_ok (m : TaskPool) : Prop :=
  match main m with
  | MGather ps rs =>
      ∃ b, ps = seq (b + length rs) (length ps) ∧
           ∀ j v, rs !! j = Some v →
                  promises (shared m) !! (b + j) = Some (Value v)
  | _ => True
  end.

(** ** Dispatch from other threads

    The dispatch operations can be called from any thread, and a call can
    be under way when the owner enters the destructor: "the gate exists to
    catch races but does not serialize them". A thread other than the
    owner executes an operation in steps, one for each access to what it
    shares with the pool's threads and with the destructor: the read of
    [destroyed_] in [checkArgs], together with what the thread then does
    on its own (it makes a promise or a counter), and an enqueue. *)

(** What is left of an operation: its result, or a step and what follows
    it; an exception that leaves a step leaves the operation. *)
#[warnings="-register-all"]
Inductive prog : Type :=
  | PDone (r : outcome E reply)
  | PStep (m : M prog).

(** [dispatch(task)], lines 97 and 99, and then [k]. *)
Definition dispatch_steps (task : option closure) (k : prog) : prog :=
  PStep (checkArgs task ;;
         ret (PStep (enqueue task ;; ret k))).

(** [dispatch<R>(task)], lines 105-107 and 108-115, and then [k] on the
    future. *)
Definition dispatch_R_steps (task : option rfun) (k : nat → prog) : prog :=
  PStep (checkArgs task ;;
         p <- make_promise ;;
         ret (PStep (enqueue (Some (CPromise p task)) ;; ret (k p)))).

(** The loops of lines 139-141 and 183-187; [acc] is [futures]. *)
Fixpoint each_R (wrap : Task R → option rfun) (l : list (Task R))
    (acc : list nat) (k : list nat → prog) : prog :=
  match l with
  | [] => k acc
  | t :: l' =>
      dispatch_R_steps (wrap t) (λ p, each_R wrap l' (acc ++ [p]) k)
  end.

(** The loop of lines 157-166. *)
Fixpoint each_sync (count : nat) (l : list (Task ())) (k : prog) : prog :=
  match l with
  | [] => k
  | t :: l' => dispatch_steps (Some (CSync count t)) (each_sync count l' k)
  end.

(** The operations, up to their return or to the point where they block,
    as [call_op] has them. *)
Definition op_prog (o : op) : prog :=
  match o with
  | Dispatch task => dispatch_steps (CUser <$> task) (PDone (Returned Void))
  | DispatchR task =>
      dispatch_R_steps (RUser <$> task) (λ p, PDone (Returned (Future p)))
  | DispatchRange [] => PDone (Returned Void)
  | DispatchRange tasks =>
      PStep (checkArgs_range tasks ;;
             ret (PStep (enqueue_bulk ((λ t : Task (), CUser <$> t) <$> tasks) ;;
                         ret (PDone (Returned Void)))))
  | DispatchRangeR [] => PDone (Returned (Futures []))
  | DispatchRangeR tasks =>
      PStep (checkArgs_range tasks ;;
             ret (each_R (λ t, RUser <$> t) tasks []
                         (λ ps, PDone (Returned (Futures ps)))))
  | DispatchSync [] => PDone (Returned Void)
  | DispatchSync tasks =>
      PStep (checkArgs_range tasks ;;
             count <- make_count (length tasks) ;;
             ret (each_sync count tasks (PDone (Returned (Waiting count)))))
  | DispatchSyncR [] => PDone (Returned (Results []))
  | DispatchSyncR tasks =>
      PStep (checkArgs_range tasks ;;
             ret (each_R (λ t, Some (RBind t)) tasks []
                         (λ ps, PDone (Returned (Gathering ps)))))
  | DispatchSerial [] => PDone (Returned Void)
  | DispatchSerial tasks =>
      PStep (checkArgs_range tasks ;;
             ret (dispatch_steps (Some (CSerial tasks))
                                 (PDone (Returned Void))))
  | DispatchSerialR [] => PDone (Returned (Futures []))
  | DispatchSerialR tasks =>
      PStep (checkArgs_range tasks ;;
             promises <- make_promises (length tasks) ;;
             ret (dispatch_steps
                    (Some (CSerialR promises tasks))
                    (PDone (Returned
                              (Futures (seq promises (length tasks)))))))
  | DispatchOnce flag task =>
      dispatch_steps (Some (COnce flag task)) (PDone (Returned Void))
  end.

(** The steps of an operation one after the other, with no step of
    another thread in between; [None] is "out of fuel". *)
Fixpoint exec (fuel : nat) (pr : prog) (s : Pool)
    : option (outcome E reply * Pool) :=
  match pr with
  | PDone r => Some (r, s)
  | PStep m =>
      match fuel with
      | 0 => None
      | S fuel' =>
          match m s with
          | (Returned pr', s') => exec fuel' pr' s'
          | (Raised e, s') => Some (Raised e, s')
          end
      end
  end.

(** The steps an operation has at most. *)
Definition op_fuel (o : op) : nat :=
  match op_range o with
  | Some (n, _) => 3 + 2 * n
  | None => 2
  end.

(** *** The pool with its other callers *)

(** The pool, its owner and its threads, and the threads that call the
    dispatch operations besides the owner, each with what is left of the
    operation it is in. *)
Record System : Type := mkSystem {
  pool : TaskPool;
  others : list prog;
}.

(** [for (auto &f: futures) results.emplace_back(f.get())] comes to its
    end: every future holds a value, or one holds a failure and those
    before it hold values. *)
Fixpoint gathered (ps : list nat) (s : Pool) : bool :=
  match ps with
  | [] => true
  | p :: ps' =>
      match promises s !! p with
      | Some (Value _) => gathered ps' s
      | Some (Failure _) => true
      | _ => false
      end
  end.

(** The thread that holds [r] is back in its own code: its operation has
    returned or thrown, or what it was blocked on has come. *)
Definition released (r : outcome E reply) (s : Pool) : bool :=
  match r with
  | Returned (Waiting c) => bool_decide (counts s !! c = Some 0)
  | Returned (Gathering ps) => gathered ps s
  | _ => true
  end.

Inductive sys_move : Type :=
  | Own (mv : move)           (* a move of the owner or of a pool thread *)
  | Call (j : nat) (o : op)   (* thread [j] calls a dispatch operation *)
  | Other (j : nat).          (* the next step of thread [j]'s operation *)

(** Nothing moves once [std::terminate] has been called; no thread calls
    into the pool once the destructor has returned. *)
Definition sys_step (g : sys_move) (σ : System) : option System :=
  match g with
  | Own mv =>
      match step mv (pool σ) with
      | Some m' => Some (mkSystem m' (others σ))
      | None => None
      end
  | Call j o =>
      match terminated (pool σ), main (pool σ), others σ !! j with
      | Some _, _, _ | _, MFinished, _ => None
      | None, _, Some (PDone r) =>
          if released r (shared (pool σ))
          then Some (mkSystem (pool σ) (<[j:=op_prog o]> (others σ)))
          else None
      | None, _, _ => None
      end
  | Other j =>
      match terminated (pool σ), main (pool σ), others σ !! j with
      | Some _, _, _ | _, MFinished, _ => None
      | None, _, Some (PStep m) =>
          let '(r, s') := m (shared (pool σ)) in
          Some (mkSystem (set_shared s' (pool σ))
                  (<[j:=match r with
                        | Returned pr' => pr'
                        | Raised e => PDone (Raised e)
                        end]> (others σ)))
      | None, _, _ => None
      end
  end.

Fixpoint sys_run (gs : list sys_move) (σ : System) : option System :=
  match gs with
  | [] => Some σ
  | g :: gs' =>
      match sys_step g σ with
      | Some σ' => sys_run gs' σ'
      | None => None
      end
  end.

Definition sys_reachable (σ0 σ : System) : Prop :=
  ∃ gs, sys_run gs σ0 = Some σ.

(** A new pool of [numThreads] threads with [callers] other threads, none
    of them in an operation. *)
Definition System_new (numThreads callers : nat) (w : World) : System :=
  mkSystem (TaskPool_new numThreads w)
           (replicate callers (PDone (Returned Void))).

(** *** Invariants of the pool with its other callers *)

(** What a step of a dispatch operation does to the pool's data: it
    appends tasks that have a target to the queue, or nothing. *)
Definition appends (s s' : Pool) : Prop :=
  ∃ new : list closure,
    tasks_ s' = tasks_ s ++ (Some <$> new) ∧
    accepted s' = accepted s ++ new ∧
    executed s' = executed s ∧ calls s' = calls s ∧
    flags s' = flags s ∧ destroyed_ s' = destroyed_ s.

Inductive sound : prog → Prop :=
  | sound_done r : sound (PDone r)
  | sound_step m :
      (∀ s, appends s (m s).2) →
      (∀ s pr, (m s).1 = Returned pr → sound pr) →
      sound (PStep m).

(** The thread is not between a gate it has passed and an enqueue: it is
    in no operation, or its next step is a gate, which throws on a pool
    that is destroyed and changes nothing. *)
Definition gated (pr : prog) : Prop :=
  match pr with
  | PDone _ => True
  | PStep m => ∀ s, destroyed_ s = true → ∃ e, m s = (Raised e, s)
  end.

(** The callables a task calls when it is run, none of them throwing out
    of it; those of a [dispatchOnce] wrapper are counted apart. *)
Definition rfun_call (t : option rfun) : list call :=
  match t with
  | Some (RUser f) | Some (RBind (Some f)) => [call_R f]
  | _ => []
  end.

Definition called_by (c : closure) : list call :=
  match c with
  | CUser f => [call_void f]
  | CPromise _ t => rfun_call t
  | CSync _ t => call_void <$> option_list t
  | CSerial ts => call_void <$> omap id ts
  | CSerialR _ ts => call_R <$> omap id ts
  | COnce _ _ => []
  end.

(** The callables a thread has still to call in the task it is in. *)
Definition to_call (fr : frame) : list call :=
  match fr with
  | FTarget c => called_by c
  | FSerial rest => call_void <$> omap id rest
  | FSerialR _ _ rest | FSerialRSet _ _ _ rest => call_R <$> omap id rest
  | FPromiseSet _ _ | FSyncDone _ => []
  end.

Definition to_call_thread (t : thread) : list call :=
  match t with
  | WRun fr | DRun fr => to_call fr
  | _ => []
  end.

(** The [dispatchOnce] wrapper a thread has taken and not yet run. *)
Definition at_once (t : thread) : list closure :=
  match t with
  | WRun (FTarget (COnce fl task)) | DRun (FTarget (COnce fl task)) =>
      [COnce fl task]
  | _ => []
  end.

Definition once_wrapper (x : nat * callable ()) : closure :=
  COnce x.1 (Some x.2).

(** The calls made so far are those of the tasks taken from the queue,
    less what the threads have still to call, and one call for each flag
    that is set: of the task of a [dispatchOnce] wrapper that was taken
    with that flag ([winners]). *)
Definition calls_ok (m : TaskPool) : Prop :=
  ∃ winners : list (nat * callable ()),
    (calls (shared m)).*2 ++ (threads_ m ≫= to_call_thread)
      ≡ₚ (executed (shared m) ≫= called_by)
         ++ ((λ x, call_void x.2) <$> winners) ∧
    (once_wrapper <$> winners) ++ (threads_ m ≫= at_once)
      ⊆+ executed (shared m) ∧
    winners.*1 ≡ₚ flags (shared m) ∧
    NoDup (flags (shared m)).

(** The threads in the last phases of the destructor. *)
Definition draining (m : TaskPool) : Prop :=
  match main m with
  | MSpawn i => ∀ j t, threads_ m !! j = Some t → j < i → is_drainer t
  | MJoinD i =>
      ∀ j t, threads_ m !! j = Some t → is_drainer t ∧ (j < i → t = TDone)
  | MFinished => ∀ j t, threads_ m !! j = Some t → t = TDone
  | _ => True
  end.

(** A drainer that has found the queue empty has left it empty. *)
Definition emptied (m : TaskPool) : Prop :=
  ∀ j t, threads_ m !! j = Some t → drained (main m) j t →
         tasks_ (shared m) = [].

(** What holds of a pool of [n] threads and its other callers in every
    state they reach. *)
Definition sys_ok (n : nat) (σ : System) : Prop :=
  let m := pool σ in
  Forall sound (others σ) ∧
  workers_ok m ∧ numThreads_ m = n ∧
  destroyed_ (shared m) = in_destructor (main m) ∧
  accepted (shared m) = executed (shared m) ++ omap id (tasks_ (shared m)) ∧
  joined m ∧ draining m ∧
  (main m = MFinished → terminated m = None) ∧
  (terminated m = None → calls_ok m).

(** The destructor has started and no dispatch is under way: every other
    thread is in its own code or in front of a gate. *)
Definition quiet (σ : System) : Prop :=
  in_destructor (main (pool σ)) = true ∧
  Forall gated (others σ) ∧
  emptied (pool σ).

End gungnir.


(** * Sample inputs

    The world is a list of numbers that the tasks append to; results and
    user exceptions are numbers. *)

(** A void task that appends [n] to the world. *)
Definition say (n : nat) : @callable (list nat) nat () :=
  λ w, (Returned (), w ++ [n]).

(** A void task that throws [n]. *)
Definition boom (n : nat) : @callable (list nat) nat () :=
  λ w, (Raised (user_exn n), w).

(** A task that returns the square of [n]. *)
Definition square (n : nat) : @callable (list nat) nat nat :=
  λ w, (Returned (n * n), w).

(** A value-returning task that throws [n]. *)
Definition boom_R (n : nat) : @callable (list nat) nat nat :=
  λ w, (Raised (user_exn n), w).

(** A success callback that throws the value it is given, and a failure
    callback that returns. *)
Definition throwing_success (v : nat) : @callable (list nat) nat () :=
  λ w, (Raised (user_exn v), w).
Definition quiet_failure (e : exn nat) : @callable (list nat) nat () :=
  λ w, (Returned (), w).

(** A pool that has just been constructed, and the same pool destroyed. *)
Definition fresh_pool : @Pool (list nat) nat nat := new_pool [].
Definition sealed_pool : @Pool (list nat) nat nat :=
  set_destroyed true fresh_pool.

(** Two threads, three dispatches, and the destructor to its end. *)
Definition full_run : list (@move (list nat) nat nat) :=
  [Client (Dispatch (Some (say 1))); Client (DispatchR (Some (square 3)));
   Client (DispatchSerial [Some (say 5); Some (say 6)]); Destroy;
   Thread 0; Thread 0; Thread 0; Thread 0; Thread 0; Thread 0; Thread 0;
   Thread 0; Thread 0; Main; Thread 0; Main; Main; Main; Thread 1; Main;
   Main; Main; Thread 0; Thread 0; Main; Main; Main; Thread 1; Thread 1;
   Thread 1; Thread 1; Main; Main].

(** No thread, one dispatch, and the destructor to its end. *)
Definition run_without_threads : list (@move (list nat) nat nat) :=
  [Client (Dispatch (Some (say 1))); Destroy; Main; Main; Main; Main].

(** Two threads and the destructor up to the moment when the first drainer
    has found the queue empty, the second drainer not yet started. *)
Definition run_to_first_count : list (@move (list nat) nat nat) :=
  [Destroy; Main; Main; Main; Thread 0; Thread 1; Main; Main; Main; Main;
   Thread 0].

(** The same, up to the moment when the second drainer, too, has found the
    queue empty, the first having left. *)
Definition run_to_second_count : list (@move (list nat) nat nat) :=
  run_to_first_count ++ [Thread 0; Main; Thread 1].

(** A value-returning task that throws is dispatched to a pool of one
    thread; the thread takes the wrapper from the queue and calls the task:
    it has now the exception to store in the promise. *)
Definition run_to_set_exception : list (@move (list nat) nat nat) :=
  [Client (DispatchR (Some (boom_R 5))); Thread 0; Thread 0].

(** Two threads and the destructor up to the moment when the first drainer
    has started and is about to look at the queue. *)
Definition run_to_first_drainer : list (@move (list nat) nat nat) :=
  [Destroy; Main; Main; Main; Thread 0; Thread 1; Main; Main; Main; Main].

(** Two tasks are dispatched and a worker has taken the first. *)
Definition run_to_first_taken : list (@move (list nat) nat nat) :=
  [Client (Dispatch (Some (say 1))); Client (Dispatch (Some (say 2)));
   Thread 0].

(** A void task that throws is dispatched and a worker has taken it. *)
Definition run_to_throwing_task : list (@move (list nat) nat nat) :=
  [Client (Dispatch (Some (boom 7))); Thread 0].

(** [dispatchSync<R>] of two tasks; a worker runs the first wrapper to its
    end, and the owner gets the first future. *)
Definition run_to_first_result : list (@move (list nat) nat nat) :=
  [Client (DispatchSyncR [Some (square 2); Some (square 3)]);
   Thread 0; Thread 0; Thread 0; Main].

(** The void [dispatchSync] of two tasks; a worker has taken the first
    wrapper and called its task, and has the counter to decrement. *)
Definition run_to_first_decrement : list (@move (list nat) nat nat) :=
  [Client (DispatchSync [Some (say 1); Some (say 2)]); Thread 0; Thread 0].

(** The state a pool of [n] threads, constructed on the empty world, is in
    after the moves [mvs] (the new pool itself when they cannot be made). *)
Definition after (mvs : list (@move (list nat) nat nat)) (n : nat)
    : @TaskPool (list nat) nat nat :=
  default (TaskPool_new n []) (run mvs (TaskPool_new n [])).

(** One thread and one other caller, whose dispatch passes the gate before
    the owner enters the destructor; the worker takes its empty task and
    returns. *)
Definition run_to_late_dispatch : list (@sys_move (list nat) nat nat) :=
  [Call 0 (Dispatch (Some (say 1))); Other 0; Own Destroy; Own Main;
   Own Main; Own (Thread 0)].

(** The caller enqueues its task while the destructor is about to join the
    worker: no dispatch is under way any more. *)
Definition run_to_late_enqueue : list (@sys_move (list nat) nat nat) :=
  run_to_late_dispatch ++ [Other 0].

(** From there the destructor to its end: the drainer takes the task, runs
    it, finds the queue empty twice and returns. *)
Definition run_drainer_to_end : list (@sys_move (list nat) nat nat) :=
  [Own Main; Own Main; Own Main; Own Main; Own (Thread 0); Own (Thread 0);
   Own (Thread 0); Own (Thread 0); Own (Thread 0); Own (Thread 0); Own Main;
   Own Main].

(** The caller enqueues its task after the drainer has returned, before
    the destructor has joined it. *)
Definition run_to_missed_task : list (@sys_move (list nat) nat nat) :=
  run_to_late_dispatch ++
  [Own Main; Own Main; Own Main; Own Main; Own (Thread 0); Own (Thread 0);
   Own (Thread 0); Own (Thread 0); Other 0; Own Main; Own Main].

(** Two calls of [dispatchOnce] on the flag [7]; the one thread takes and
    runs the first wrapper, then the second. *)
Definition run_once_twice : list (@sys_move (list nat) nat nat) :=
  [Own (Client (DispatchOnce 7 (Some (say 1))));
   Own (Client (DispatchOnce 7 (Some (say 2))));
   Own (Thread 0); Own (Thread 0); Own (Thread 0); Own (Thread 0)].

(** The state a pool of [n] threads with [k] other callers, constructed on
    the empty world, is in after the moves [gs] (the new pool itself when
    they cannot be made). *)
Definition after_sys (gs : list (@sys_move (list nat) nat nat)) (n k : nat)
    : @System (list nat) nat nat :=
  default (System_new n k []) (sys_run gs (System_new n k [])).

(** * Properties *)

Section properties.

Context {World R E : Type}.

Abbreviation Task A := (option (@callable World E A)).
Abbreviation M := (@ST E (@Pool World R E)).

Implicit Types (s : @Pool World R E) (m : @TaskPool World R E).
Implicit Types (c : @closure World R E) (fr : @frame World R E).
Implicit Types (new : list (@closure World R E)).
Implicit Types (ths : list (@thread World R E)) (pc : @main_pc R).
Implicit Types (pr : @prog World R E) (σ : @System World R E).

(** ** The acceptance gate *)

Lemma checkArgs_destroyed {T} (task : option T) s :
  destroyed_ s = true → checkArgs task s = (Raised PoolDestroyed, s).
Proof. unfold checkArgs. by intros ->. Qed.

Lemma checkArgs_range_destroyed {T} (tasks : list (option T)) s :
  destroyed_ s = true → checkArgs_range tasks s = (Raised PoolDestroyed, s).
Proof. unfold checkArgs_range. by intros ->. Qed.

Lemma checkArgs_live {T} (task : option T) s :
  destroyed_ s = false →
  checkArgs task s =
    (if task is Some _ then Returned () else Raised InvalidTask, s).
Proof. unfold checkArgs. intros ->. by destruct task. Qed.

Lemma all_valid_spec {T} (tasks : list (option T)) :
  forallb (λ t, bool_decide (is_Some t)) tasks = true ↔ None ∉ tasks.
Proof.
  induction tasks as [|[x|] tasks IH]; simpl.
  - split; [intros _ H; inversion H | done].
  - rewrite IH. split.
    + intros H Hin. apply H. by inversion Hin.
    + intros H Hin. apply H. by right.
  - split; [done | intros H; destruct H; by left].
Qed.

Lemma checkArgs_range_live {T} (tasks : list (option T)) s :
  destroyed_ s = false →
  checkArgs_range tasks s =
    (if forallb (λ t, bool_decide (is_Some t)) tasks
     then Returned () else Raised InvalidTask, s).
Proof.
  unfold checkArgs_range. intros ->.
  by destruct (forallb _ tasks).
Qed.

Lemma checkArgs_range_invalid {T} (tasks : list (option T)) s :
  destroyed_ s = false → None ∈ tasks →
  checkArgs_range tasks s = (Raised InvalidTask, s).
Proof.
  intros Hd Hin. rewrite checkArgs_range_live by done.
  destruct (forallb _ tasks) eqn:Hall; [|done].
  by apply all_valid_spec in Hall.
Qed.

(** C3 (as amended). On a pool whose [destroyed_] flag is set, a dispatch
    operation that takes one task, and one that takes a range that is not
    empty, throws the "pool destroyed" error; one that takes an empty range
    returns at once with its empty result. In every case the pool's data,
    and so the queue, is left as it was. *)
Theorem dispatch_on_destroyed_pool (o : op) s :
  destroyed_ s = true →
  call_op o s =
    (match op_range o with
     | Some (0, _) => Returned (empty_reply o)
     | _ => Raised PoolDestroyed
     end, s).
Proof.
  intros Hd.
  destruct o as [t|t|ts|ts|ts|ts|ts|ts|fl t]; simpl;
    try (destruct ts as [|t0 ts]; [reflexivity|]);
    unfold dispatchOnce, dispatch, dispatch_R, dispatch_range,
      dispatch_range_R, dispatchSync, dispatchSync_R, dispatchSerial,
      dispatchSerial_R, bind;
    by rewrite ?checkArgs_destroyed, ?checkArgs_range_destroyed by done.
Qed.

(** C4. On a pool that is not destroyed, each of the six operations that
    take a range throws the "invalid task" error when the range holds an
    empty task, and leaves the pool's data, and so the queue, as it was:
    no task of the range is enqueued. *)
Theorem invalid_task_rejects_whole_range
    (vs : list (Task ())) (rs : list (Task R)) s :
  destroyed_ s = false →
  (None ∈ vs →
     dispatch_range vs s = (Raised InvalidTask, s) ∧
     dispatchSync vs s = (Raised InvalidTask, s) ∧
     dispatchSerial vs s = (Raised InvalidTask, s)) ∧
  (None ∈ rs →
     dispatch_range_R rs s = (Raised InvalidTask, s) ∧
     dispatchSync_R rs s = (Raised InvalidTask, s) ∧
     dispatchSerial_R rs s = (Raised InvalidTask, s)).
Proof.
  intros Hd. split; intros Hin.
  - destruct vs as [|v vs]; [by inversion Hin|].
    unfold dispatch_range, dispatchSync, dispatchSerial, bind.
    by rewrite checkArgs_range_invalid.
  - destruct rs as [|r rs]; [by inversion Hin|].
    unfold dispatch_range_R, dispatchSync_R, dispatchSerial_R, bind.
    by rewrite checkArgs_range_invalid.
Qed.


(** ** Running a task to its end *)

Local Arguments run_frame : simpl never.

Lemma run_frame_S n tid fr s :
  run_frame (S n) tid fr s =
    match frame_step tid fr s with
    | (Returned None, s') => (Returned true, s')
    | (Returned (Some fr'), s') => run_frame n tid fr' s'
    | (Raised e, s') => (Raised e, s')
    end.
Proof.
  unfold run_frame at 1. fold @run_frame. unfold bind.
  by destruct (frame_step tid fr s) as [[[fr'|]|e] s'].
Qed.

(** A promise that has not been set takes the outcome it is given. *)
Lemma fulfil_unset p (o : outcome E R) s :
  promises s !! p = Some Unset →
  fulfil p o s = (Returned (), set_promises (<[p:=slot_of o]> (promises s)) s).
Proof.
  intros Hp. destruct o; simpl; unfold try_catch, satisfy; by rewrite Hp.
Qed.

Lemma invoke_rfun_promises tid (t : option rfun) s :
  promises (invoke_rfun tid t s).2 = promises s.
Proof.
  destruct t as [[g|[g|]]|]; simpl; unfold throw, invoke; try done;
    by destruct (g (world s)).
Qed.

Lemma run_promise_wrapper tid p (t : option rfun) s :
  promises s !! p = Some Unset →
  run_closure tid (CPromise p t) s =
    (Returned true,
     set_promises (<[p:=slot_of (invoke_rfun tid t s).1]>
                     (promises (invoke_rfun tid t s).2))
                  (invoke_rfun tid t s).2).
Proof.
  intros Hp. unfold run_closure.
  change (frame_size _) with 2. rewrite run_frame_S. simpl.
  unfold bind, attempt. pose proof (invoke_rfun_promises tid t s) as Hsame.
  destruct (invoke_rfun tid t s) as [o s']. simpl in *.
  unfold ret. rewrite run_frame_S. simpl. unfold bind.
  by rewrite fulfil_unset by (by rewrite Hsame).
Qed.

(** C5. The single value-returning dispatch of a task with a target, on a
    pool that is not destroyed, returns a future whose state is not set and
    enqueues one wrapper. Whenever a thread runs that wrapper, the state
    not having been set before, the future resolves to what the task did
    then: the value it returned, or exactly the failure it raised. *)
Theorem dispatch_R_future_carries_outcome (g : callable R) s :
  destroyed_ s = false →
  let p := length (promises s) in
  let wrapper := CPromise p (Some (RUser g)) in
  ∃ s1,
    dispatch_R (Some (RUser g)) s = (Returned p, s1) ∧
    tasks_ s1 = tasks_ s ++ [Some wrapper] ∧
    promises s1 !! p = Some Unset ∧
    ∀ tid s2, promises s2 !! p = Some Unset →
      ∃ s3,
        run_closure tid wrapper s2 = (Returned true, s3) ∧
        future_get <$> promises s3 !! p = Some (Some (g (world s2)).1) ∧
        world s3 = (g (world s2)).2.
Proof.
  intros Hd p wrapper. eexists. split; [|split; [|split]].
  - unfold dispatch_R, bind. rewrite checkArgs_live by done. reflexivity.
  - reflexivity.
  - simpl. by rewrite lookup_app_r, Nat.sub_diag.
  - intros tid s2 Hp. eexists. split; [by apply run_promise_wrapper|].
    simpl. unfold invoke. destruct (g (world s2)) as [o w]. simpl.
    split; [|done].
    rewrite list_lookup_insert_eq by (by eapply lookup_lt_Some).
    by destruct o.
Qed.

(** *** The serial composites *)

Lemma set_world_id s : set_world (world s) (calls s ++ []) s = s.
Proof. destruct s. unfold set_world. simpl. by rewrite app_nil_r. Qed.

Lemma run_serial (fs : list (callable ())) tid n s :
  length fs < n →
  run_frame n tid (FSerial (Some <$> fs)) s =
    let '(called, o, w) := until_failure fs (world s) in
    (match o with Returned _ => Returned true | Raised e => Raised e end,
     set_world w (calls s ++ ((λ f, (tid, call_void f)) <$> called)) s).
Proof.
  revert n s. induction fs as [|f fs IH]; intros [|n] s Hn; simpl in Hn;
    try lia.
  - rewrite run_frame_S. simpl. unfold ret. by rewrite set_world_id.
  - rewrite run_frame_S. simpl. unfold bind, invoke.
    destruct (f (world s)) as [[[]|e] w'] eqn:Hf; simpl.
    + unfold ret. rewrite IH by lia. simpl.
      destruct (until_failure fs w') as [[called o] w''].
      unfold set_world. simpl. by rewrite <- app_assoc.
    + done.
Qed.

Lemma run_serial_closure (fs : list (callable ())) tid s :
  run_closure tid (CSerial (Some <$> fs)) s =
    let '(called, o, w) := until_failure fs (world s) in
    (match o with Returned _ => Returned true | Raised e => Raised e end,
     set_world w (calls s ++ ((λ f, (tid, call_void f)) <$> called)) s).
Proof.
  unfold run_closure. simpl frame_size. rewrite length_fmap.
  rewrite <- (run_serial fs tid (S (length fs)) s) by lia.
  by rewrite !run_frame_S.
Qed.

Lemma until_failure_all (fs : list (@callable World E ())) (w : World) :
  (∃ u, (until_failure fs w).1.2 = Returned u) →
  (until_failure fs w).1.1 = fs.
Proof.
  revert w. induction fs as [|f fs IH]; intros w [u Hu]; simpl in *; [done|].
  destruct (f w) as [[[]|e] w']; simpl in *; [|done].
  specialize (IH w'). destruct (until_failure fs w') as [[called o] w''].
  simpl in *. f_equal. apply IH. eauto.
Qed.

Lemma run_serial_R (gs : list (callable R)) tid b : ∀ i n s,
  (∀ j, j < length gs → promises s !! (b + i + j) = Some Unset) →
  2 * length gs < n →
  ∃ s',
    run_frame n tid (FSerialR b i (Some <$> gs)) s = (Returned true, s') ∧
    calls s' = calls s ++ ((λ g, (tid, call_R g)) <$> gs) ∧
    world s' = (in_order gs (world s)).2 ∧
    length (promises s') = length (promises s) ∧
    (∀ j o, (in_order gs (world s)).1 !! j = Some o →
            promises s' !! (b + i + j) = Some (slot_of o)) ∧
    (∀ q, q < b + i ∨ b + i + length gs ≤ q →
          promises s' !! q = promises s !! q).
Proof.
  induction gs as [|g gs IH]; intros i [|n] s Hun Hn; simpl in Hn; try lia.
  - exists s. rewrite run_frame_S. simpl. unfold ret.
    rewrite app_nil_r. by repeat split.
  - rewrite run_frame_S. simpl. unfold bind, attempt, invoke.
    destruct (g (world s)) as [o w'] eqn:Hg. unfold ret.
    destruct n as [|n]; [lia|]. rewrite run_frame_S. simpl. unfold bind.
    rewrite fulfil_unset
      by (simpl; rewrite <- (Hun 0) by (simpl; lia); f_equal; lia).
    unfold ret. simpl.
    set (s1 := set_promises _ _).
    destruct (IH (S i) n s1) as (s' & Hrun & Hcalls & Hworld & Hlen & Hset & Hold).
    { intros j Hj. subst s1. simpl.
      rewrite list_lookup_insert_ne by lia.
      rewrite <- (Hun (S j)) by (simpl; lia). f_equal. lia. }
    { lia. }
    exists s'. split; [done|]. subst s1. simpl in *.
    destruct (in_order gs w') as [os w''] eqn:Hio. simpl in *.
    split; [by rewrite Hcalls, <- app_assoc|]. split; [done|].
    split; [by rewrite Hlen, length_insert|]. split.
    + intros [|j] o' Hj; simpl in Hj.
      * inversion Hj; subst o'. rewrite Hold by lia.
        rewrite Nat.add_0_r. apply list_lookup_insert_eq.
        eapply lookup_lt_Some. rewrite <- (Hun 0) by (simpl; lia).
        f_equal. lia.
      * replace (b + i + S j) with (b + S i + j) by lia. by apply Hset.
    + intros q Hq. rewrite Hold by lia.
      apply list_lookup_insert_ne. lia.
Qed.

Lemma run_serial_R_closure (gs : list (callable R)) tid b s :
  (∀ j, j < length gs → promises s !! (b + j) = Some Unset) →
  ∃ s',
    run_closure tid (CSerialR b (Some <$> gs)) s = (Returned true, s') ∧
    calls s' = calls s ++ ((λ g, (tid, call_R g)) <$> gs) ∧
    world s' = (in_order gs (world s)).2 ∧
    (∀ j o, (in_order gs (world s)).1 !! j = Some o →
            promises s' !! (b + j) = Some (slot_of o)) ∧
    (∀ q, q < b ∨ b + length gs ≤ q → promises s' !! q = promises s !! q).
Proof.
  intros Hun.
  destruct (run_serial_R gs tid b 0 (S (2 * length gs)) s)
    as (s' & Hrun & Hcalls & Hworld & _ & Hset & Hold).
  { intros j Hj. rewrite Nat.add_0_r. by apply Hun. }
  { lia. }
  exists s'. split.
  - unfold run_closure. simpl frame_size. rewrite length_fmap.
    rewrite <- Hrun. by rewrite !run_frame_S.
  - split; [done|]. split; [done|]. split.
    + intros j o Hj. rewrite <- (Hset j o Hj). f_equal. lia.
    + intros q Hq. apply Hold. lia.
Qed.

Lemma dispatchSerial_R_live (gs : list (callable R)) s :
  destroyed_ s = false → gs ≠ [] →
  dispatchSerial_R (Some <$> gs) s =
    (Returned (seq (length (promises s)) (length gs)),
     (enqueue (Some (CSerialR (length (promises s)) (Some <$> gs)))
        (set_promises (promises s ++ replicate (length gs) Unset) s)).2).
Proof.
  intros Hd Hne. destruct gs as [|g gs]; [done|].
  unfold dispatchSerial_R. rewrite !fmap_cons.
  unfold bind. rewrite checkArgs_range_live by done.
  assert (forallb (λ t : option (callable R), bool_decide (is_Some t))
            (Some g :: (Some <$> gs)) = true) as ->.
  { apply all_valid_spec. intros Hin. rewrite <- fmap_cons in Hin.
    apply list_elem_of_fmap in Hin as (x & Hx & _). done. }
  unfold make_promises, dispatch, bind. rewrite checkArgs_live by done.
  simpl. by rewrite length_fmap.
Qed.

Lemma dispatchSerial_live (fs : list (callable ())) s :
  destroyed_ s = false → fs ≠ [] →
  dispatchSerial (Some <$> fs) s =
    (Returned (), (enqueue (Some (CSerial (Some <$> fs))) s).2).
Proof.
  intros Hd Hne. destruct fs as [|f fs]; [done|].
  unfold dispatchSerial. rewrite !fmap_cons.
  unfold bind. rewrite checkArgs_range_live by done.
  assert (forallb (λ t : option (callable ()), bool_decide (is_Some t))
            (Some f :: (Some <$> fs)) = true) as ->.
  { apply all_valid_spec. intros Hin. rewrite <- fmap_cons in Hin.
    apply list_elem_of_fmap in Hin as (x & Hx & _). done. }
  unfold dispatch, bind. by rewrite checkArgs_live by done.
Qed.


(** C6 (as amended). [dispatchSerial] of a non-empty range of tasks with
    targets, on a pool that is not destroyed, enqueues exactly one task,
    the composite that holds the whole range. The thread that runs the
    composite of the value-returning form calls every input, in input
    order, one after the other. The thread that runs the composite of the
    void form calls the inputs in input order, one after the other, up to
    and including the first one that throws: all of them when none throws,
    and then the composite returns. *)
Theorem serial_batch_is_one_composite_run_in_order
    (fs : list (callable ())) (gs : list (callable R)) s :
  destroyed_ s = false →
  (fs ≠ [] →
     let composite := CSerial (Some <$> fs) in
     (∃ s1, dispatchSerial (Some <$> fs) s = (Returned (), s1) ∧
            tasks_ s1 = tasks_ s ++ [Some composite]) ∧
     ∀ tid s2, ∃ r s3,
       run_closure tid composite s2 = (r, s3) ∧
       calls s3 =
         calls s2 ++
         ((λ f, (tid, call_void f)) <$> (until_failure fs (world s2)).1.1) ∧
       r = match (until_failure fs (world s2)).1.2 with
           | Returned _ => Returned true
           | Raised e => Raised e
           end ∧
       (r = Returned true → (until_failure fs (world s2)).1.1 = fs)) ∧
  (gs ≠ [] →
     let b := length (promises s) in
     let composite := CSerialR b (Some <$> gs) in
     (∃ s1, dispatchSerial_R (Some <$> gs) s =
              (Returned (seq b (length gs)), s1) ∧
            tasks_ s1 = tasks_ s ++ [Some composite]) ∧
     ∀ tid s2, (∀ j, j < length gs → promises s2 !! (b + j) = Some Unset) →
       ∃ s3, run_closure tid composite s2 = (Returned true, s3) ∧
             calls s3 = calls s2 ++ ((λ g, (tid, call_R g)) <$> gs)).
Proof.
  intros Hd. split; intros Hne; simpl; (split; [eexists; split|]).
  - by apply dispatchSerial_live.
  - done.
  - intros tid s2. rewrite run_serial_closure.
    pose proof (until_failure_all fs (world s2)) as Hall.
    destruct (until_failure fs (world s2)) as [[called o] w]. simpl in *.
    do 2 eexists. split; [done|]. split; [done|]. split; [done|].
    destruct o as [[]|e]; [eauto|done].
  - by apply dispatchSerial_R_live.
  - done.
  - intros tid s2 Hun.
    destruct (run_serial_R_closure gs tid (length (promises s)) s2 Hun)
      as (s3 & Hrun & Hcalls & _).
    eauto.
Qed.

(** C7. [dispatchSerial<R>] of a non-empty range of tasks with targets, on
    a pool that is not destroyed, makes one promise per input, returns
    their futures in input order, over states that are not set, and
    enqueues exactly one task: the composite that holds the whole range
    and the promises. The thread that runs that composite calls every
    input, whether or not an earlier one failed, and the future at each
    position resolves to what the task at that position did: the value it
    returned or the failure it raised. *)
Theorem serial_R_sets_each_slot_on_its_own (gs : list (callable R)) s :
  destroyed_ s = false → gs ≠ [] →
  let b := length (promises s) in
  let composite := CSerialR b (Some <$> gs) in
  ∃ s1,
    dispatchSerial_R (Some <$> gs) s = (Returned (seq b (length gs)), s1) ∧
    tasks_ s1 = tasks_ s ++ [Some composite] ∧
    promises s1 = promises s ++ replicate (length gs) Unset ∧
    (∀ j, j < length gs → promises s1 !! (b + j) = Some Unset) ∧
    ∀ tid s2, (∀ j, j < length gs → promises s2 !! (b + j) = Some Unset) →
      ∃ s3,
        run_closure tid composite s2 = (Returned true, s3) ∧
        calls s3 = calls s2 ++ ((λ g, (tid, call_R g)) <$> gs) ∧
        length (in_order gs (world s2)).1 = length gs ∧
        ∀ j o, (in_order gs (world s2)).1 !! j = Some o →
               future_get <$> promises s3 !! (b + j) = Some (Some o).
Proof.
  intros Hd Hne. simpl. eexists. split; [by apply dispatchSerial_R_live|].
  split; [done|]. split; [done|]. split.
  - intros j Hj. simpl. rewrite lookup_app_r by lia.
    apply lookup_replicate. split; [done|lia].
  - intros tid s2 Hun.
    destruct (run_serial_R_closure gs tid (length (promises s)) s2 Hun)
      as (s3 & Hrun & Hcalls & _ & Hset & _).
    exists s3. split; [done|]. split; [done|]. split.
    + clear. generalize (world s2). induction gs as [|g gs IH]; intros w;
        simpl; [done|].
      destruct (g w) as [o w']. specialize (IH w').
      destruct (in_order gs w') as [os w'']. simpl in *. by rewrite IH.
    + intros j o Hj. rewrite (Hset j o Hj). by destruct o.
Qed.

(** ** The completion helpers *)

(** C8 (as amended). The thread of [onComplete], once the future is
    resolved: on a failure it calls the failure callback with that failure
    and nothing else; on a value it calls the success callback with that
    value, and nothing else when that callback returns. (When the success
    callback itself throws, the same handler catches what it threw and
    calls the failure callback with it.) *)
Theorem onComplete_routes (future : slot E R) (success : R → callable ())
    (failure : exn E → callable ()) (st : @Observer World R E) :
  match future with
  | Unset => onComplete future success failure = None
  | Failure e =>
      ∃ body, onComplete future success failure = Some body ∧
        obs_calls (body st).2 = obs_calls st ++ [called_failure e]
  | Value v =>
      ∃ body, onComplete future success failure = Some body ∧
        obs_calls (body st).2 =
          obs_calls st ++
          match (success v (obs_world st)).1 with
          | Returned _ => [called_success v]
          | Raised e' => [called_success v; called_failure e']
          end
  end.
Proof.
  destruct future as [|v|e]; simpl; [done| |].
  - eexists. split; [done|].
    unfold try_catch, bind, got, call_back. simpl.
    destruct (success v (obs_world st)) as [[[]|e'] w]; simpl; [done|].
    destruct (failure e' w) as [o w']. simpl. by rewrite <- app_assoc.
  - eexists. split; [done|].
    unfold try_catch, bind, got, call_back. simpl.
    by destruct (failure e (obs_world st)) as [o w'].
Qed.

(** ** The machine *)

Lemma sum_list_with_insert {A} (w : A → nat) (l : list A) i x y :
  l !! i = Some x →
  sum_list_with w (<[i:=y]> l) + w x = sum_list_with w l + w y.
Proof.
  revert i. induction l as [|a l IH]; intros [|i] Hi; simpl in *; try done.
  - inversion Hi; subst. lia.
  - specialize (IH i Hi). lia.
Qed.

(** *** What a step inside a task leaves alone *)

Lemma same_queue_refl s : same_queue s s.
Proof. by repeat split. Qed.

Lemma same_queue_trans s1 s2 s3 :
  same_queue s1 s2 → same_queue s2 s3 → same_queue s1 s3.
Proof.
  intros (?&?&?&?) (?&?&?&?). repeat split; congruence.
Qed.

Lemma invoke_same_queue {A} tid mk (t : Task A) s :
  same_queue s (invoke tid mk t s).2.
Proof.
  unfold invoke. destruct t as [g|]; [|apply same_queue_refl].
  by destruct (g (world s)).
Qed.

Lemma invoke_rfun_same_queue tid (t : option rfun) s :
  same_queue s (invoke_rfun tid t s).2.
Proof.
  destruct t as [[g|t]|].
  - exact (invoke_same_queue tid call_R (Some g) s).
  - exact (invoke_same_queue tid call_R t s).
  - apply same_queue_refl.
Qed.

Lemma satisfy_same_queue p (v : slot E R) s :
  same_queue s (satisfy p v s).2.
Proof.
  unfold satisfy.
  destruct (promises s !! p) as [[| |]|]; try apply same_queue_refl; done.
Qed.

Lemma fulfil_same_queue p (o : outcome E R) s :
  same_queue s (fulfil p o s).2.
Proof.
  destruct o as [v|e]; simpl; [|apply satisfy_same_queue].
  unfold try_catch.
  pose proof (satisfy_same_queue p (Value v) s) as H1.
  destruct (satisfy p (Value v) s) as [[[]|e] s1]; [done|].
  eapply same_queue_trans; [exact H1|apply satisfy_same_queue].
Qed.

Lemma frame_step_same_queue tid fr s :
  same_queue s (frame_step tid fr s).2.
Proof.
  destruct fr as [[g|p t|cnt t|ts|b ts|fl t]|p o|cnt|ts|b i ts|b i o ts];
    simpl; unfold bind, attempt, serial_step, serialR_step, call_once,
      count_down, ret.
  - pose proof (invoke_same_queue tid call_void (Some g) s).
    by destruct (invoke _ _ _ s) as [[] ?].
  - pose proof (invoke_rfun_same_queue tid t s).
    by destruct (invoke_rfun _ _ s).
  - pose proof (invoke_same_queue tid call_void t s).
    by destruct (invoke _ _ _ s) as [[] ?].
  - destruct ts as [|t ts]; [apply same_queue_refl|]. unfold bind.
    pose proof (invoke_same_queue tid call_void t s).
    by destruct (invoke _ _ _ s) as [[] ?].
  - destruct ts as [|t ts]; [apply same_queue_refl|]. unfold bind, attempt.
    pose proof (invoke_same_queue tid call_R t s).
    by destruct (invoke _ _ _ s).
  - destruct (bool_decide _); [apply same_queue_refl|]. unfold bind.
    pose proof (invoke_same_queue tid call_void t s).
    by destruct (invoke _ _ _ s) as [[] ?].
  - pose proof (fulfil_same_queue p o s).
    by destruct (fulfil p o s) as [[] ?].
  - done.
  - destruct ts as [|t ts]; [apply same_queue_refl|]. unfold bind.
    pose proof (invoke_same_queue tid call_void t s).
    by destruct (invoke _ _ _ s) as [[] ?].
  - destruct ts as [|t ts]; [apply same_queue_refl|]. unfold bind, attempt.
    pose proof (invoke_same_queue tid call_R t s).
    by destruct (invoke _ _ _ s).
  - pose proof (fulfil_same_queue (b + i) o s).
    by destruct (fulfil _ o s) as [[] ?].
Qed.

Lemma frame_size_pos fr : 0 < frame_size fr.
Proof. destruct fr as [[]| | | | |]; simpl; lia. Qed.

Lemma frame_step_size tid fr fr' s s' :
  frame_step tid fr s = (Returned (Some fr'), s') →
  frame_size fr' < frame_size fr.
Proof.
  destruct fr as [[g|p t|cnt t|ts|b ts|fl t]|p o|cnt|ts|b i ts|b i o ts];
    simpl; unfold bind, attempt, serial_step, serialR_step, call_once,
      count_down, ret; intros H;
    repeat match type of H with
    | context [match ?l with [] => _ | _ :: _ => _ end] => destruct l
    | context [let (_, _) := ?x in _] => destruct x as [[] ?]
    | context [if ?b then _ else _] => destruct b
    | context [bind _ _ _] => unfold bind, attempt in H
    end;
    inversion H; subst; simpl; lia.
Qed.

(** *** What a dispatch operation does to the queue

    On a pool that is not destroyed, an operation appends tasks that are
    not empty to the queue and touches neither what is already there nor
    the flag. *)

Lemma accepts_nothing {A} (mop : M A) :
  (∀ s, same_queue s (mop s).2) → accepts mop.
Proof.
  intros H s Hd. destruct (H s) as (Hq & Ha & He & Hd').
  exists []. simpl. rewrite !app_nil_r. repeat split; congruence.
Qed.

Lemma accepts_bind {A B} (mop : M A) (k : A → M B) :
  accepts mop → (∀ a, accepts (k a)) → accepts (bind mop k).
Proof.
  intros Hm Hk s Hd. unfold bind.
  destruct (Hm s Hd) as (new1 & Hq1 & Ha1 & He1 & Hd1).
  destruct (mop s) as [[a|e] s1]; simpl in *; [|by exists new1].
  destruct (Hk a s1 Hd1) as (new2 & Hq2 & Ha2 & He2 & Hd2).
  exists (new1 ++ new2).
  rewrite Hq2, Ha2, He2, Hq1, Ha1, He1, fmap_app, !app_assoc. done.
Qed.

Lemma accepts_ret {A} (a : A) : accepts (ret a : M A).
Proof. apply accepts_nothing. intros s. apply same_queue_refl. Qed.

Lemma accepts_checkArgs {T} (task : option T) :
  accepts (checkArgs task : M ()).
Proof.
  apply accepts_nothing. intros s. unfold checkArgs.
  destruct (destroyed_ s); [apply same_queue_refl|].
  destruct (negb _); apply same_queue_refl.
Qed.

Lemma accepts_checkArgs_range {T} (tasks : list (option T)) :
  accepts (checkArgs_range tasks : M ()).
Proof.
  apply accepts_nothing. intros s. unfold checkArgs_range.
  destruct (destroyed_ s); [apply same_queue_refl|].
  destruct (negb _); apply same_queue_refl.
Qed.

Lemma accepts_enqueue c : accepts (enqueue (Some c)).
Proof. intros s Hd. by exists [c]. Qed.

Lemma accepts_dispatch (task : option closure) :
  accepts (dispatch task : M ()).
Proof.
  destruct task as [c|].
  - apply accepts_bind; [apply accepts_checkArgs|].
    intros _. apply accepts_enqueue.
  - apply accepts_nothing. intros s. unfold dispatch, bind, checkArgs.
    destruct (destroyed_ s); apply same_queue_refl.
Qed.

Lemma accepts_dispatch_R (task : option rfun) :
  accepts (dispatch_R task : M nat).
Proof.
  apply accepts_bind; [apply accepts_checkArgs|]. intros _.
  apply accepts_bind; [by apply accepts_nothing|]. intros p.
  apply accepts_bind; [apply accepts_enqueue|]. intros _. apply accepts_ret.
Qed.

Lemma accepts_for_each {A B} (k : A → M B) (l : list A) :
  (∀ a, accepts (k a)) → accepts (for_each k l).
Proof.
  intros Hk. induction l as [|a l IH]; simpl; [apply accepts_ret|].
  apply accepts_bind; [done|]. intros b.
  apply accepts_bind; [done|]. intros bs. apply accepts_ret.
Qed.

Lemma valid_range_fmap (l : list (Task ())) :
  None ∉ l →
  (λ t : Task (), @CUser World R E <$> t) <$> l
  = Some <$> omap (fmap CUser) l.
Proof.
  induction l as [|[g|] l IH]; intros Hl; [done| |].
  - rewrite fmap_cons, IH; [done|]. intros Hin. apply Hl. by right.
  - destruct Hl. by left.
Qed.

Lemma omap_id_Some {A} (l : list A) : omap id (Some <$> l) = l.
Proof. induction l as [|a l IH]; csimpl; [done|]. by f_equal. Qed.

Lemma accepts_dispatch_range (tasks : list (Task ())) :
  accepts (dispatch_range tasks : M ()).
Proof.
  destruct tasks as [|t ts]; [apply accepts_ret|].
  intros s Hd. unfold dispatch_range, bind.
  rewrite checkArgs_range_live by done.
  destruct (forallb _ (t :: ts)) eqn:Hall.
  - exists (omap (fmap CUser) (t :: ts)).
    apply all_valid_spec in Hall.
    unfold enqueue_bulk. rewrite (valid_range_fmap _ Hall).
    cbn [snd tasks_ accepted executed destroyed_ set_queue].
    by rewrite omap_id_Some.
  - exists []. simpl. by rewrite !app_nil_r.
Qed.

Lemma accepts_call_op (o : op) : accepts (call_op o : M reply).
Proof.
  destruct o as [t|t|ts|ts|ts|ts|ts|ts|fl t]; simpl;
    (apply accepts_bind; [|intros; apply accepts_ret]).
  - apply accepts_dispatch.
  - apply accepts_dispatch_R.
  - apply accepts_dispatch_range.
  - destruct ts; [apply accepts_ret|].
    apply accepts_bind; [apply accepts_checkArgs_range|]. intros _.
    apply accepts_for_each. intros. apply accepts_dispatch_R.
  - destruct ts; [apply accepts_ret|].
    apply accepts_bind; [apply accepts_checkArgs_range|]. intros _.
    apply accepts_bind; [by apply accepts_nothing|]. intros cnt.
    apply accepts_bind; [|intros; apply accepts_ret].
    apply accepts_for_each. intros. apply accepts_dispatch.
  - destruct ts; [apply accepts_ret|].
    apply accepts_bind; [apply accepts_checkArgs_range|]. intros _.
    apply accepts_bind; [|intros; apply accepts_ret].
    apply accepts_for_each. intros. apply accepts_dispatch_R.
  - destruct ts; [apply accepts_ret|].
    apply accepts_bind; [apply accepts_checkArgs_range|]. intros _.
    apply accepts_dispatch.
  - destruct ts; [apply accepts_ret|].
    apply accepts_bind; [apply accepts_checkArgs_range|]. intros _.
    apply accepts_bind; [by apply accepts_nothing|]. intros b.
    apply accepts_bind; [apply accepts_dispatch|]. intros; apply accepts_ret.
  - apply accepts_dispatch.
Qed.

(** *** The invariant *)

Lemma sentinel_accepted new :
  sum_list_with sentinel (Some <$> new) = 0.
Proof. induction new as [|c new IH]; csimpl; [done|]. by rewrite IH. Qed.

Lemma sum_live_all ths :
  (∀ j t, ths !! j = Some t → live t = 1) →
  sum_list_with live ths = length ths.
Proof.
  induction ths as [|t ths IH]; intros H; simpl; [done|].
  rewrite (H 0 t) by done. rewrite IH; [done|].
  intros j t' Hj. by apply (H (S j)).
Qed.

Lemma sum_zero_all {A} (w : A → nat) (l : list A) :
  (∀ j a, l !! j = Some a → w a = 0) → sum_list_with w l = 0.
Proof.
  induction l as [|a l IH]; intros H; simpl; [done|].
  rewrite (H 0 a) by done. rewrite IH; [done|].
  intros j a' Hj. by apply (H (S j)).
Qed.

Lemma thread_ok_insert pc ths i t' :
  (∀ j t, ths !! j = Some t → thread_ok pc j t) →
  thread_ok pc i t' →
  ∀ j t, <[i:=t']> ths !! j = Some t → thread_ok pc j t.
Proof.
  intros Hall Hi j t Hj. destruct (decide (i = j)) as [->|Hne].
  - destruct (decide (j < length ths)) as [Hlt|Hge].
    + rewrite list_lookup_insert_eq in Hj by done. by inversion Hj; subst.
    + rewrite list_insert_ge in Hj by lia. by apply Hall.
  - rewrite list_lookup_insert_ne in Hj by done. by apply Hall.
Qed.

Lemma drained_insert pc ths (P : Prop) i t' :
  (∀ j t, ths !! j = Some t → drained pc j t → P) →
  (drained pc i t' → P) →
  ∀ j t, <[i:=t']> ths !! j = Some t → drained pc j t → P.
Proof.
  intros Hall Hi j t Hj. destruct (decide (i = j)) as [->|Hne].
  - destruct (decide (j < length ths)) as [Hlt|Hge].
    + rewrite list_lookup_insert_eq in Hj by done. by inversion Hj; subst.
    + rewrite list_insert_ge in Hj by lia. by apply Hall.
  - rewrite list_lookup_insert_ne in Hj by done. by apply Hall.
Qed.

Lemma invariant_new n (w : World) :
  invariant (TaskPool_new (R:=R) (E:=E) n w).
Proof.
  assert (∀ k ths, spawn_workers k ths = ths ++ replicate k WWait) as Hsp.
  { induction k as [|k IH]; intros ths; simpl; [by rewrite app_nil_r|].
    rewrite IH, <- app_assoc. done. }
  unfold invariant, running_ok. simpl. rewrite Hsp. simpl.
  split; [by rewrite length_replicate|]. split; [done|].
  split; [|done].
  intros j t Hj. apply lookup_replicate in Hj as [-> _]. done.
Qed.

Lemma invariant_client o m m' :
  terminated m = None → running_ok m → client_step o m = Some m' →
  invariant m'.
Proof.
  intros Hterm (Hlen & Hperm & Hth & Hdr & Hph & Hcnt) Hstep.
  unfold client_step in Hstep.
  destruct (main m) eqn:Hpc; try done.
  unfold phase_ok in Hph. rewrite Hpc in *. destruct Hph as [Hd Hsen].
  destruct (accepts_call_op o (shared m) Hd) as (new & Hq & Ha & He & Hd').
  destruct (call_op o (shared m)) as [r s']. simpl in *.
  inversion Hstep; subst m'; clear Hstep.
  unfold invariant, running_ok. simpl. rewrite Hterm.
  split; [done|]. split.
  { rewrite Hq, Ha, He, omap_app, omap_id_Some, Hperm.
    by rewrite app_assoc. }
  assert (sum_list_with sentinel (tasks_ s') = 0) as Hsen'.
  { by rewrite Hq, sum_list_with_app, sentinel_accepted, Hsen. }
  destruct r as [[]|]; simpl; rewrite ?Hpc; repeat split; try done.
Qed.

Lemma invariant_destroy m m' :
  terminated m = None → running_ok m → destroy_step m = Some m' →
  invariant m'.
Proof.
  intros Hterm (Hlen & Hperm & Hth & Hdr & Hph & Hcnt) Hstep.
  unfold destroy_step in Hstep.
  destruct (main m) eqn:Hpc; try done.
  unfold phase_ok in Hph. rewrite Hpc in *. destruct Hph as [Hd Hsen].
  inversion Hstep; subst m'; clear Hstep.
  unfold invariant, running_ok. simpl. rewrite Hterm.
  split; [done|]. split; [done|]. split.
  { intros j t Hj. specialize (Hth j t Hj). simpl in Hth. by destruct t. }
  split; [done|]. split; [|done].
  split; [lia|]. simpl. rewrite Hsen, sum_live_all by done. lia.
Qed.

Ltac open_invariant :=
  unfold invariant, running_ok, phase_ok, counter_ok, pending; simpl.

Lemma invariant_main m m' :
  terminated m = None → running_ok m → main_step m = Some m' →
  invariant m'.
Proof.
  intros Hterm (Hlen & Hperm & Hth & Hdr & Hph & Hcnt) Hstep.
  unfold main_step in Hstep. unfold phase_ok, counter_ok, pending in *.
  destruct (main m) as [|cnt|fs rs|i|i|i|i|] eqn:Hpc; try done;
    simpl in Hth, Hdr.
  - (* blocked in dispatchSync *)
    destruct Hph as [Hd Hsen]. destruct (decide _); [|done]. inversion Hstep; subst m'.
    open_invariant. rewrite Hterm. by repeat split.
  - (* gathering the futures of dispatchSync<R> *)
    destruct Hph as [Hd Hsen].
    assert (invariant (set_main MIdle m)) as Hidle.
    { open_invariant. rewrite Hterm. by repeat split. }
    destruct fs as [|p ps]; [by inversion Hstep; subst m'|].
    destruct (promises (shared m) !! p) as [[|v|e]|]; try done;
      inversion Hstep; subst m'; [|done].
    open_invariant. rewrite Hterm. by repeat split.
  - (* enqueueing the sentinels *)
    destruct Hph as [Hi Hsen]. destruct (decide (i < numThreads_ m)).
    + inversion Hstep; subst m'. open_invariant. rewrite Hterm.
      split; [done|]. split.
      { by rewrite omap_app, !app_nil_r. }
      split; [done|]. split; [done|]. split; [|done].
      split; [lia|]. rewrite sum_list_with_app. simpl. lia.
    + inversion Hstep; subst m'. open_invariant. rewrite Hterm.
      split; [done|]. split; [done|]. split.
      { intros j t Hj. split; [by apply (Hth j t)|lia]. }
      split; [done|]. split; [|done]. split; lia.
  - (* joining the workers *)
    destruct Hph as [Hi Hsen].
    destruct (threads_ m !! i) as [t|] eqn:Hlook.
    + destruct t; try done. inversion Hstep; subst m'.
      open_invariant. rewrite Hterm.
      split; [done|]. split; [done|]. split.
      { intros j t Hj. destruct (Hth j t Hj) as [Hw Hdone].
        split; [done|]. intros Hlt.
        destruct (decide (j = i)) as [->|]; [congruence|]. apply Hdone. lia. }
      split; [done|]. split; [|done].
      apply lookup_lt_Some in Hlook. split; lia.
    + inversion Hstep; subst m'. open_invariant. rewrite Hterm.
      apply lookup_ge_None in Hlook.
      assert (∀ j t, threads_ m !! j = Some t → t = TDone) as Hall.
      { intros j t Hj. apply (Hth j t Hj).
        apply lookup_lt_Some in Hj. lia. }
      split; [done|]. split; [done|]. split.
      { intros j t Hj. simpl. by apply (Hall j). }
      split; [intros j t _ [? _]; lia|]. split; [lia|].
      exists 0. split; [done|].
      rewrite (sum_zero_all active)
        by (intros j t Hj; by rewrite (Hall j t Hj)).
      destruct (numThreads_ m); [by right; right|left; lia].
  - (* starting the drainers *)
    destruct (threads_ m !! i) as [t|] eqn:Hlook.
    + inversion Hstep; subst m'. open_invariant. rewrite Hterm.
      pose proof (lookup_lt_Some _ _ _ Hlook) as Hlt.
      assert (t = TDone) as ->.
      { specialize (Hth i t Hlook). simpl in Hth.
        by rewrite decide_False in Hth by lia. }
      split; [by rewrite length_insert|]. split; [done|]. split.
      { intros j t Hj. destruct (decide (i = j)) as [->|Hne].
        - rewrite list_lookup_insert_eq in Hj by done.
          inversion Hj; subst t. by rewrite decide_True by lia.
        - rewrite list_lookup_insert_ne in Hj by done.
          specialize (Hth j t Hj). simpl in Hth.
          destruct (decide (j < i)).
          + by rewrite decide_True by lia.
          + by rewrite decide_False by lia. }
      split.
      { intros j t Hj [Hji Hsaw]. destruct (decide (i = j)) as [->|Hne].
        - rewrite list_lookup_insert_eq in Hj by done. by inversion Hj; subst t.
        - rewrite list_lookup_insert_ne in Hj by done.
          apply (Hdr j t Hj). split; [lia|done]. }
      split; [lia|].
      destruct Hcnt as (k & Hk & Hcases). exists k. split; [done|].
      pose proof (sum_list_with_insert active _ _ _ DPump Hlook) as Hsum.
      simpl in Hsum. lia.
    + inversion Hstep; subst m'. open_invariant. rewrite Hterm.
      apply lookup_ge_None in Hlook.
      split; [done|]. split; [done|]. split.
      { intros j t Hj. specialize (Hth j t Hj). simpl in Hth.
        pose proof (lookup_lt_Some _ _ _ Hj).
        rewrite decide_True in Hth by lia. split; [done|lia]. }
      split.
      { intros j t Hj Hsaw. apply (Hdr j t Hj). split; [|done].
        apply lookup_lt_Some in Hj. lia. }
      split; [lia|].
      destruct Hcnt as (k & Hk & Hcases). exists k. split; [done|]. lia.
  - (* joining the drainers *)
    destruct (threads_ m !! i) as [t|] eqn:Hlook.
    + destruct t; try done. inversion Hstep; subst m'.
      open_invariant. rewrite Hterm.
      split; [done|]. split; [done|]. split.
      { intros j t Hj. destruct (Hth j t Hj) as [Hw Hdone].
        split; [done|]. intros Hlt.
        destruct (decide (j = i)) as [->|]; [congruence|]. apply Hdone. lia. }
      split; [done|]. split; [|done].
      apply lookup_lt_Some in Hlook. lia.
    + inversion Hstep; subst m'. open_invariant. rewrite Hterm.
      apply lookup_ge_None in Hlook.
      assert (∀ j t, threads_ m !! j = Some t → t = TDone) as Hall.
      { intros j t Hj. apply (Hth j t Hj).
        apply lookup_lt_Some in Hj. lia. }
      split; [done|]. split; [done|]. split; [done|]. split; [|done].
      intros j t Hj _. apply (Hdr j t Hj). simpl. by rewrite (Hall j t Hj).
Qed.

(** A thread moves on without touching the queue. *)
Lemma running_ok_thread m i t t' s' :
  running_ok m → threads_ m !! i = Some t →
  same_queue (shared m) s' →
  live t' = live t → active t' = active t →
  is_worker t' = is_worker t → is_drainer t' = is_drainer t →
  (saw_empty t' → ¬ saw_empty t → tasks_ s' = []) →
  t ≠ TDone → t' ≠ TDone →
  running_ok (set_thread i t' (set_shared s' m)).
Proof.
  intros (Hlen & Hperm & Hth & Hdr & Hph & Hcnt) Hi (Hq & Ha & He & Hd)
    Hlive Hact Hwork Hdrain Hsaw Ht Ht'.
  pose proof (sum_list_with_insert live _ _ _ t' Hi) as Hsum_live.
  pose proof (sum_list_with_insert active _ _ _ t' Hi) as Hsum_act.
  pose proof (Hth i t Hi) as Hok. pose proof (Hdr i t Hi) as Hdri.
  unfold running_ok, phase_ok, counter_ok, pending in *. simpl.
  rewrite Hq, Ha, He, Hd, length_insert.
  split; [done|]. split; [done|]. split; [|split].
  - apply thread_ok_insert; [done|].
    destruct (main m) as [|cnt|fs rs|k|k|k|k|]; simpl in *.
    + lia.
    + lia.
    + lia.
    + congruence.
    + split; [by rewrite Hwork; apply Hok|]. intros Hlt.
      destruct Hok as [_ Hdone]. destruct Ht. by apply Hdone.
    + destruct (decide (i < k)); [congruence|done].
    + split; [by rewrite Hdrain; apply Hok|]. intros Hlt.
      destruct Hok as [_ Hdone]. destruct Ht. by apply Hdone.
    + done.
  - apply drained_insert; [done|].
    destruct (main m) as [|cnt|fs rs|k|k|k|k|]; simpl in *; try done.
    + intros [Hlt Hs]. destruct (saw_empty t) eqn:Hst.
      * by apply Hdri.
      * rewrite <- Hq. apply Hsaw; [done|]. by intros ?.
    + intros Hs. destruct (saw_empty t) eqn:Hst.
      * by apply Hdri.
      * rewrite <- Hq. apply Hsaw; [done|]. by intros ?.
  - destruct (main m) as [|cnt|fs rs|k|k|k|k|]; simpl in *;
      try (split; [done|]); try done; try lia.
    + destruct Hcnt as (n & Hn & Hcases). exists n. lia.
    + destruct Hcnt as (n & Hn & Hcases). exists n. lia.
Qed.

Lemma sum_list_with_lookup {A} (w : A → nat) (l : list A) i x :
  l !! i = Some x → w x ≤ sum_list_with w l.
Proof.
  revert i. induction l as [|a l IH]; intros [|i] Hi; simpl in *; try done.
  - inversion Hi; subst. lia.
  - specialize (IH i Hi). lia.
Qed.

(** A thread takes a task that is not empty from the queue. *)
Lemma running_ok_take m i t t' c q :
  running_ok m → threads_ m !! i = Some t →
  tasks_ (shared m) = Some c :: q →
  live t' = live t → active t' = active t →
  is_worker t' = is_worker t → is_drainer t' = is_drainer t →
  saw_empty t' = false → t ≠ TDone → t' ≠ TDone →
  running_ok
    (set_thread i t'
       (set_shared
          (set_queue q (accepted (shared m)) (executed (shared m) ++ [c])
             (shared m)) m)).
Proof.
  intros (Hlen & Hperm & Hth & Hdr & Hph & Hcnt) Hi Hq
    Hlive Hact Hwork Hdrain Hsaw Ht Ht'.
  pose proof (sum_list_with_insert live _ _ _ t' Hi) as Hsum_live.
  pose proof (sum_list_with_insert active _ _ _ t' Hi) as Hsum_act.
  pose proof (Hth i t Hi) as Hok.
  unfold running_ok, phase_ok, counter_ok, pending in *. simpl.
  rewrite Hq in *. rewrite length_insert.
  split; [done|]. split; [|split; [|split]].
  - rewrite Hperm. simpl. by rewrite <- app_assoc.
  - apply thread_ok_insert; [done|].
    destruct (main m) as [|cnt|fs rs|k|k|k|k|]; simpl in *.
    + lia.
    + lia.
    + lia.
    + congruence.
    + split; [by rewrite Hwork; apply Hok|]. intros Hlt.
      destruct Hok as [_ Hdone]. destruct Ht. by apply Hdone.
    + destruct (decide (i < k)); [congruence|done].
    + split; [by rewrite Hdrain; apply Hok|]. intros Hlt.
      destruct Hok as [_ Hdone]. destruct Ht. by apply Hdone.
    + done.
  - apply drained_insert.
    + intros j tj Hj Hdrj. by specialize (Hdr j tj Hj Hdrj).
    + destruct (main m) as [|cnt|fs rs|k|k|k|k|]; simpl in *; try done.
      * rewrite Hsaw. by intros [_ ?].
      * by rewrite Hsaw.
  - destruct (main m) as [|cnt|fs rs|k|k|k|k|]; simpl in *;
      try (split; [done|]); try done; try lia.
    + destruct Hcnt as (n & Hn & Hcases). exists n. lia.
    + destruct Hcnt as (n & Hn & Hcases). exists n. lia.
Qed.

(** A worker takes a sentinel from the queue and returns. *)
Lemma running_ok_exit m i q :
  running_ok m → threads_ m !! i = Some WWait →
  tasks_ (shared m) = None :: q →
  running_ok
    (set_thread i TDone
       (set_shared
          (set_queue q (accepted (shared m)) (executed (shared m) ++ [])
             (shared m)) m)).
Proof.
  intros (Hlen & Hperm & Hth & Hdr & Hph & Hcnt) Hi Hq.
  pose proof (sum_list_with_insert live _ _ _ TDone Hi) as Hsum_live.
  pose proof (sum_list_with_lookup live _ _ _ Hi) as Hsum_pos.
  pose proof (Hth i _ Hi) as Hok.
  unfold running_ok, phase_ok, counter_ok, pending in *. simpl.
  rewrite Hq in *. rewrite length_insert, app_nil_r.
  split; [done|]. split; [done|]. split; [|split].
  - apply thread_ok_insert; [done|].
    destruct (main m) as [|cnt|fs rs|k|k|k|k|]; simpl in *; try done;
      try (by destruct Hph).
    destruct (decide (i < k)); done.
  - apply drained_insert.
    + intros j tj Hj Hdrj. by specialize (Hdr j tj Hj Hdrj).
    + destruct (main m) as [|cnt|fs rs|k|k|k|k|]; simpl in *; try done.
      * by destruct (decide (i < k)).
      * by destruct Hok.
  - destruct (main m) as [|cnt|fs rs|k|k|k|k|]; simpl in *;
      try (split; [done|]); try done; try lia;
      try (by destruct (decide (i < k))); by destruct Hok.
Qed.

(** A drainer increments [numDones]. *)
Lemma running_ok_count m i :
  (Z.of_nat (numThreads_ m) + 1 < size_modulus)%Z →
  running_ok m → threads_ m !! i = Some DCount →
  let n := ((numDones m + 1) `mod` size_modulus)%Z in
  running_ok
    (set_thread i
       (if decide (Z.of_nat (numThreads_ m) = n) then DPump else TDone)
       (set_numDones n m)).
Proof.
  intros Hfit (Hlen & Hperm & Hth & Hdr & Hph & Hcnt) Hi n.
  set (t' := if decide _ then _ else _).
  pose proof (sum_list_with_insert active _ _ _ t' Hi) as Hsum_act.
  pose proof (sum_list_with_insert live _ _ _ t' Hi) as Hsum_live.
  pose proof (sum_list_with_lookup active _ _ _ Hi) as Hsum_pos.
  pose proof (Hth i _ Hi) as Hok. pose proof (Hdr i _ Hi) as Hdri.
  pose proof (lookup_lt_Some _ _ _ Hi) as Hlt.
  unfold running_ok, phase_ok, counter_ok, pending in *. simpl.
  rewrite length_insert.
  destruct (main m) as [|cnt|fs rs|k|k|k|k|] eqn:Hpc; simpl in *;
    try done; try (by destruct Hok).
  - (* while the drainers are being started *)
    destruct (decide (i < k)) as [Hik|]; [|done].
    destruct Hcnt as (k0 & Hk0 & Hcases).
    assert (n = Z.of_nat (S k0)) as Hn.
    { subst n. rewrite Hk0. rewrite Z.mod_small; lia. }
    split; [done|]. split; [done|]. split; [|split; [|split]].
    + apply (thread_ok_insert (MSpawn k)); [done|]. simpl.
      rewrite decide_True by done. subst t'. by destruct (decide _).
    + apply (drained_insert (MSpawn k)); [done|]. simpl. intros _. by apply Hdri.
    + done.
    + exists (S k0). split; [done|]. subst t'.
      destruct (decide (Z.of_nat (numThreads_ m) = n)); simpl in *; lia.
  - (* while the drainers are being joined *)
    destruct Hcnt as (k0 & Hk0 & Hcases).
    assert (n = Z.of_nat (S k0)) as Hn.
    { subst n. rewrite Hk0. rewrite Z.mod_small; lia. }
    split; [done|]. split; [done|]. split; [|split; [|split]].
    + apply (thread_ok_insert (MJoinD k)); [done|]. simpl.
      split; [subst t'; by destruct (decide _)|].
      intros Hik. by destruct Hok as [_ Hdone]; specialize (Hdone Hik).
    + apply (drained_insert (MJoinD k)); [done|]. simpl. intros _. by apply Hdri.
    + done.
    + exists (S k0). split; [done|]. subst t'.
      destruct (decide (Z.of_nat (numThreads_ m) = n)); simpl in *; lia.
Qed.

Lemma not_finished_while_running m i t :
  running_ok m → threads_ m !! i = Some t → t ≠ TDone → main m ≠ MFinished.
Proof.
  intros (_ & _ & Hth & _) Hi Ht Hpc. specialize (Hth i t Hi).
  rewrite Hpc in Hth. done.
Qed.

Lemma invariant_run_step m i fr t resume running :
  running_ok m → threads_ m !! i = Some t → t = running fr →
  (∀ fr', live (running fr') = live t ∧ active (running fr') = active t ∧
          is_worker (running fr') = is_worker t ∧
          is_drainer (running fr') = is_drainer t ∧
          saw_empty (running fr') = false ∧ running fr' ≠ TDone) →
  live resume = live t → active resume = active t →
  is_worker resume = is_worker t → is_drainer resume = is_drainer t →
  saw_empty resume = false → resume ≠ TDone →
  terminated m = None →
  invariant (run_step i fr resume running m).
Proof.
  intros Hok Hi Ht Hrun Hl Ha Hw Hd Hs Hr Hterm.
  assert (t ≠ TDone) as Hnd.
  { rewrite Ht. apply (Hrun fr). }
  unfold run_step.
  pose proof (frame_step_same_queue i fr (shared m)) as Hsame.
  destruct (frame_step i fr (shared m)) as [[[fr'|]|e] s']; simpl in Hsame.
  - unfold invariant. simpl. rewrite Hterm.
    destruct (Hrun fr') as (?&?&?&?&Hs'&?).
    eapply running_ok_thread; try done. by rewrite Hs'.
  - unfold invariant. simpl. rewrite Hterm.
    eapply running_ok_thread; try done. by rewrite Hs.
  - unfold invariant. simpl. by eapply not_finished_while_running.
Qed.

Lemma invariant_thread i m m' :
  (Z.of_nat (numThreads_ m) + 1 < size_modulus)%Z →
  terminated m = None → running_ok m → thread_step i m = Some m' →
  invariant m'.
Proof.
  intros Hfit Hterm Hok Hstep. unfold thread_step in Hstep.
  destruct (threads_ m !! i) as [t|] eqn:Hi; [|done].
  destruct t as [|fr| |fr| |]; try done.
  - (* a worker in wait_dequeue *)
    unfold dequeue in Hstep.
    destruct (tasks_ (shared m)) as [|[c|] q] eqn:Hq; [done| |];
      inversion Hstep; subst m'; unfold invariant; simpl; rewrite Hterm.
    + by eapply running_ok_take.
    + by apply running_ok_exit.
  - (* a worker inside a task *)
    inversion Hstep; subst m'.
    eapply invariant_run_step; try done; by intros fr'.
  - (* a drainer at try_dequeue *)
    unfold dequeue in Hstep.
    destruct (tasks_ (shared m)) as [|[c|] q] eqn:Hq;
      inversion Hstep; subst m'; unfold invariant; simpl; rewrite ?Hterm.
    + replace m with (set_shared (shared m) m) at 1 by by destruct m.
      eapply running_ok_thread; try done.
    + by eapply running_ok_take.
    + by eapply not_finished_while_running.
  - (* a drainer inside a task *)
    inversion Hstep; subst m'.
    eapply invariant_run_step; try done; by intros fr'.
  - (* a drainer at fetch_add *)
    inversion Hstep; subst m'. unfold invariant.
    pose proof (running_ok_count m i Hfit Hok Hi) as Hcount.
    simpl in Hcount. simpl. by rewrite Hterm.
Qed.

Lemma step_numThreads mv m m' :
  step mv m = Some m' → numThreads_ m' = numThreads_ m.
Proof.
  unfold step. destruct (terminated m); [done|].
  destruct mv as [o| | |i]; simpl.
  - unfold client_step. destruct (main m); try done.
    destruct (call_op o (shared m)). by intros [= <-].
  - unfold destroy_step. destruct (main m); try done. by intros [= <-].
  - unfold main_step.
    destruct (main m) as [|cnt|fs rs|k|k|k|k|]; try done;
      repeat case_match; try done; by intros [= <-].
  - unfold thread_step, run_step, dequeue.
    repeat case_match; try done; by intros [= <-].
Qed.

(** The invariant holds along every run. *)
Lemma invariant_step mv m m' :
  (Z.of_nat (numThreads_ m) + 1 < size_modulus)%Z →
  invariant m → step mv m = Some m' → invariant m'.
Proof.
  intros Hfit Hinv Hstep. unfold step in Hstep. unfold invariant in Hinv.
  destruct (terminated m) eqn:Hterm; [done|].
  destruct mv.
  - by eapply invariant_client.
  - by eapply invariant_destroy.
  - by eapply invariant_main.
  - by eapply invariant_thread.
Qed.

Lemma run_app mvs1 mvs2 m :
  run (mvs1 ++ mvs2) m = run mvs1 m ≫= run mvs2.
Proof.
  revert m. induction mvs1 as [|mv mvs1 IH]; intros m; simpl; [done|].
  destruct (step mv m); simpl; [apply IH|done].
Qed.

Lemma run_invariant mvs m m' :
  (Z.of_nat (numThreads_ m) + 1 < size_modulus)%Z →
  invariant m → run mvs m = Some m' →
  invariant m' ∧ numThreads_ m' = numThreads_ m.
Proof.
  revert m. induction mvs as [|mv mvs IH]; intros m Hfit Hinv Hrun;
    simpl in Hrun.
  - by inversion Hrun; subst m'.
  - destruct (step mv m) as [m1|] eqn:Hstep; [|done].
    pose proof (step_numThreads _ _ _ Hstep) as Hn.
    destruct (IH m1) as [Hinv' Hn']; [by rewrite Hn| |done|].
    + by eapply invariant_step.
    + split; [done|congruence].
Qed.

(** ** The drainers' counter *)

(** C2 (as amended). A drainer that has found the queue empty adds one to
    [numDones]. It goes round for another pass exactly when its increment
    makes the counter reach [numThreads_], and leaves its loop exactly when
    its increment does not make the counter reach [numThreads_]. *)
Theorem drainer_leaves_unless_counter_reaches_numThreads i m :
  terminated m = None → threads_ m !! i = Some DCount →
  ∃ m', step (Thread i) m = Some m' ∧
    numDones m' = ((numDones m + 1) `mod` size_modulus)%Z ∧
    (threads_ m' !! i = Some DPump ↔
       numDones m' = Z.of_nat (numThreads_ m)) ∧
    (threads_ m' !! i = Some TDone ↔
       numDones m' ≠ Z.of_nat (numThreads_ m)).
Proof.
  intros Hterm Hi. unfold step, thread_step. rewrite Hterm, Hi.
  eexists. split; [done|]. simpl. split; [done|].
  rewrite list_lookup_insert_eq by (by eapply lookup_lt_Some).
  destruct (decide (Z.of_nat (numThreads_ m) = _)) as [Heq|Hne].
  - by split; split.
  - by split; split.
Qed.

(** ** The workers *)

Lemma workers_ok_thread m i t t' s' :
  workers_ok m → threads_ m !! i = Some t → (is_worker t → is_worker t') →
  workers_ok (set_thread i t' (set_shared s' m)).
Proof.
  intros [Hlen Hw] Hi Ht. split; simpl; [by rewrite length_insert|].
  intros Hb. specialize (Hw Hb). apply Forall_insert; [done|].
  apply Ht. by eapply (Forall_lookup_1 _ _ _ _ Hw).
Qed.

Lemma workers_ok_step mv m m' :
  workers_ok m → step mv m = Some m' →
  workers_ok m' ∧ numThreads_ m' = numThreads_ m.
Proof.
  intros Hok Hstep. split; [|by eapply step_numThreads].
  unfold step in Hstep. destruct (terminated m); [done|].
  pose proof Hok as [Hlen Hw].
  destruct mv as [o| | |i]; simpl in Hstep.
  - unfold client_step in Hstep. destruct (main m) eqn:Hpc; try done.
    destruct (call_op o (shared m)) as [r s']. inversion Hstep; subst m'.
    split; [done|]. simpl. intros _. by apply Hw.
  - unfold destroy_step in Hstep. destruct (main m) eqn:Hpc; try done.
    inversion Hstep; subst m'. split; [done|]. simpl. intros _. by apply Hw.
  - unfold main_step in Hstep.
    destruct (main m) as [|cnt|fs rs|k|k|k|k|] eqn:Hpc; try done;
      repeat case_match; try done; inversion Hstep; subst m';
      (split; simpl; [by rewrite ?length_insert|]); try done;
      intros _; by apply Hw.
  - unfold thread_step in Hstep.
    destruct (threads_ m !! i) as [t|] eqn:Hi; [|done].
    replace m with (set_shared (shared m) m) in Hstep by by destruct m.
    unfold run_step, dequeue in Hstep. simpl in Hstep.
    destruct t; try done; repeat case_match; try done;
      inversion Hstep; subst m'; simplify_eq;
      try (by eapply workers_ok_thread);
      try (split; simpl; [done|by apply Hw]).
Qed.

(** ** Who sets a promise *)

Lemma bind_insert_perm {A B} (f : A → list B) (l : list A) i x y :
  l !! i = Some x →
  (<[i:=y]> l ≫= f) ++ f x ≡ₚ (l ≫= f) ++ f y.
Proof.
  revert i. induction l as [|a l IH]; intros [|i] Hi; csimpl in *; try done.
  - inversion Hi; subst.
    rewrite <- (app_assoc (f y)), (Permutation_app_comm (f y)).
    apply Permutation_app_tail, Permutation_app_comm.
  - rewrite <- !app_assoc. apply Permutation_app_head.
    by apply IH.
Qed.

Lemma promises_ok_sub m m' ps :
  promises_ok m → owned m ≡ₚ ps ++ owned m' →
  promises (shared m') = promises (shared m) →
  promises_ok m'.
Proof.
  intros [Hnd Hun] Hperm Hsame. split.
  - rewrite Hperm in Hnd. by apply NoDup_app in Hnd as (_ & _ & ?).
  - intros p Hp. rewrite Hsame. apply Hun. rewrite Hperm.
    apply elem_of_app. by right.
Qed.

Lemma promises_ok_set m m' p (v : slot E R) :
  promises_ok m → owned m ≡ₚ p :: owned m' →
  promises (shared m') = <[p:=v]> (promises (shared m)) →
  promises_ok m'.
Proof.
  intros [Hnd Hun] Hperm Hset. rewrite Hperm in Hnd.
  apply NoDup_cons in Hnd as [Hnotin Hnd]. split; [done|].
  intros q Hq. rewrite Hset, list_lookup_insert_ne.
  - apply Hun. rewrite Hperm. by right.
  - intros ->. done.
Qed.

Lemma promises_ok_grow m m' k :
  promises_ok m →
  owned m' ≡ₚ owned m ++ seq (length (promises (shared m))) k →
  promises (shared m') = promises (shared m) ++ replicate k Unset →
  promises_ok m'.
Proof.
  intros [Hnd Hun] Hperm Hgrow. split.
  - rewrite Hperm. apply NoDup_app. split; [done|]. split.
    + intros p Hp Hnew. apply Hun in Hp. apply lookup_lt_Some in Hp.
      apply elem_of_seq in Hnew. lia.
    + apply NoDup_seq.
  - intros p Hp. rewrite Hperm in Hp. rewrite Hgrow.
    apply elem_of_app in Hp as [Hp|Hp].
    + rewrite lookup_app_l; [by apply Hun|].
      apply Hun in Hp. by apply lookup_lt_Some in Hp.
    + apply elem_of_seq in Hp. rewrite lookup_app_r by lia.
      apply lookup_replicate. split; [done|lia].
Qed.

Lemma allocates_nothing {A} (mop : M A) :
  (∀ s, same_queue s (mop s).2 ∧ promises (mop s).2 = promises s) →
  allocates mop.
Proof.
  intros H s Hd. destruct (H s) as [(Hq & _ & _ & Hd') Hp].
  exists [], 0. simpl. rewrite !app_nil_r. repeat split; congruence.
Qed.

Lemma allocates_bind {A B} (mop : M A) (k : A → M B) :
  allocates mop → (∀ a, allocates (k a)) → allocates (bind mop k).
Proof.
  intros Hm Hk s Hd. unfold bind.
  destruct (Hm s Hd) as (new1 & k1 & Hq1 & Hp1 & Ho1 & Hd1).
  destruct (mop s) as [[a|e] s1]; simpl in *; [|by exists new1, k1].
  destruct (Hk a s1 Hd1) as (new2 & k2 & Hq2 & Hp2 & Ho2 & Hd2).
  exists (new1 ++ new2), (k1 + k2).
  rewrite Hq2, Hp2, Hq1, Hp1, fmap_app, !app_assoc, bind_app, Ho1, Ho2.
  rewrite Hp1, length_app, length_replicate, replicate_add, seq_app.
  split; [done|]. split; [by rewrite <- app_assoc|]. by split.
Qed.

Lemma allocates_ret {A} (a : A) : allocates (ret a : M A).
Proof. by apply allocates_nothing. Qed.

Lemma allocates_checkArgs {T} (task : option T) :
  allocates (checkArgs task : M ()).
Proof.
  apply allocates_nothing. intros s. unfold checkArgs.
  destruct (destroyed_ s); [by split; [apply same_queue_refl|]|].
  destruct (negb _); by split; [apply same_queue_refl|].
Qed.

Lemma allocates_checkArgs_range {T} (tasks : list (option T)) :
  allocates (checkArgs_range tasks : M ()).
Proof.
  apply allocates_nothing. intros s. unfold checkArgs_range.
  destruct (destroyed_ s); [by split; [apply same_queue_refl|]|].
  destruct (negb _); by split; [apply same_queue_refl|].
Qed.

Lemma allocates_dispatch c :
  owned_closure c = [] → allocates (dispatch (Some c) : M ()).
Proof.
  intros Hc s Hd. unfold dispatch, bind. rewrite checkArgs_live by done.
  exists [c], 0. simpl. by rewrite Hc, !app_nil_r.
Qed.

Lemma allocates_dispatch_user (task : Task ()) :
  allocates (dispatch (CUser <$> task) : M ()).
Proof.
  destruct task as [g|]; [by apply allocates_dispatch|].
  apply allocates_nothing. intros s. unfold dispatch, bind, checkArgs. simpl.
  destruct (destroyed_ s); by split; [apply same_queue_refl|].
Qed.

Lemma allocates_dispatch_R (task : option rfun) :
  allocates (dispatch_R task : M nat).
Proof.
  intros s Hd. unfold dispatch_R, bind. rewrite checkArgs_live by done.
  destruct task as [g|]; simpl.
  - exists [CPromise (length (promises s)) (Some g)], 1. by repeat split.
  - exists [], 0. simpl. by rewrite !app_nil_r.
Qed.

Lemma allocates_for_each {A B} (k : A → M B) (l : list A) :
  (∀ a, allocates (k a)) → allocates (for_each k l).
Proof.
  intros Hk. induction l as [|a l IH]; simpl; [apply allocates_ret|].
  apply allocates_bind; [done|]. intros b.
  apply allocates_bind; [done|]. intros bs. apply allocates_ret.
Qed.

Lemma allocates_dispatch_range (tasks : list (Task ())) :
  allocates (dispatch_range tasks : M ()).
Proof.
  destruct tasks as [|t ts]; [apply allocates_ret|].
  intros s Hd. unfold dispatch_range, bind.
  rewrite checkArgs_range_live by done.
  destruct (forallb _ (t :: ts)) eqn:Hall.
  - exists (omap (fmap CUser) (t :: ts)), 0.
    apply all_valid_spec in Hall.
    unfold enqueue_bulk. rewrite (valid_range_fmap _ Hall).
    cbn [snd tasks_ promises destroyed_ set_queue]. rewrite app_nil_r.
    split; [done|]. split; [done|]. split; [|done].
    generalize (t :: ts). clear.
    induction l as [|[g|] l IH]; csimpl; done.
  - exists [], 0. simpl. by rewrite !app_nil_r.
Qed.

Lemma allocates_call_op (o : op) : allocates (call_op o : M reply).
Proof.
  destruct o as [t|t|ts|ts|ts|ts|ts|ts|fl t]; simpl;
    (apply allocates_bind; [|intros; apply allocates_ret]).
  - apply allocates_dispatch_user.
  - apply allocates_dispatch_R.
  - apply allocates_dispatch_range.
  - destruct ts; [apply allocates_ret|].
    apply allocates_bind; [apply allocates_checkArgs_range|]. intros _.
    apply allocates_for_each. intros. apply allocates_dispatch_R.
  - destruct ts; [apply allocates_ret|].
    apply allocates_bind; [apply allocates_checkArgs_range|]. intros _.
    apply allocates_bind; [by apply allocates_nothing|]. intros cnt.
    apply allocates_bind; [|intros; apply allocates_ret].
    apply allocates_for_each. intros. by apply allocates_dispatch.
  - destruct ts; [apply allocates_ret|].
    apply allocates_bind; [apply allocates_checkArgs_range|]. intros _.
    apply allocates_bind; [|intros; apply allocates_ret].
    apply allocates_for_each. intros. apply allocates_dispatch_R.
  - destruct ts; [apply allocates_ret|].
    apply allocates_bind; [apply allocates_checkArgs_range|]. intros _.
    by apply allocates_dispatch.
  - destruct ts as [|t ts]; [apply allocates_ret|].
    apply allocates_bind; [apply allocates_checkArgs_range|]. intros _.
    intros s Hd. unfold bind, make_promises, dispatch, bind. simpl.
    rewrite checkArgs_live by done. simpl.
    exists [CSerialR (length (promises s)) (t :: ts)], (S (length ts)).
    simpl. by rewrite app_nil_r.
  - by apply allocates_dispatch.
Qed.

Lemma invoke_promises {A} tid mk (t : Task A) s :
  promises (invoke tid mk t s).2 = promises s.
Proof. unfold invoke. destruct t as [g|]; [|done]. by destruct (g (world s)). Qed.

(** What a step inside a task does to the promises: nothing, or it sets
    the first of those the frame has still to set. *)
Lemma frame_step_promises tid fr s :
  (∀ p, p ∈ owned_frame fr → promises s !! p = Some Unset) →
  match frame_step tid fr s with
  | (Returned r, s') =>
      let rest := from_option owned_frame [] r in
      owned_frame fr = rest ∧ promises s' = promises s ∨
      ∃ p o, owned_frame fr = p :: rest ∧
             promises s' = <[p:=slot_of o]> (promises s)
  | (Raised e, s') => promises s' = promises s
  end.
Proof.
  intros Hun.
  destruct fr as [[g|p t|cnt t|ts|b ts|fl t]|p o|cnt|ts|b i ts|b i o ts];
    simpl in *; unfold bind, attempt, serial_step, serialR_step, call_once,
      count_down, ret.
  - pose proof (invoke_promises tid call_void (Some g) s).
    destruct (invoke _ _ _ s) as [[] ?]; simpl in *; [by left|done].
  - pose proof (invoke_rfun_promises tid t s).
    destruct (invoke_rfun _ _ s); simpl in *. by left.
  - pose proof (invoke_promises tid call_void t s).
    destruct (invoke _ _ _ s) as [[] ?]; simpl in *; [by left|done].
  - destruct ts as [|t ts]; [by left|]. unfold bind.
    pose proof (invoke_promises tid call_void t s).
    destruct (invoke _ _ _ s) as [[] ?]; simpl in *; [by left|done].
  - destruct ts as [|t ts]; [by left|]. unfold bind, attempt.
    pose proof (invoke_promises tid call_R t s).
    destruct (invoke _ _ _ s); simpl in *. left. by rewrite Nat.add_0_r.
  - destruct (bool_decide _); [by left|]. unfold bind.
    pose proof (invoke_promises tid call_void t s).
    destruct (invoke _ _ _ s) as [[] ?]; simpl in *; [by left|done].
  - rewrite fulfil_unset by (apply Hun; by left). simpl. right. by exists p, o.
  - by left.
  - destruct ts as [|t ts]; [by left|]. unfold bind.
    pose proof (invoke_promises tid call_void t s).
    destruct (invoke _ _ _ s) as [[] ?]; simpl in *; [by left|done].
  - destruct ts as [|t ts]; [by left|]. unfold bind, attempt.
    pose proof (invoke_promises tid call_R t s).
    destruct (invoke _ _ _ s); simpl in *. by left.
  - rewrite fulfil_unset by (apply Hun; by left). simpl. right.
    exists (b + i), o. by rewrite Nat.add_succ_r.
Qed.

Lemma owned_set_thread m i t t' s' :
  threads_ m !! i = Some t → tasks_ s' = tasks_ (shared m) →
  owned (set_thread i t' (set_shared s' m)) ++ owned_thread t
  ≡ₚ owned m ++ owned_thread t'.
Proof.
  intros Hi Hq. unfold owned. simpl. rewrite Hq, <- !app_assoc.
  apply Permutation_app_head. by apply bind_insert_perm.
Qed.

Lemma promises_ok_run_step m i fr t resume running :
  promises_ok m → threads_ m !! i = Some t →
  owned_thread t = owned_frame fr →
  (∀ fr', owned_thread (running fr') = owned_frame fr') →
  owned_thread resume = [] →
  promises_ok (run_step i fr resume running m).
Proof.
  intros Hok Hi Ht Hrun Hres. unfold run_step.
  pose proof (frame_step_same_queue i fr (shared m)) as (Hq & _).
  pose proof (frame_step_promises i fr (shared m)) as Hstep.
  assert (∀ p, p ∈ owned_frame fr →
               promises (shared m) !! p = Some Unset) as Hun.
  { intros p Hp. apply Hok. unfold owned. apply elem_of_app. right.
    apply list_elem_of_bind. exists t. rewrite Ht.
    split; [done|]. by eapply list_elem_of_lookup_2. }
  specialize (Hstep Hun).
  destruct (frame_step i fr (shared m)) as [[r|e] s']; simpl in *.
  - assert (∃ t', (match r with
                   | Some fr' => set_thread i (running fr') (set_shared s' m)
                   | None => set_thread i resume (set_shared s' m)
                   end) = set_thread i t' (set_shared s' m) ∧
                  owned_thread t' = from_option owned_frame [] r)
      as (t' & -> & Ht').
    { destruct r as [fr'|]; eexists; split; done. }
    pose proof (owned_set_thread m i t t' s' Hi Hq) as Hperm.
    rewrite Ht, Ht' in Hperm.
    destruct Hstep as [[Heq Hp]|(p & o & Heq & Hp)].
    + eapply (promises_ok_sub m _ []); [done| |done]. simpl.
      rewrite Heq in Hperm. by apply Permutation_app_inv_r in Hperm.
    + eapply (promises_ok_set m _ p); [done| |done].
      rewrite Heq in Hperm.
      rewrite (Permutation_app_comm _ (p :: _)) in Hperm. simpl in Hperm.
      rewrite (Permutation_app_comm _ (from_option _ _ _)) in Hperm.
      rewrite Permutation_middle in Hperm.
      by apply Permutation_app_inv_l in Hperm.
  - eapply (promises_ok_sub m _ []); [done| |done].
    unfold owned. simpl. by rewrite Hq.
Qed.

Lemma owned_new new : (Some <$> new) ≫= owned_item = new ≫= owned_closure.
Proof. induction new as [|c new IH]; csimpl; [done|]. by rewrite IH. Qed.

Lemma promises_ok_client o m m' :
  owners_ok m → client_step o m = Some m' → owners_ok m'.
Proof.
  intros [Hok Hd] Hstep. unfold client_step in Hstep.
  destruct (main m) eqn:Hpc; try done. specialize (Hd eq_refl).
  pose proof (allocates_call_op o (shared m) Hd)
    as (new & k & Hq & Hp & Hnew & Hd').
  destruct (call_op o (shared m)) as [r s']. simpl in *.
  inversion Hstep; subst m'. split.
  - eapply (promises_ok_grow m _ k); [done| |done].
    unfold owned. simpl. rewrite Hq, bind_app, owned_new, Hnew.
    rewrite <- !app_assoc. apply Permutation_app_head, Permutation_app_comm.
  - done.
Qed.

Lemma promises_ok_main m m' :
  owners_ok m → main_step m = Some m' → owners_ok m'.
Proof.
  intros [Hok Hd] Hstep. unfold main_step in Hstep.
  assert (∀ pc, promises_ok (set_main pc m)) as Hsame.
  { intros pc. by eapply (promises_ok_sub m _ []). }
  destruct (main m) as [|cnt|ps rs|k|k|k|k|] eqn:Hpc; try done.
  - destruct (decide _); [|done]. inversion Hstep; subst m'.
    split; [done|]. intros _. by apply Hd.
  - destruct ps as [|p ps].
    + inversion Hstep; subst m'. split; [done|]. intros _. by apply Hd.
    + destruct (promises (shared m) !! p) as [[|v|e]|]; try done;
        inversion Hstep; subst m'; (split; [done|]); intros _; by apply Hd.
  - destruct (decide _); inversion Hstep; subst m'; (split; [|done]);
      [|done].
    eapply (promises_ok_sub m _ []); [done| |done].
    unfold owned. simpl. rewrite bind_app. csimpl. by rewrite app_nil_r.
  - destruct (threads_ m !! k) as [[]|]; try done;
      inversion Hstep; subst m'; (split; [|done]); [|done].
    by eapply (promises_ok_sub m _ []).
  - destruct (threads_ m !! k) as [t|] eqn:Hk;
      inversion Hstep; subst m'; (split; [|done]); [|done].
    eapply (promises_ok_sub m _ (owned_thread t)); [done| |done].
    unfold owned. simpl.
    pose proof (bind_insert_perm owned_thread (threads_ m) k t DPump Hk)
      as Hperm. simpl in Hperm. rewrite app_nil_r in Hperm.
    rewrite <- Hperm.
    rewrite (Permutation_app_comm (_ ≫= _) (owned_thread t)).
    by rewrite Permutation_app_swap_app.
  - destruct (threads_ m !! k) as [[]|]; try done;
      inversion Hstep; subst m'; (split; [|done]); done.
Qed.

Lemma promises_ok_take m i t c q running :
  promises_ok m → threads_ m !! i = Some t → owned_thread t = [] →
  tasks_ (shared m) = Some c :: q →
  owned_thread running = owned_closure c →
  promises_ok
    (set_thread i running
       (set_shared (set_queue q (accepted (shared m))
                      (executed (shared m) ++ [c]) (shared m)) m)).
Proof.
  intros Hok Hi Ht Hq Hrun.
  eapply (promises_ok_sub m _ []); [done| |done].
  unfold owned. simpl. rewrite Hq. csimpl.
  pose proof (bind_insert_perm owned_thread (threads_ m) i t running Hi)
    as Hperm. rewrite Ht, app_nil_r, Hrun in Hperm. rewrite Hperm.
  rewrite <- app_assoc. rewrite (Permutation_app_comm (owned_closure c)).
  by rewrite <- !app_assoc.
Qed.

Lemma promises_ok_thread i m m' :
  owners_ok m → thread_step i m = Some m' → owners_ok m'.
Proof.
  intros [Hok Hd] Hstep. unfold thread_step in Hstep.
  destruct (threads_ m !! i) as [t|] eqn:Hi; [|done].
  assert (∀ fr resume running,
    threads_ m !! i = Some t → owned_thread t = owned_frame fr →
    (∀ fr', owned_thread (running fr') = owned_frame fr') →
    owned_thread resume = [] →
    owners_ok (run_step i fr resume running m)) as Hrun.
  { intros fr resume running ? ? ? ?. split.
    - by eapply promises_ok_run_step.
    - unfold run_step.
      pose proof (frame_step_same_queue i fr (shared m)) as (_ & _ & _ & Hsd).
      destruct (frame_step i fr (shared m)) as [[[fr'|]|e] s']; simpl in *;
        intros Hpc; rewrite Hsd; by apply Hd. }
  destruct t as [|fr| |fr| |]; try done.
  - unfold dequeue in Hstep.
    destruct (tasks_ (shared m)) as [|[c|] q] eqn:Hq; [done| |];
      inversion Hstep; subst m'; (split; [|done]).
    + by eapply promises_ok_take.
    + eapply (promises_ok_sub m _ []); [done| |done].
      unfold owned. simpl. rewrite Hq. csimpl.
      pose proof (bind_insert_perm owned_thread (threads_ m) i WWait TDone Hi)
        as Hperm. simpl in Hperm. rewrite !app_nil_r in Hperm.
      by rewrite Hperm.
  - inversion Hstep; subst m'. by apply Hrun.
  - unfold dequeue in Hstep.
    destruct (tasks_ (shared m)) as [|[c|] q] eqn:Hq;
      inversion Hstep; subst m'; (split; [|done]).
    + eapply (promises_ok_sub m _ []); [done| |done].
      unfold owned. simpl.
      pose proof (bind_insert_perm owned_thread (threads_ m) i DPump DCount Hi)
        as Hperm. simpl in Hperm. rewrite !app_nil_r in Hperm.
      by rewrite Hperm.
    + by eapply promises_ok_take.
    + eapply (promises_ok_sub m _ []); [done| |done].
      unfold owned. simpl. by rewrite Hq.
  - inversion Hstep; subst m'. by apply Hrun.
  - inversion Hstep; subst m'. split; [|done].
    eapply (promises_ok_sub m _ []); [done| |done].
    unfold owned. simpl.
    pose proof (bind_insert_perm owned_thread (threads_ m) i DCount
      (if decide (Z.of_nat (numThreads_ m) =
                  ((numDones m + 1) `mod` size_modulus)%Z)
       then DPump else TDone) Hi) as Hperm.
    assert (owned_thread (if decide (Z.of_nat (numThreads_ m) =
                  ((numDones m + 1) `mod` size_modulus)%Z)
       then DPump else TDone : @thread World R E) = []) as Hnil
      by by destruct (decide _).
    rewrite Hnil in Hperm. simpl in Hperm. rewrite !app_nil_r in Hperm.
    by rewrite Hperm.
Qed.

Lemma owners_ok_step mv m m' :
  owners_ok m → step mv m = Some m' → owners_ok m'.
Proof.
  intros Hok Hstep. unfold step in Hstep.
  destruct (terminated m); [done|].
  destruct mv as [o| | |i]; simpl in Hstep.
  - by eapply promises_ok_client.
  - destruct Hok as [Hok Hd]. unfold destroy_step in Hstep.
    destruct (main m); try done.
    inversion Hstep; subst m'. split; [|done].
    by eapply (promises_ok_sub m _ []).
  - by eapply promises_ok_main.
  - by eapply promises_ok_thread.
Qed.

Lemma owners_ok_run mvs m m' :
  owners_ok m → run mvs m = Some m' → owners_ok m'.
Proof.
  revert m. induction mvs as [|mv mvs IH]; intros m Hok Hrun;
    simpl in Hrun.
  - by inversion Hrun; subst m'.
  - destruct (step mv m) as [m1|] eqn:Hstep; [|done].
    eapply IH; [|done]. by eapply owners_ok_step.
Qed.

Lemma owners_ok_new n (w : World) : owners_ok (TaskPool_new n w : @TaskPool World R E).
Proof.
  split; [|done]. unfold promises_ok, owned. simpl.
  assert (∀ k ths, ths ≫= owned_thread = [] →
            spawn_workers k ths ≫= owned_thread = []) as Hnil.
  { induction k as [|k IH]; intros ths Hths; simpl; [done|].
    apply IH. by rewrite bind_app, Hths. }
  rewrite Hnil by done. split; [apply NoDup_nil_2|].
  intros p Hp. by apply elem_of_nil in Hp.
Qed.

Lemma NoDup_bind_lookup {A B} (f : A → list B) (l : list A) i j x y p :
  NoDup (l ≫= f) → l !! i = Some x → l !! j = Some y → i ≠ j →
  p ∈ f x → p ∉ f y.
Proof.
  revert i j. induction l as [|a l IH]; intros i j Hnd Hi Hj Hij Hx Hy;
    [done|].
  csimpl in Hnd. apply NoDup_app in Hnd as (_ & Hdisj & Hnd).
  destruct i as [|i], j as [|j]; simpl in *; [done| | |].
  - inversion Hi; subst a. apply (Hdisj p Hx).
    apply list_elem_of_bind. exists y. split; [done|].
    by eapply list_elem_of_lookup_2.
  - inversion Hj; subst a. apply (Hdisj p Hy).
    apply list_elem_of_bind. exists x. split; [done|].
    by eapply list_elem_of_lookup_2.
  - eapply (IH i j); try done. lia.
Qed.

(** X1: along every run of a pool, a thread that is about to set a promise
    (in the wrapper of [dispatch<R>], line 110 or 112, or in the loop of
    [dispatchSerial<R>], line 234 or 236) finds it not set, no other thread
    and no task on the queue has the same promise to set, and its next step
    sets the promise to the outcome of the task and throws nothing. *)
Theorem promise_is_set_by_its_one_owner
    (n : nat) (w : World) m i fr p (o : outcome E R) :
  reachable (TaskPool_new n w) m → terminated m = None →
  threads_ m !! i = Some (WRun fr) ∨ threads_ m !! i = Some (DRun fr) →
  fr = FPromiseSet p o ∨
    (∃ b k rest, fr = FSerialRSet b k o rest ∧ p = b + k) →
  promises (shared m) !! p = Some Unset ∧
  (∀ j t, j ≠ i → threads_ m !! j = Some t → p ∉ owned_thread t) ∧
  (∀ t, t ∈ tasks_ (shared m) → p ∉ owned_item t) ∧
  ∃ m', step (Thread i) m = Some m' ∧ terminated m' = None ∧
        promises (shared m') = <[p:=slot_of o]> (promises (shared m)).
Proof.
  intros [mvs Hrun] Hterm Hi Hfr.
  pose proof (owners_ok_run _ _ _ (owners_ok_new n w) Hrun)
    as [[Hnd Hun] _].
  assert (∃ t, threads_ m !! i = Some t ∧ owned_thread t = owned_frame fr)
    as (t & Ht & Hown) by (destruct Hi; eexists; split; done).
  assert (p ∈ owned_frame fr) as Hp.
  { destruct Hfr as [->|(b & k & rest & -> & ->)]; simpl; by left. }
  assert (p ∈ owned m) as Hin.
  { unfold owned. apply elem_of_app. right. apply list_elem_of_bind.
    exists t. rewrite Hown. split; [done|]. by eapply list_elem_of_lookup_2. }
  pose proof (Hun p Hin) as Hunset.
  unfold owned in Hnd. apply NoDup_app in Hnd as (_ & Hdisj & Hths).
  split; [done|]. split; [|split].
  - intros j t' Hji Hj.
    apply (NoDup_bind_lookup owned_thread (threads_ m) i j t t' p);
      [done|done|done|congruence|by rewrite Hown].
  - intros t' Ht' Hp'. apply (Hdisj p).
    + apply list_elem_of_bind. by exists t'.
    + apply list_elem_of_bind. exists t. rewrite Hown.
      split; [done|]. by eapply list_elem_of_lookup_2.
  - unfold step, thread_step, run_step. rewrite Hterm.
    destruct Hi as [Hi|Hi], Hfr as [->|(b & k & rest & -> & ->)];
      rewrite Hi; simpl; unfold bind; rewrite (fulfil_unset _ _ _ Hunset);
      simpl; eexists; (split; [done|]); by split.
Qed.

(** * More of the dispatch surface and of the helpers *)

(** X4: [onSuccess] (lines 282-293). While the future is not set the
    thread is blocked in [future.get()]. On a value the callback is called
    once, with the value, and whatever it throws is swallowed by the empty
    handler: the thread returns. On a failure the callback is not called
    and nothing changes. *)
Theorem onSuccess_routes (future : slot E R) (callback : R → callable ())
    (st : @Observer World R E) :
  match future with
  | Unset => onSuccess future callback = None
  | Value v =>
      ∃ body, onSuccess future callback = Some body ∧
        body st =
          (Returned (),
           mkObserver (callback v (obs_world st)).2
                      (obs_calls st ++ [called_success v]))
  | Failure e =>
      ∃ body, onSuccess future callback = Some body ∧
        body st = (Returned (), st)
  end.
Proof.
  destruct future as [|v|e]; simpl; [done| |].
  - eexists. split; [done|].
    unfold try_catch, bind, got, call_back, ret. simpl.
    by destruct (callback v (obs_world st)) as [[[]|e'] w].
  - eexists. split; [done|]. done.
Qed.

(** X5: [onFailure] (lines 295-307). While the future is not set the
    thread is blocked. On a value the callback is not called and nothing
    changes. On a failure the callback is called once, with the failure,
    from inside the handler: what the callback throws is caught by nothing
    and leaves the thread. *)
Theorem onFailure_routes (future : slot E R) (callback : exn E → callable ())
    (st : @Observer World R E) :
  match future with
  | Unset => onFailure future callback = None
  | Value v =>
      ∃ body, onFailure future callback = Some body ∧
        body st = (Returned (), st)
  | Failure e =>
      ∃ body, onFailure future callback = Some body ∧
        body st =
          ((callback e (obs_world st)).1,
           mkObserver (callback e (obs_world st)).2
                      (obs_calls st ++ [called_failure e]))
  end.
Proof.
  destruct future as [|v|e]; simpl; [done| |].
  - eexists. split; [done|]. done.
  - eexists. split; [done|].
    unfold try_catch, bind, got, call_back, ret. simpl.
    by destruct (callback e (obs_world st)) as [o w].
Qed.

(** Dispatching each of a list of tasks that have a target, one after the
    other, on a pool that is not destroyed. *)
Lemma for_each_dispatch {A} (wrap : A → closure) (l : list A) s :
  destroyed_ s = false →
  ∃ s1,
    for_each (λ a, dispatch (Some (wrap a))) l s
      = (Returned (replicate (length l) ()), s1) ∧
    s1 = set_queue (tasks_ s ++ ((λ a, Some (wrap a)) <$> l))
                   (accepted s ++ (wrap <$> l)) (executed s) s.
Proof.
  revert s. induction l as [|a l IH]; intros s Hd; simpl.
  - eexists. split; [done|]. destruct s. simpl. by rewrite !app_nil_r.
  - unfold bind at 1. unfold dispatch at 1, bind at 1.
    rewrite checkArgs_live by done. simpl.
    edestruct (IH (set_queue (tasks_ s ++ [Some (wrap a)])
                     (accepted s ++ [wrap a]) (executed s) s))
      as (s1 & Hrun & ->); [done|].
    unfold bind. rewrite Hrun. simpl.
    eexists. split; [done|]. unfold set_queue. simpl.
    by rewrite <- !app_assoc.
Qed.

(** Dispatching each of a list of value-returning tasks that have a
    target: the promises are made one after the other. *)
Lemma for_each_dispatch_R {A} (wrap : A → rfun) (l : list A) s :
  destroyed_ s = false →
  ∃ s1,
    for_each (λ a, dispatch_R (Some (wrap a))) l s
      = (Returned (seq (length (promises s)) (length l)), s1) ∧
    tasks_ s1 =
      tasks_ s ++
      imap (λ j a, Some (CPromise (length (promises s) + j) (Some (wrap a))))
           l ∧
    promises s1 = promises s ++ replicate (length l) Unset ∧
    destroyed_ s1 = false ∧ counts s1 = counts s ∧ world s1 = world s ∧
    flags s1 = flags s ∧ calls s1 = calls s.
Proof.
  revert s. induction l as [|a l IH]; intros s Hd; simpl.
  - eexists. split; [done|]. by rewrite !app_nil_r.
  - unfold bind at 1. unfold dispatch_R at 1, bind at 1.
    rewrite checkArgs_live by done.
    unfold bind, make_promise, enqueue, ret. simpl.
    edestruct (IH (set_queue (tasks_ s ++ [Some (CPromise (length (promises s))
                                                   (Some (wrap a)))])
                     (accepted s ++ [CPromise (length (promises s))
                                       (Some (wrap a))])
                     (executed s)
                     (set_promises (promises s ++ [Unset]) s)))
      as (s1 & Hrun & Hq & Hp & Hd1 & Hc & Hw & Hf & Hcalls); [done|].
    simpl in *. rewrite Hrun. simpl. rewrite length_app in *. simpl in *.
    eexists. split; [by rewrite Nat.add_1_r|].
    rewrite Hq, Hp, <- !app_assoc, Nat.add_0_r. simpl.
    repeat split; try done.
    do 2 f_equal. apply imap_ext. intros j b _. simpl.
    do 2 f_equal. lia.
Qed.

Lemma checkArgs_range_valid {T} (l : list T) s :
  destroyed_ s = false → checkArgs_range (Some <$> l) s = (Returned (), s).
Proof.
  intros Hd. rewrite checkArgs_range_live by done.
  assert (forallb (λ t : option T, bool_decide (is_Some t)) (Some <$> l)
          = true) as ->; [|done].
  apply all_valid_spec. intros Hin.
  by apply list_elem_of_fmap in Hin as (x & Hx & _).
Qed.

Lemma for_each_fmap {A B C} (f : B → M C) (g : A → B) (l : list A) :
  for_each f (g <$> l) = for_each (λ a, f (g a)) l.
Proof.
  induction l as [|a l IH]; [done|].
  rewrite fmap_cons. cbn [for_each]. by rewrite IH.
Qed.

(** X6: the operations that take one task ([dispatch], lines 95-100, and
    [dispatch<R>], lines 102-116), on a pool that is not destroyed. An
    empty task is refused with the "invalid task" error and the pool's data
    is left as it was: nothing is enqueued and no promise is made. A void
    task with a target goes to the tail of the queue as it is, without a
    wrapper, and nothing else changes. *)
Theorem single_dispatch_checks_its_task (t : Task ()) s :
  destroyed_ s = false →
  call_op (Dispatch t) s =
    match t with
    | None => (Raised InvalidTask, s)
    | Some f =>
        (Returned Void,
         set_queue (tasks_ s ++ [Some (CUser f)]) (accepted s ++ [CUser f])
                   (executed s) s)
    end ∧
  call_op (DispatchR None) s = (Raised InvalidTask, s).
Proof.
  intros Hd. split.
  - destruct t as [f|]; simpl; unfold dispatch, bind;
      by rewrite checkArgs_live by done.
  - simpl. unfold dispatch_R, bind. by rewrite checkArgs_live by done.
Qed.

(** X7: the bulk dispatch of void tasks (lines 118-127), over a range of
    tasks that all have a target, on a pool that is not destroyed: it
    returns, and the tasks of the range are at the tail of the queue, in
    input order and without wrappers, behind what the queue held; nothing
    else changes. An empty range is such a range: nothing is appended. *)
Theorem bulk_dispatch_appends_in_order (fs : list (callable ())) s :
  destroyed_ s = false →
  ∃ s1,
    dispatch_range (Some <$> fs) s = (Returned (), s1) ∧
    tasks_ s1 = tasks_ s ++ ((λ f, Some (CUser f)) <$> fs) ∧
    destroyed_ s1 = false ∧ promises s1 = promises s ∧
    counts s1 = counts s ∧ flags s1 = flags s ∧ world s1 = world s ∧
    calls s1 = calls s.
Proof.
  intros Hd. destruct fs as [|f fs].
  - exists s. simpl. by rewrite app_nil_r.
  - unfold dispatch_range. rewrite fmap_cons, <- (fmap_cons Some).
    unfold bind. rewrite checkArgs_range_valid by done.
    eexists. split; [done|]. simpl. rewrite <- list_fmap_compose.
    by repeat split.
Qed.

(** X8: the two operations that dispatch each task of a range through
    [dispatch<R>] ([dispatch<R>(first, last)], lines 129-143, and
    [dispatchSync<R>], lines 172-187), over tasks that all have a target,
    on a pool that is not destroyed. A promise is made for each task; the
    futures come back in input order, one per task, all new and distinct;
    the wrapper of the task at position [j] is the one that holds the
    promise of the future at position [j], and the wrappers are at the tail
    of the queue in input order. *)
Theorem range_futures_in_input_order (gs : list (callable R)) s :
  destroyed_ s = false →
  let b := length (promises s) in
  (∃ s1,
     dispatch_range_R (Some <$> gs) s
       = (Returned (seq b (length gs)), s1) ∧
     tasks_ s1 =
       tasks_ s ++
       imap (λ j g, Some (CPromise (b + j) (Some (RUser g)))) gs ∧
     promises s1 = promises s ++ replicate (length gs) Unset) ∧
  (gs ≠ [] →
   ∃ s1,
     dispatchSync_R (Some <$> gs) s
       = (Returned (Some (seq b (length gs))), s1) ∧
     tasks_ s1 =
       tasks_ s ++
       imap (λ j g, Some (CPromise (b + j) (Some (RBind (Some g))))) gs ∧
     promises s1 = promises s ++ replicate (length gs) Unset).
Proof.
  intros Hd b. split.
  - destruct gs as [|g gs].
    + exists s. simpl. by rewrite !app_nil_r.
    + assert (dispatch_range_R (Some <$> g :: gs) =
              bind (checkArgs_range (Some <$> g :: gs))
                (λ _, for_each (λ t, dispatch_R (RUser <$> t))
                               (Some <$> g :: gs)))
        as -> by done.
      unfold bind. rewrite checkArgs_range_valid by done.
      rewrite for_each_fmap.
      destruct (for_each_dispatch_R RUser (g :: gs) s Hd)
        as (s1 & Hrun & Hq & Hp & _).
      exists s1. simpl in *. by rewrite Hrun.
  - intros Hne. destruct gs as [|g gs]; [done|].
    assert (dispatchSync_R (Some <$> g :: gs) =
            bind (checkArgs_range (Some <$> g :: gs))
              (λ _, bind (for_each (λ t, dispatch_R (Some (RBind t)))
                                   (Some <$> g :: gs))
                         (λ futures, ret (Some futures))))
      as -> by done.
    unfold bind. rewrite checkArgs_range_valid by done.
    rewrite for_each_fmap.
    destruct (for_each_dispatch_R (λ g, RBind (Some g)) (g :: gs) s Hd)
      as (s1 & Hrun & Hq & Hp & _).
    exists s1. simpl in *. by rewrite Hrun.
Qed.

(** X9: the void [dispatchSync] (lines 145-166), over a non-empty range of
    tasks that all have a target, on a pool that is not destroyed. The
    counter is made with the number of tasks; one wrapper per task is at
    the tail of the queue, in input order; the caller is left to wait for
    that counter. Whenever a thread runs one of the wrappers on a state
    that has the counter, the task is called first; when it returns the
    counter is decremented as a [std::size_t] is (it goes down by one, and
    from [0] it wraps around to [2^64 - 1]), and when it throws the
    exception leaves the wrapper and the counter stays. *)
Theorem dispatchSync_counts_its_tasks (fs : list (callable ())) s :
  destroyed_ s = false → fs ≠ [] →
  let c := length (counts s) in
  (∃ s1,
     dispatchSync (Some <$> fs) s = (Returned (Some c), s1) ∧
     counts s1 = counts s ++ [length fs] ∧
     tasks_ s1 = tasks_ s ++ ((λ f, Some (CSync c (Some f))) <$> fs)) ∧
  ∀ tid f s2 k0,
    counts s2 !! c = Some k0 →
    ∃ s3,
      run_closure tid (CSync c (Some f)) s2 =
        (match (f (world s2)).1 with
         | Returned _ => Returned true
         | Raised e => Raised e
         end, s3) ∧
      world s3 = (f (world s2)).2 ∧
      calls s3 = calls s2 ++ [(tid, call_void f)] ∧
      counts s3 = match (f (world s2)).1 with
                  | Returned _ => <[c:=size_dec k0]> (counts s2)
                  | Raised _ => counts s2
                  end.
Proof.
  intros Hd Hne c. split.
  - destruct fs as [|f fs]; [done|].
    assert (dispatchSync (Some <$> f :: fs) =
            bind (checkArgs_range (Some <$> f :: fs))
              (λ _, bind (make_count (length (Some <$> f :: fs)))
                 (λ count,
                    bind (for_each (λ t, dispatch (Some (CSync count t)))
                                   (Some <$> f :: fs))
                         (λ _, ret (Some count)))))
      as -> by done.
    unfold bind at 1. rewrite checkArgs_range_valid by done.
    unfold bind at 1, make_count at 1. rewrite for_each_fmap.
    destruct (for_each_dispatch (λ f, CSync c (Some f)) (f :: fs)
                (set_counts (counts s ++ [length (Some <$> f :: fs)]) s) Hd)
      as (s1 & Hrun & ->).
    unfold bind. fold c. rewrite Hrun.
    eexists. split; [done|]. simpl. by rewrite length_fmap.
  - intros tid f s2 k0 Hk0. unfold run_closure.
    change (frame_size _) with 2. rewrite run_frame_S. simpl.
    unfold bind, invoke.
    destruct (f (world s2)) as [[[]|e] w]; simpl.
    + rewrite run_frame_S. simpl. eexists. split; [done|].
      split; [done|]. split; [done|].
      cbn [counts set_counts].
      apply list_eq. intros j. destruct (decide (j = c)) as [->|Hjc].
      * rewrite list_lookup_alter_eq, Hk0.
        by rewrite list_lookup_insert_eq by (by eapply lookup_lt_Some).
      * by rewrite list_lookup_alter_ne, list_lookup_insert_ne.
    + eexists. by split.
Qed.

(** * More of the machine *)

(** What a step of a thread does to the queue: nothing, or it takes the
    task at its head. It leaves the flag and the owner where they are. *)
Lemma thread_step_queue i m m' :
  thread_step i m = Some m' →
  main m' = main m ∧ destroyed_ (shared m') = destroyed_ (shared m) ∧
  accepted (shared m') = accepted (shared m) ∧
  (tasks_ (shared m') = tasks_ (shared m) ∧
   executed (shared m') = executed (shared m) ∨
   ∃ t, tasks_ (shared m) = t :: tasks_ (shared m') ∧
        executed (shared m') = executed (shared m) ++ option_list t).
Proof.
  unfold thread_step. intros Hstep.
  assert (∀ fr resume running,
    main (run_step i fr resume running m) = main m ∧
    same_queue (shared m) (shared (run_step i fr resume running m)))
    as Hrun.
  { intros fr resume running. unfold run_step.
    pose proof (frame_step_same_queue i fr (shared m)) as Hsame.
    destruct (frame_step i fr (shared m)) as [[[fr'|]|e] s']; simpl in *.
    all: split; [reflexivity|exact Hsame]. }
  destruct (threads_ m !! i) as [[|fr| |fr| |]|]; try done.
  - unfold dequeue in Hstep.
    destruct (tasks_ (shared m)) as [|[c|] q] eqn:Hq; [done| |];
      inversion Hstep; subst m'; simpl; repeat split; try done;
      right; eexists; by split.
  - inversion Hstep; subst m'.
    destruct (Hrun fr WWait WRun) as (Hm & Hq & Ha & He & Hd).
    split; [done|]. split; [done|]. split; [done|]. left. by split.
  - unfold dequeue in Hstep.
    destruct (tasks_ (shared m)) as [|[c|] q] eqn:Hq;
      inversion Hstep; subst m'; simpl; repeat split; try done;
      try (right; eexists; by split). by left.
  - inversion Hstep; subst m'.
    destruct (Hrun fr DPump DRun) as (Hm & Hq & Ha & He & Hd).
    split; [done|]. split; [done|]. split; [done|]. left. by split.
  - inversion Hstep; subst m'. simpl.
    split; [done|]. split; [done|]. split; [done|]. left. by split.
Qed.

(** What every step keeps, every run keeps. *)
Lemma run_keeps (P : @TaskPool World R E → Prop) :
  (∀ mv m m', P m → step mv m = Some m' → P m') →
  ∀ mvs m m', P m → run mvs m = Some m' → P m'.
Proof.
  intros Hstep mvs. induction mvs as [|mv mvs IH]; intros m m' HP Hrun;
    simpl in Hrun.
  - by inversion Hrun; subst m'.
  - destruct (step mv m) as [m1|] eqn:Hmv; [|done].
    eapply IH; [|done]. by eapply Hstep.
Qed.

(** A step of the owner that is not a dispatch leaves the flag alone once
    it is set, and keeps the owner on its side of the destructor's first
    statement. *)
Lemma main_step_flag m m' :
  main_step m = Some m' →
  destroyed_ (shared m') = destroyed_ (shared m) ∧
  in_destructor (main m') = in_destructor (main m).
Proof.
  unfold main_step. intros Hstep.
  destruct (main m) as [|cnt|ps rs|k|k|k|k|] eqn:Hpc; try done.
  - destruct (decide _); [|done]. by inversion Hstep; subst m'.
  - destruct ps as [|p ps]; [by inversion Hstep; subst m'|].
    destruct (promises (shared m) !! p) as [[|v|e]|]; try done;
      by inversion Hstep; subst m'.
  - destruct (decide _); by inversion Hstep; subst m'.
  - destruct (threads_ m !! k) as [[]|]; try done;
      by inversion Hstep; subst m'.
  - destruct (threads_ m !! k); by inversion Hstep; subst m'.
  - destruct (threads_ m !! k) as [[]|]; try done;
      by inversion Hstep; subst m'.
Qed.

Lemma flag_step mv m m' :
  destroyed_ (shared m) = in_destructor (main m) →
  step mv m = Some m' →
  destroyed_ (shared m') = in_destructor (main m').
Proof.
  intros Hinv Hstep.
  unfold step in Hstep. destruct (terminated m); [done|].
  destruct mv as [o| | |i].
  - unfold client_step in Hstep. destruct (main m) eqn:Hpc; try done.
    destruct (accepts_call_op o (shared m) Hinv) as (_ & _ & _ & _ & Hd).
    destruct (call_op o (shared m)) as [r s']. simpl in Hd.
    inversion Hstep; subst m'. simpl. rewrite Hd.
    by destruct r as [[]|].
  - unfold destroy_step in Hstep. destruct (main m); try done.
    by inversion Hstep; subst m'.
  - apply main_step_flag in Hstep as [-> ->]. done.
  - apply thread_step_queue in Hstep as (-> & -> & _). done.
Qed.

(** X10: [destroyed_] (lines 61 and 276) is set by the first statement of
    the destructor and by nothing else, and nothing clears it: in every
    state a pool can reach, the flag is set exactly when its owner has
    entered the destructor. *)
Theorem destroyed_exactly_in_destructor (n : nat) (w : World) m :
  reachable (TaskPool_new n w) m →
  destroyed_ (shared m) = in_destructor (main m).
Proof.
  intros [mvs Hrun].
  by apply (run_keeps (λ m, destroyed_ (shared m) = in_destructor (main m))
              flag_step mvs (TaskPool_new n w) m).
Qed.

Lemma fifo_step mv m m' :
  destroyed_ (shared m) = in_destructor (main m) →
  accepted (shared m) = executed (shared m) ++ omap id (tasks_ (shared m)) →
  step mv m = Some m' →
  accepted (shared m') =
    executed (shared m') ++ omap id (tasks_ (shared m')).
Proof.
  intros Hflag Hinv Hstep.
  unfold step in Hstep. destruct (terminated m); [done|].
  destruct mv as [o| | |i].
  - unfold client_step in Hstep. destruct (main m) eqn:Hpc; try done.
    destruct (accepts_call_op o (shared m) Hflag)
      as (new & Hq & Ha & He & _).
    destruct (call_op o (shared m)) as [r s']. simpl in *.
    inversion Hstep; subst m'. simpl.
    by rewrite Hq, Ha, He, Hinv, omap_app, omap_id_Some, app_assoc.
  - unfold destroy_step in Hstep. destruct (main m); try done.
    by inversion Hstep; subst m'.
  - unfold main_step in Hstep.
    destruct (main m) as [|cnt|ps rs|k|k|k|k|] eqn:Hpc; try done.
    + destruct (decide _); [|done]. by inversion Hstep; subst m'.
    + destruct ps as [|p ps]; [by inversion Hstep; subst m'|].
      destruct (promises (shared m) !! p) as [[|v|e]|]; try done;
        by inversion Hstep; subst m'.
    + destruct (decide _); inversion Hstep; subst m'; [|done]. simpl.
      rewrite omap_app. simpl. by rewrite !app_nil_r.
    + destruct (threads_ m !! k) as [[]|]; try done;
        by inversion Hstep; subst m'.
    + destruct (threads_ m !! k); by inversion Hstep; subst m'.
    + destruct (threads_ m !! k) as [[]|]; try done;
        by inversion Hstep; subst m'.
  - apply thread_step_queue in Hstep
      as (_ & _ & -> & [[-> ->]|(t & Hq & ->)]); [done|].
    rewrite Hinv, Hq, <- app_assoc. by destruct t.
Qed.

(** X11: the order in which tasks are taken. With the queue a FIFO, in
    every state a pool can reach the tasks that the threads have taken from
    the queue are the first of the accepted ones, in the order in which
    they were accepted, and the others are the content of the queue: no
    task goes back to the queue and none overtakes another. *)
Theorem tasks_taken_in_accepted_order (n : nat) (w : World) m :
  reachable (TaskPool_new n w) m →
  accepted (shared m) = executed (shared m) ++ omap id (tasks_ (shared m)).
Proof.
  intros [mvs Hrun].
  apply (run_keeps
           (λ m, destroyed_ (shared m) = in_destructor (main m) ∧
                 accepted (shared m) =
                   executed (shared m) ++ omap id (tasks_ (shared m)))
           ) in Hrun; [by destruct Hrun| |done].
  intros mv m0 m1 [Hflag Hfifo] Hstep. split.
  - by eapply flag_step.
  - by eapply fifo_step.
Qed.

Lemma sentinel_tail (t : option closure) q :
  sum_list_with sentinel (t :: q) = 0 →
  (∃ c, t = Some c) ∧ sum_list_with sentinel q = 0.
Proof. destruct t as [c|]; simpl; [|lia]. intros ->. by eauto. Qed.

Lemma alive_step mv m m' :
  destroyed_ (shared m) = in_destructor (main m) →
  alive m → step mv m = Some m' → alive m'.
Proof.
  intros Hflag Hinv Hstep. unfold alive in *.
  unfold step in Hstep. destruct (terminated m); [done|].
  destruct mv as [o| | |i].
  - unfold client_step in Hstep. destruct (main m) eqn:Hpc; try done.
    destruct (Hinv eq_refl) as [Hth Hsen].
    destruct (accepts_call_op o (shared m) Hflag) as (new & Hq & _).
    destruct (call_op o (shared m)) as [r s']. simpl in *.
    inversion Hstep; subst m'. simpl. intros _. split; [done|].
    by rewrite Hq, sum_list_with_app, sentinel_accepted, Hsen.
  - unfold destroy_step in Hstep. destruct (main m); try done.
    by inversion Hstep; subst m'.
  - pose proof (main_step_flag _ _ Hstep) as [_ Hside].
    rewrite Hside. intros Hpc. specialize (Hinv Hpc).
    unfold main_step in Hstep.
    destruct (main m) as [|cnt|ps rs|k|k|k|k|]; try done.
    + destruct (decide _); [|done]. by inversion Hstep; subst m'.
    + destruct ps as [|p ps]; [by inversion Hstep; subst m'|].
      destruct (promises (shared m) !! p) as [[|v|e]|]; try done;
        by inversion Hstep; subst m'.
  - pose proof (thread_step_queue _ _ _ Hstep) as (Hpc' & _).
    rewrite Hpc'. intros Hpc. destruct (Hinv Hpc) as [Hth Hsen].
    unfold thread_step in Hstep.
    destruct (threads_ m !! i) as [t|] eqn:Hi; [|done].
    pose proof (Forall_lookup_1 _ _ _ _ Hth Hi) as Hlive.
    destruct t as [|fr| |fr| |]; try done.
    + unfold dequeue in Hstep.
      destruct (tasks_ (shared m)) as [|t q] eqn:Hq; [done|].
      apply sentinel_tail in Hsen as [[c ->] Hsen].
      inversion Hstep; subst m'. simpl. split; [|done].
      by apply Forall_insert.
    + inversion Hstep; subst m'. unfold run_step.
      pose proof (frame_step_same_queue i fr (shared m)) as (Hq & _).
      destruct (frame_step i fr (shared m)) as [[[fr'|]|e] s']; simpl in *;
        rewrite Hq; (split; [|done]); try done; by apply Forall_insert.
Qed.

(** C9 (as amended). A pool constructed with the default argument has
    [numThreads_] equal to what [hardware_concurrency] reports, which may be
    [0], and starts that many workers, all waiting for a task. In every
    state the pool reaches, [threads_] holds exactly that many threads;
    until the destructor starts, none of them has returned: each is in its
    loop, waiting for a task or executing one; and until the destructor
    starts its drainers each of them is a worker. The pool has at least
    one worker executing tasks exactly when the reported number is at
    least [1]. *)
Theorem default_pool_has_hardware_concurrency_workers
    (hardware_concurrency : nat) (w : World) m :
  reachable (TaskPool_default hardware_concurrency w) m →
  threads_ (TaskPool_default (R:=R) (E:=E) hardware_concurrency w)
    = replicate hardware_concurrency WWait ∧
  numThreads_ m = hardware_concurrency ∧
  length (threads_ m) = hardware_concurrency ∧
  (in_destructor (main m) = false →
   Forall (λ t, t = WWait ∨ ∃ fr, t = WRun fr) (threads_ m)) ∧
  (before_drain (main m) → Forall (λ t, is_worker t) (threads_ m)) ∧
  (1 ≤ length (threads_ m) ↔ 1 ≤ hardware_concurrency).
Proof.
  intros [mvs Hrun].
  assert (∀ k ths, spawn_workers k ths = ths ++ replicate k WWait) as Hsp.
  { induction k as [|k IH]; intros ths; simpl; [by rewrite app_nil_r|].
    rewrite IH, <- app_assoc. done. }
  assert (threads_ (TaskPool_default (R:=R) (E:=E) hardware_concurrency w)
          = replicate hardware_concurrency WWait) as Hinit.
  { simpl. by rewrite Hsp. }
  split; [done|].
  assert (alive m) as Halive.
  { apply (run_keeps
             (λ m, destroyed_ (shared m) = in_destructor (main m) ∧
                   alive m)) in Hrun as [_ Halive]; [done| |].
    - intros mv m0 m1 [Hflag Hal] Hstep. split.
      + by eapply flag_step.
      + by eapply alive_step.
    - split; [done|]. intros _. rewrite Hinit. split; [|done].
      by apply Forall_replicate. }
  assert (workers_ok m ∧ numThreads_ m = hardware_concurrency)
    as [[Hlen Hw] Hn].
  { revert Hrun.
    assert (workers_ok (TaskPool_default (R:=R) (E:=E)
                          hardware_concurrency w)) as Hok0.
    { split; [by rewrite Hinit, length_replicate|]. intros _.
      rewrite Hinit. by apply Forall_replicate. }
    assert (numThreads_ (TaskPool_default (R:=R) (E:=E)
                           hardware_concurrency w)
            = hardware_concurrency) as Hn0 by done.
    revert Hok0 Hn0. generalize (TaskPool_default (R:=R) (E:=E)
                                   hardware_concurrency w).
    induction mvs as [|mv mvs IH]; intros m0 Hok0 Hn0 Hrun;
      simpl in Hrun.
    - by inversion Hrun; subst m.
    - destruct (step mv m0) as [m1|] eqn:Hstep; [|done].
      destruct (workers_ok_step _ _ _ Hok0 Hstep) as [Hok1 Hn1].
      apply (IH m1); [done|congruence|done]. }
  rewrite Hlen, Hn. split; [done|]. split; [done|]. split.
  - intros Hpc. destruct (Halive Hpc) as [Hth _].
    eapply Forall_impl; [exact Hth|]. intros [|fr| |fr| |]; simpl;
      try done; by eauto.
  - by split.
Qed.

(** X12: the workers (lines 45-56) before the destructor. In every state
    a pool can reach while its owner has not entered the destructor, no
    worker has returned: each is waiting in [wait_dequeue] or is inside a
    task; and the queue holds no empty task, so that a worker that takes a
    task does not leave its loop. *)
Theorem workers_stay_until_destructor (n : nat) (w : World) m :
  reachable (TaskPool_new n w) m →
  in_destructor (main m) = false →
  length (threads_ m) = n ∧
  Forall (λ t, t = WWait ∨ ∃ fr, t = WRun fr) (threads_ m) ∧
  None ∉ tasks_ (shared m).
Proof.
  intros [mvs Hrun] Hpc.
  assert (∀ k ths, spawn_workers k ths
                   = ths ++ replicate k (@WWait World R E)) as Hsp.
  { induction k as [|k IH]; intros ths; simpl; [by rewrite app_nil_r|].
    rewrite IH, <- app_assoc. done. }
  pose proof (run_keeps
    (λ m, (destroyed_ (shared m) = in_destructor (main m) ∧ alive m) ∧
          length (threads_ m) = n)) as Hkeep.
  apply Hkeep in Hrun as [[_ Halive] Hlen]; clear Hkeep.
  - destruct (Halive Hpc) as [Hth Hsen]. split; [done|]. split.
    + eapply Forall_impl; [exact Hth|]. intros [|fr| |fr| |]; simpl;
        try done; by eauto.
    + intros Hin. apply list_elem_of_lookup in Hin as [j Hj].
      pose proof (sum_list_with_lookup sentinel _ _ _ Hj). simpl in *. lia.
  - intros mv m0 m1 [[Hflag Halive] Hlen] Hstep. split; [split|].
    + by eapply flag_step.
    + by eapply alive_step.
    + clear Halive. unfold step in Hstep.
      destruct (terminated m0); [done|].
      destruct mv as [o| | |i]; simpl in Hstep.
      * unfold client_step in Hstep. destruct (main m0); try done.
        destruct (call_op o (shared m0)). by inversion Hstep; subst m1.
      * unfold destroy_step in Hstep. destruct (main m0); try done.
        by inversion Hstep; subst m1.
      * unfold main_step in Hstep.
        destruct (main m0) as [|cnt|ps rs|k|k|k|k|]; try done.
        -- destruct (decide _); [|done]. by inversion Hstep; subst m1.
        -- destruct ps as [|p ps]; [by inversion Hstep; subst m1|].
           destruct (promises (shared m0) !! p) as [[|v|e]|]; try done;
             by inversion Hstep; subst m1.
        -- destruct (decide _); by inversion Hstep; subst m1.
        -- destruct (threads_ m0 !! k) as [[]|]; try done;
             by inversion Hstep; subst m1.
        -- destruct (threads_ m0 !! k); inversion Hstep; subst m1;
             simpl; by rewrite ?length_insert.
        -- destruct (threads_ m0 !! k) as [[]|]; try done;
             by inversion Hstep; subst m1.
      * unfold thread_step in Hstep.
        destruct (threads_ m0 !! i) as [[|fr| |fr| |]|]; try done;
          try (unfold dequeue in Hstep;
               destruct (tasks_ (shared m0)) as [|[c|] q]);
          try done; inversion Hstep; subst m1; unfold run_step;
          try destruct (frame_step i fr (shared m0)) as [[[fr'|]|e] s'];
          simpl; by rewrite ?length_insert.
  - split; [split; [done|]|].
    + intros _. simpl. rewrite Hsp. simpl. split; [|done].
      apply Forall_forall. intros t Ht.
      by apply elem_of_replicate in Ht as [-> _].
    + simpl. rewrite Hsp. simpl. by rewrite length_replicate.
Qed.

Lemma drain_clean_step mv m m' :
  terminated m = None → running_ok m → drain_clean m →
  step mv m = Some m' → drain_clean m'.
Proof.
  intros Hterm (Hlen & _ & Hth & _ & Hph & _) Hinv Hstep.
  unfold drain_clean in *.
  unfold step in Hstep. rewrite Hterm in Hstep.
  destruct mv as [o| | |i].
  - unfold client_step in Hstep. destruct (main m) eqn:Hpc; try done.
    destruct (call_op o (shared m)) as [r s'].
    inversion Hstep; subst m'. simpl. by destruct r as [[]|].
  - unfold destroy_step in Hstep. destruct (main m); try done.
    by inversion Hstep; subst m'.
  - unfold main_step in Hstep. unfold phase_ok in Hph.
    destruct (main m) as [|cnt|ps rs|k|k|k|k|] eqn:Hpc; try done.
    + destruct (decide _); [|done]. by inversion Hstep; subst m'.
    + destruct ps as [|p ps]; [by inversion Hstep; subst m'|].
      destruct (promises (shared m) !! p) as [[|v|e]|]; try done;
        by inversion Hstep; subst m'.
    + destruct (decide _); by inversion Hstep; subst m'.
    + destruct (threads_ m !! k) as [[]|] eqn:Hk; try done;
        inversion Hstep; subst m'; [done|]. simpl. intros _.
      destruct Hph as [_ ->]. apply sum_zero_all. intros j t Hj.
      destruct (Hth j t Hj) as [_ Hdone]. rewrite Hdone; [done|].
      apply lookup_ge_None in Hk. apply lookup_lt_Some in Hj. lia.
    + destruct (threads_ m !! k); inversion Hstep; subst m'; simpl;
        intros _; by apply Hinv.
    + destruct (threads_ m !! k) as [[]|]; try done;
        inversion Hstep; subst m'; simpl; intros _; by apply Hinv.
  - apply thread_step_queue in Hstep
      as (-> & _ & _ & [[-> _]|(t & Hq & _)]); [done|].
    intros Hpc. specialize (Hinv Hpc). rewrite Hq in Hinv.
    by apply sentinel_tail in Hinv as [_ ?].
Qed.

(** X13: the drainers (lines 73-83) call what they take from the queue
    without looking whether it has a target. In every state a pool can
    reach, a drainer at [try_dequeue] either finds the queue empty and goes
    on to its increment of the counter, or takes a task that has a target
    and goes on to call it: it never meets one of the empty tasks the
    destructor has enqueued, for the workers have taken them all before the
    first drainer starts. *)
Theorem drainer_never_takes_empty_task (n : nat) (w : World) m i :
  (Z.of_nat n + 1 < size_modulus)%Z →
  reachable (TaskPool_new n w) m →
  terminated m = None → threads_ m !! i = Some DPump →
  (None ∉ tasks_ (shared m)) ∧
  ∃ m', step (Thread i) m = Some m' ∧ terminated m' = None ∧
    (tasks_ (shared m) = [] ∧ threads_ m' !! i = Some DCount ∨
     ∃ c, tasks_ (shared m) = Some c :: tasks_ (shared m') ∧
          threads_ m' !! i = Some (DRun (FTarget c))).
Proof.
  intros Hfit [mvs Hrun] Hterm Hi.
  pose proof (run_keeps
    (λ m, numThreads_ m = n ∧ invariant m ∧ drain_clean m)) as Hkeep.
  apply Hkeep in Hrun as (_ & Hinv & Hclean); clear Hkeep.
  - unfold invariant in Hinv. rewrite Hterm in Hinv.
    destruct Hinv as (_ & _ & Hth & _).
    specialize (Hth i DPump Hi).
    assert (before_drain (main m) = false) as Hpc.
    { destruct (main m) as [|cnt|ps rs|k|k|k|k|]; simpl in *; try done.
      by destruct Hth. }
    specialize (Hclean Hpc).
    assert (None ∉ tasks_ (shared m)) as Hnone.
    { intros Hin. apply list_elem_of_lookup in Hin as [j Hj].
      pose proof (sum_list_with_lookup sentinel _ _ _ Hj). simpl in *. lia. }
    split; [done|].
    pose proof (lookup_lt_Some _ _ _ Hi) as Hlt.
    unfold step, thread_step, dequeue. rewrite Hterm, Hi.
    destruct (tasks_ (shared m)) as [|[c|] q] eqn:Hq.
    + eexists. split; [done|]. split; [done|]. left. split; [done|].
      simpl. by rewrite list_lookup_insert_eq.
    + eexists. split; [done|]. split; [done|]. right. exists c.
      split; [done|]. simpl. by rewrite list_lookup_insert_eq.
    + destruct Hnone. by left.
  - intros mv m0 m1 (Hn & Hinv & Hclean) Hstep.
    pose proof (step_numThreads _ _ _ Hstep) as Hn'.
    split; [congruence|]. split.
    + eapply invariant_step; [|done..]. by rewrite Hn.
    + unfold invariant in Hinv.
      destruct (terminated m0) eqn:Hterm0.
      * unfold step in Hstep. by rewrite Hterm0 in Hstep.
      * by eapply drain_clean_step.
  - split; [done|]. split; [apply invariant_new|done].
Qed.

(** A step inside a wrapper that holds promises throws nothing, as long
    as the promises it has still to set are not set. *)
Lemma frame_step_catches tid fr s :
  (∀ p, p ∈ owned_frame fr → promises s !! p = Some Unset) →
  catches fr = true →
  ∃ r s', frame_step tid fr s = (Returned r, s').
Proof.
  intros Hun Hc.
  destruct fr as [[g|p t|cnt t|ts|b ts|fl t]|p o|cnt|ts|b i ts|b i o ts];
    try done; simpl in *; unfold bind, attempt, serialR_step, ret.
  - destruct (invoke_rfun tid t s). by eauto.
  - destruct ts as [|t ts]; [by eauto|]. unfold bind, attempt.
    destruct (invoke tid call_R t s). by eauto.
  - rewrite fulfil_unset by (apply Hun; by left). by eauto.
  - destruct ts as [|t ts]; [by eauto|]. unfold bind, attempt.
    destruct (invoke tid call_R t s). by eauto.
  - rewrite fulfil_unset by (apply Hun; by left). by eauto.
Qed.

(** X14: which exceptions leave a thread. The worker and the drainer call
    the task they have taken with no handler around the call (lines 52 and
    79). In every state a pool can reach, a thread inside a task can make
    its next step. From inside a wrapper of [dispatch<R>] or the composite
    of [dispatchSerial<R>], whose handlers store what the task throws in
    the promise, that step never ends the process, also when the task has
    no target. Elsewhere the process is ended exactly when the step throws,
    with what it throws; for a void task dispatched as it is, that is what
    the task throws. Once the process is ended no thread moves. *)
Theorem exception_leaves_only_tasks_without_promise
    (n : nat) (w : World) m i fr :
  reachable (TaskPool_new n w) m → terminated m = None →
  threads_ m !! i = Some (WRun fr) ∨ threads_ m !! i = Some (DRun fr) →
  ∃ m', step (Thread i) m = Some m' ∧
    (catches fr = true → terminated m' = None) ∧
    terminated m' =
      match (frame_step i fr (shared m)).1 with
      | Returned _ => None
      | Raised e => Some e
      end ∧
    (∀ f, fr = FTarget (CUser f) →
          terminated m' =
            match (f (world (shared m))).1 with
            | Returned _ => None
            | Raised e => Some e
            end) ∧
    (∀ e, terminated m' = Some e → ∀ mv, step mv m' = None).
Proof.
  intros [mvs Hrun] Hterm Hi.
  pose proof (owners_ok_run _ _ _ (owners_ok_new n w) Hrun)
    as [[_ Hun] _].
  assert (∃ t resume running,
            threads_ m !! i = Some t ∧ owned_thread t = owned_frame fr ∧
            step (Thread i) m = Some (run_step i fr resume running m))
    as (t & resume & running & Ht & Hown & Hstep).
  { unfold step, thread_step. rewrite Hterm.
    destruct Hi as [Hi|Hi]; rewrite Hi; by eauto 10. }
  eexists. split; [exact Hstep|]. unfold run_step.
  assert (∀ p, p ∈ owned_frame fr →
               promises (shared m) !! p = Some Unset) as Hfr.
  { intros p Hp. apply Hun. unfold owned. apply elem_of_app. right.
    apply list_elem_of_bind. exists t. rewrite Hown.
    split; [done|]. by eapply list_elem_of_lookup_2. }
  pose proof (frame_step_catches i fr (shared m) Hfr) as Hcatch.
  split; [|split; [|split]].
  - intros Hc. destruct (Hcatch Hc) as (r & s' & ->).
    by destruct r.
  - by destruct (frame_step i fr (shared m)) as [[[fr'|]|e] s'].
  - intros f ->. simpl. unfold bind, invoke.
    by destruct (f (world (shared m))) as [[[]|e] w'].
  - intros e He mv. unfold step. by rewrite He.
Qed.

(** A promise that holds a value keeps it. *)
Lemma fulfil_keeps_value p (o : outcome E R) q (v : R) s :
  promises s !! q = Some (Value v) →
  promises (fulfil p o s).2 !! q = Some (Value v).
Proof.
  intros Hq.
  assert (∀ x : slot E R,
            promises (satisfy p x s).2 !! q = Some (Value v) ∧
            ((satisfy p x s).1 = Returned () ∨ (satisfy p x s).2 = s))
    as Hsat.
  { intros x. unfold satisfy.
    destruct (promises s !! p) as [[| |]|] eqn:Hp; simpl; try by auto.
    split; [|by left]. rewrite list_lookup_insert_ne; [done|]. congruence. }
  destruct o as [r|e]; simpl; [|apply Hsat].
  unfold try_catch. destruct (Hsat (Value r)) as [Hkeep [Hret|Hsame]].
  - destruct (satisfy p (Value r) s) as [[[]|e] s']; simpl in *; done.
  - destruct (satisfy p (Value r) s) as [[[]|e] s']; simpl in *; [done|].
    subst s'. apply Hsat.
Qed.

Lemma frame_step_keeps_value tid fr q (v : R) s :
  promises s !! q = Some (Value v) →
  promises (frame_step tid fr s).2 !! q = Some (Value v).
Proof.
  intros Hq.
  assert (∀ A mk (t : Task A),
            promises (invoke tid mk t s).2 = promises s) as Hinv
    by (intros; apply invoke_promises).
  destruct fr as [[g|p t|cnt t|ts|b ts|fl t]|p o|cnt|ts|b i ts|b i o ts];
    simpl; unfold bind, attempt, serial_step, serialR_step, call_once,
      count_down, ret.
  - specialize (Hinv _ call_void (Some g)).
    destruct (invoke _ _ _ s) as [[] ?]; simpl in *; by rewrite Hinv.
  - pose proof (invoke_rfun_promises tid t s) as Hsame.
    destruct (invoke_rfun _ _ s); simpl in *. by rewrite Hsame.
  - specialize (Hinv _ call_void t).
    destruct (invoke _ _ _ s) as [[] ?]; simpl in *; by rewrite Hinv.
  - destruct ts as [|t ts]; [done|]. unfold bind.
    specialize (Hinv _ call_void t).
    destruct (invoke _ _ _ s) as [[] ?]; simpl in *; by rewrite Hinv.
  - destruct ts as [|t ts]; [done|]. unfold bind, attempt.
    specialize (Hinv _ call_R t).
    destruct (invoke _ _ _ s); simpl in *. by rewrite Hinv.
  - destruct (bool_decide _); [done|]. unfold bind.
    specialize (Hinv _ call_void t).
    destruct (invoke _ _ _ s) as [[] ?]; simpl in *; by rewrite Hinv.
  - pose proof (fulfil_keeps_value p o q v s Hq).
    by destruct (fulfil p o s) as [[[]|e] s'].
  - done.
  - destruct ts as [|t ts]; [done|]. unfold bind.
    specialize (Hinv _ call_void t).
    destruct (invoke _ _ _ s) as [[] ?]; simpl in *; by rewrite Hinv.
  - destruct ts as [|t ts]; [done|]. unfold bind, attempt.
    specialize (Hinv _ call_R t).
    destruct (invoke _ _ _ s); simpl in *. by rewrite Hinv.
  - pose proof (fulfil_keeps_value (b + i) o q v s Hq).
    by destruct (fulfil (b + i) o s) as [[[]|e] s'].
Qed.

Lemma thread_step_keeps_value i m m' q (v : R) :
  thread_step i m = Some m' →
  promises (shared m) !! q = Some (Value v) →
  promises (shared m') !! q = Some (Value v).
Proof.
  unfold thread_step. intros Hstep Hq.
  assert (∀ fr resume running,
    promises (shared (run_step i fr resume running m)) !! q
    = Some (Value v)) as Hrun.
  { intros fr resume running. unfold run_step.
    pose proof (frame_step_keeps_value i fr q v (shared m) Hq).
    by destruct (frame_step i fr (shared m)) as [[[fr'|]|e] s']. }
  destruct (threads_ m !! i) as [[|fr| |fr| |]|]; try done;
    try (unfold dequeue in Hstep;
         destruct (tasks_ (shared m)) as [|[c|] q']);
    try done; inversion Hstep; subst m'; try done; apply Hrun.
Qed.

(** The futures a dispatch operation leaves its caller to gather are the
    promises it has just made, in order. *)
Lemma call_op_gathering o s ps s' :
  destroyed_ s = false →
  call_op o s = (Returned (Gathering ps), s') →
  ps = seq (length (promises s)) (length ps).
Proof.
  intros Hd.
  destruct o as [t|t|ts|ts|ts|ts|ts|ts|fl t]; simpl; unfold bind.
  - by destruct (dispatch _ s) as [[]].
  - by destruct (dispatch_R _ s) as [[]].
  - by destruct (dispatch_range _ s) as [[]].
  - by destruct (dispatch_range_R _ s) as [[]].
  - by destruct (dispatchSync _ s) as [[[]|]].
  - destruct ts as [|t ts]; [done|].
    unfold dispatchSync_R, bind.
    destruct (checkArgs_range (t :: ts) s) as [[[]|e] s1] eqn:Hcheck;
      [|done].
    assert (s1 = s) as ->.
    { rewrite checkArgs_range_live in Hcheck by done.
      by destruct (forallb _ (t :: ts)); inversion Hcheck. }
    destruct (for_each_dispatch_R RBind (t :: ts) s Hd)
      as (s1 & Hrun & _).
    rewrite Hrun. unfold ret. intros Heq.
    assert (ps = seq (length (promises s)) (length (t :: ts))) as ->
      by (by inversion Heq).
    by rewrite length_seq.
  - by destruct (dispatchSerial _ s) as [[]].
  - by destruct (dispatchSerial_R _ s) as [[]].
  - by destruct (dispatchOnce _ _ s) as [[]].
Qed.

Lemma gather_ok_step mv m m' :
  destroyed_ (shared m) = in_destructor (main m) →
  gather_ok m → step mv m = Some m' → gather_ok m'.
Proof.
  intros Hflag Hinv Hstep. unfold gather_ok in *.
  unfold step in Hstep. destruct (terminated m); [done|].
  destruct mv as [o| | |i].
  - unfold client_step in Hstep. destruct (main m) eqn:Hpc; try done.
    destruct (call_op o (shared m)) as [r s'] eqn:Hop.
    inversion Hstep; subst m'. simpl.
    destruct r as [[| | | | |ps]|]; try done.
    exists (length (promises (shared m))). simpl. rewrite Nat.add_0_r.
    split; [by eapply call_op_gathering|done].
  - unfold destroy_step in Hstep. destruct (main m); try done.
    by inversion Hstep; subst m'.
  - unfold main_step in Hstep.
    destruct (main m) as [|cnt|ps rs|k|k|k|k|] eqn:Hpc; try done.
    + destruct (decide _); [|done]. by inversion Hstep; subst m'.
    + destruct ps as [|p ps]; [by inversion Hstep; subst m'|].
      destruct Hinv as (b & Hps & Hrs). simpl in Hps.
      injection Hps as Hp Hps'.
      destruct (promises (shared m) !! p) as [[|v|e]|] eqn:Hv; try done;
        inversion Hstep; subst m'; simpl; [|done].
      exists b. rewrite length_app. simpl. split.
      * by rewrite Nat.add_1_r, Nat.add_succ_r.
      * intros j v' Hj. apply lookup_app_Some in Hj as [Hj|[Hge Hj]].
        -- by apply Hrs.
        -- apply list_lookup_singleton_Some in Hj as [Hz ->].
           assert (j = length rs) as -> by lia. by rewrite <- Hp.
    + destruct (decide _); by inversion Hstep; subst m'.
    + destruct (threads_ m !! k) as [[]|]; try done;
        by inversion Hstep; subst m'.
    + destruct (threads_ m !! k); by inversion Hstep; subst m'.
    + destruct (threads_ m !! k) as [[]|]; try done;
        by inversion Hstep; subst m'.
  - pose proof (thread_step_queue _ _ _ Hstep) as (-> & _).
    destruct (main m) as [|cnt|ps rs|k|k|k|k|]; try done.
    destruct Hinv as (b & Hps & Hrs). exists b. split; [done|].
    intros j v Hj. eapply thread_step_keeps_value; [done|]. by apply Hrs.
Qed.

(** X15: the loop in which [dispatchSync<R>] gets its futures (lines
    189-195). In every state a pool can reach, while the owner is in that
    loop the futures it has still to get are consecutive promises, and the
    results it has gathered so far are the values that the promises before
    them hold, in the same order: the result at position [j] is the value
    of the future at position [j]. The loop takes the value of the next
    future when that one holds a value, waits while it is not set, and
    leaves the operation when it holds a failure. *)
Theorem dispatchSync_R_gathers_in_order
    (n : nat) (w : World) m (ps : list nat) (rs : list R) :
  reachable (TaskPool_new n w) m →
  main m = MGather ps rs → terminated m = None →
  ∃ b,
    ps = seq (b + length rs) (length ps) ∧
    (∀ j v, rs !! j = Some v →
            promises (shared m) !! (b + j) = Some (Value v)) ∧
    match ps with
    | [] => ∃ m', step Main m = Some m' ∧ main m' = MIdle
    | p :: ps' =>
        match promises (shared m) !! p with
        | Some (Value v) =>
            ∃ m', step Main m = Some m' ∧ main m' = MGather ps' (rs ++ [v])
        | Some (Failure e) => ∃ m', step Main m = Some m' ∧ main m' = MIdle
        | _ => step Main m = None
        end
    end.
Proof.
  intros [mvs Hrun] Hpc Hterm.
  apply (run_keeps
           (λ m, destroyed_ (shared m) = in_destructor (main m) ∧
                 gather_ok m)) in Hrun as [_ Hinv]; [| |done].
  - unfold gather_ok in Hinv. rewrite Hpc in Hinv.
    destruct Hinv as (b & Hps & Hrs). exists b.
    split; [done|]. split; [done|].
    unfold step, main_step. rewrite Hterm, Hpc.
    destruct ps as [|p ps']; [by eauto|].
    destruct (promises (shared m) !! p) as [[|v|e]|]; by eauto.
  - intros mv m0 m1 [Hflag Hg] Hstep. split.
    + by eapply flag_step.
    + by eapply gather_ok_step.
Qed.

(** *** The counter of a [dispatchSync] *)

Lemma plain_nothing {A} (mop : M A) :
  (∀ s, same_queue s (mop s).2 ∧ counts (mop s).2 = counts s) → plain mop.
Proof.
  intros H s Hd. destruct (H s) as ((Hq & _ & _ & Hd') & Hc).
  exists []. simpl. rewrite app_nil_r. repeat split; congruence.
Qed.

Lemma plain_bind {A B} (mop : M A) (k : A → M B) :
  plain mop → (∀ a, plain (k a)) → plain (bind mop k).
Proof.
  intros Hm Hk s Hd. unfold bind.
  destruct (Hm s Hd) as (new1 & Hq1 & Hc1 & Hd1 & Hw1).
  destruct (mop s) as [[a|e] s1]; simpl in *; [|by exists new1].
  destruct (Hk a s1 Hd1) as (new2 & Hq2 & Hc2 & Hd2 & Hw2).
  exists (new1 ++ new2).
  rewrite Hq2, Hc2, Hq1, Hc1, fmap_app, !app_assoc.
  repeat split; try done.
  intros k0. by rewrite sum_list_with_app, Hw1, Hw2.
Qed.

Lemma plain_ret {A} (a : A) : plain (ret a : M A).
Proof. apply plain_nothing. intros s. split; [apply same_queue_refl|done]. Qed.

Lemma plain_checkArgs {T} (task : option T) : plain (checkArgs task : M ()).
Proof.
  apply plain_nothing. intros s. unfold checkArgs.
  destruct (destroyed_ s); [by split; [apply same_queue_refl|]|].
  destruct (negb _); by split; [apply same_queue_refl|].
Qed.

Lemma plain_checkArgs_range {T} (tasks : list (option T)) :
  plain (checkArgs_range tasks : M ()).
Proof.
  apply plain_nothing. intros s. unfold checkArgs_range.
  destruct (destroyed_ s); [by split; [apply same_queue_refl|]|].
  destruct (negb _); by split; [apply same_queue_refl|].
Qed.

Lemma plain_dispatch c :
  (∀ k0, waits_closure k0 c = 0) → plain (dispatch (Some c) : M ()).
Proof.
  intros Hc. apply plain_bind; [apply plain_checkArgs|]. intros _ s Hd.
  exists [c]. simpl. repeat split; try done. intros k0. by rewrite Hc.
Qed.

Lemma plain_dispatch_user (task : Task ()) :
  plain (dispatch (CUser <$> task) : M ()).
Proof.
  destruct task as [f|]; [by apply plain_dispatch|].
  apply plain_nothing. intros s. unfold dispatch, bind, checkArgs. simpl.
  destruct (destroyed_ s); by split; [apply same_queue_refl|].
Qed.

Lemma plain_dispatch_R (task : option rfun) :
  plain (dispatch_R task : M nat).
Proof.
  apply plain_bind; [apply plain_checkArgs|]. intros _.
  apply plain_bind; [by apply plain_nothing|]. intros p.
  apply plain_bind; [|intros; apply plain_ret].
  intros s Hd. exists [CPromise p task]. by simpl.
Qed.

Lemma plain_for_each {A B} (k : A → M B) (l : list A) :
  (∀ a, plain (k a)) → plain (for_each k l).
Proof.
  intros Hk. induction l as [|a l IH]; simpl; [apply plain_ret|].
  apply plain_bind; [done|]. intros b.
  apply plain_bind; [done|]. intros bs. apply plain_ret.
Qed.

Lemma plain_dispatch_range (tasks : list (Task ())) :
  plain (dispatch_range tasks : M ()).
Proof.
  destruct tasks as [|t ts]; [apply plain_ret|].
  intros s Hd. unfold dispatch_range, bind.
  rewrite checkArgs_range_live by done.
  destruct (forallb _ (t :: ts)) eqn:Hall.
  - exists (omap (fmap CUser) (t :: ts)).
    apply all_valid_spec in Hall.
    unfold enqueue_bulk. rewrite (valid_range_fmap _ Hall).
    cbn [snd tasks_ counts destroyed_ set_queue].
    repeat split; try done. intros k0.
    generalize (t :: ts). intros l.
    induction l as [|[g|] l IH]; csimpl; done.
  - exists []. simpl. by rewrite !app_nil_r.
Qed.

Lemma waits_wrappers (cn k0 : nat) (l : list (Task ())) :
  sum_list_with (waits_closure k0) (CSync (World:=World) (R:=R) (E:=E) cn <$> l)
  = if decide (cn = k0) then length l else 0.
Proof.
  induction l as [|t l IH]; csimpl; [by destruct (decide _)|].
  rewrite IH. by destruct (decide _).
Qed.

Ltac plain_op H :=
  apply H;
  [simpl; apply plain_bind; [|intros; apply plain_ret]
  |intros ?; simpl; unfold bind].

(** What a dispatch operation does to the counters on a pool that is not
    destroyed: the void [dispatchSync] makes one, which holds the number
    of wrappers it appends for it; no other operation makes a counter or
    appends a wrapper of that kind. *)
Lemma call_op_counts o s :
  destroyed_ s = false →
  ∃ (new : list closure) (ks : list nat),
    tasks_ (call_op o s).2 = tasks_ s ++ (Some <$> new) ∧
    counts (call_op o s).2 = counts s ++ ks ∧
    (∀ k0, sum_list_with (waits_closure k0) new =
           if decide (k0 < length (counts s)) then 0
           else default 0 (ks !! (k0 - length (counts s)))) ∧
    (∀ cn : nat, (call_op o s).1 = Returned (Waiting cn) →
          cn < length (counts s ++ ks)).
Proof.
  intros Hd.
  assert (∀ mop : M (@reply R),
            plain mop → (∀ cn : nat, (mop s).1 ≠ Returned (Waiting cn)) →
            ∃ (new : list closure) (ks : list nat),
              tasks_ (mop s).2 = tasks_ s ++ (Some <$> new) ∧
              counts (mop s).2 = counts s ++ ks ∧
              (∀ k0, sum_list_with (waits_closure k0) new =
                     if decide (k0 < length (counts s)) then 0
                     else default 0 (ks !! (k0 - length (counts s)))) ∧
              (∀ cn : nat, (mop s).1 = Returned (Waiting cn) →
                    cn < length (counts s ++ ks))) as Hplain.
  { intros mop Hp Hno. destruct (Hp s Hd) as (new & Hq & Hc & _ & Hw).
    exists new, []. rewrite app_nil_r. repeat split; try done.
    - intros k0. rewrite Hw. by destruct (decide _).
    - intros cn Hc'. by destruct (Hno cn). }
  destruct o as [t|t|ts|ts|ts|ts|ts|ts|fl t].
  - plain_op Hplain; [apply plain_dispatch_user|].
    by destruct (dispatch _ s) as [[]].
  - plain_op Hplain; [apply plain_dispatch_R|].
    by destruct (dispatch_R _ s) as [[]].
  - plain_op Hplain; [apply plain_dispatch_range|].
    by destruct (dispatch_range _ s) as [[]].
  - plain_op Hplain; [|by destruct (dispatch_range_R _ s) as [[]]].
    destruct ts; [apply plain_ret|].
    apply plain_bind; [apply plain_checkArgs_range|]. intros _.
    apply plain_for_each. intros. apply plain_dispatch_R.
  - destruct ts as [|t ts].
    { exists [], []. simpl. rewrite !app_nil_r. repeat split; try done.
      intros k0. by destruct (decide _). }
    pose proof (checkArgs_range_live (t :: ts) s Hd) as Hcheck.
    destruct (forallb _ (t :: ts)).
    + assert (call_op (DispatchSync (t :: ts)) s =
              (Returned (Waiting (length (counts s))),
               set_queue
                 (tasks_ s ++
                  ((λ t, Some (CSync (length (counts s)) t)) <$> t :: ts))
                 (accepted s ++ (CSync (length (counts s)) <$> t :: ts))
                 (executed s)
                 (set_counts (counts s ++ [length (t :: ts)]) s))) as ->.
      { unfold call_op.
        change (dispatchSync (t :: ts)) with
          (bind (checkArgs_range (t :: ts) : M ())
             (λ _, bind (make_count (length (t :: ts)) : M nat)
                (λ count,
                   bind (for_each (λ t, dispatch (Some (CSync count t)))
                                  (t :: ts))
                        (λ _, ret (Some count))))).
        unfold bind at 1 2. rewrite Hcheck.
        unfold bind at 1, make_count.
        destruct (for_each_dispatch (CSync (length (counts s))) (t :: ts)
                    (set_counts (counts s ++ [length (t :: ts)]) s) Hd)
          as (s1 & Hrun & ->).
        unfold bind. by rewrite Hrun. }
      exists (CSync (length (counts s)) <$> (t :: ts)), [length (t :: ts)].
      cbn [fst snd tasks_ counts set_queue set_counts].
      split; [by rewrite <- list_fmap_compose|]. split; [done|]. split.
      * intros k0. rewrite waits_wrappers.
        destruct (decide (length (counts s) = k0)) as [<-|Hne].
        -- rewrite decide_False by lia. by rewrite Nat.sub_diag.
        -- destruct (decide (k0 < length (counts s))); [done|].
           destruct (k0 - length (counts s)) as [|k] eqn:Hk; [lia|done].
      * intros cn [= <-]. rewrite length_app. simpl. lia.
    + assert (call_op (DispatchSync (t :: ts)) s = (Raised InvalidTask, s))
        as ->.
      { unfold call_op.
        change (dispatchSync (t :: ts)) with
          (bind (checkArgs_range (t :: ts) : M ())
             (λ _, bind (make_count (length (t :: ts)) : M nat)
                (λ count,
                   bind (for_each (λ t, dispatch (Some (CSync count t)))
                                  (t :: ts))
                        (λ _, ret (Some count))))).
        unfold bind at 1 2. rewrite Hcheck. done. }
      exists [], []. simpl. rewrite !app_nil_r. repeat split; try done.
      intros k0. by destruct (decide _).
  - plain_op Hplain; [|by destruct (dispatchSync_R _ s) as [[[]|]]].
    destruct ts; [apply plain_ret|].
    apply plain_bind; [apply plain_checkArgs_range|]. intros _.
    apply plain_bind; [|intros; apply plain_ret].
    apply plain_for_each. intros. apply plain_dispatch_R.
  - plain_op Hplain; [|by destruct (dispatchSerial _ s) as [[]]].
    destruct ts; [apply plain_ret|].
    apply plain_bind; [apply plain_checkArgs_range|]. intros _.
    by apply plain_dispatch.
  - plain_op Hplain; [|by destruct (dispatchSerial_R _ s) as [[]]].
    destruct ts; [apply plain_ret|].
    apply plain_bind; [apply plain_checkArgs_range|]. intros _.
    apply plain_bind; [by apply plain_nothing|]. intros b.
    apply plain_bind; [by apply plain_dispatch|]. intros; apply plain_ret.
  - plain_op Hplain; [by apply plain_dispatch|].
    by destruct (dispatchOnce _ _ s) as [[]].
Qed.

Lemma invoke_counts {A} tid mk (t : Task A) s :
  counts (invoke tid mk t s).2 = counts s.
Proof. unfold invoke. destruct t as [g|]; [|done]. by destruct (g (world s)). Qed.

Lemma fulfil_counts p (o : outcome E R) s :
  counts (fulfil p o s).2 = counts s.
Proof.
  assert (∀ x : slot E R,
            counts (satisfy p x s).2 = counts s ∧
            ((satisfy p x s).1 = Returned () ∨ (satisfy p x s).2 = s))
    as Hsat.
  { intros x. unfold satisfy.
    destruct (promises s !! p) as [[| |]|]; simpl; by auto. }
  destruct o as [r|e]; simpl; [|apply Hsat].
  unfold try_catch. destruct (Hsat (Value r)) as [Hkeep [Hret|Hsame]].
  - destruct (satisfy p (Value r) s) as [[[]|e] s']; simpl in *; done.
  - destruct (satisfy p (Value r) s) as [[[]|e] s']; simpl in *; [done|].
    subst s'. apply Hsat.
Qed.

(** What a step inside a task does to the counters: nothing, the frame
    that follows waiting for the same counter as the one before; or it is
    the decrement at the end of a wrapper of [dispatchSync]. *)
Lemma frame_step_counts tid fr s :
  match frame_step tid fr s with
  | (Returned r, s') =>
      counts s' = counts s ∧
      (∀ k0, from_option (waits_frame k0) 0 r = waits_frame k0 fr) ∨
      ∃ cn, fr = FSyncDone cn ∧ r = None ∧
            counts s' = alter size_dec cn (counts s)
  | (Raised e, s') => counts s' = counts s
  end.
Proof.
  assert (∀ A mk (t : Task A),
            counts (invoke tid mk t s).2 = counts s) as Hinv
    by (intros; apply invoke_counts).
  destruct fr as [[g|p t|cnt t|ts|b ts|fl t]|p o|cnt|ts|b i ts|b i o ts];
    simpl; unfold bind, attempt, serial_step, serialR_step, call_once,
      count_down, ret.
  - specialize (Hinv _ call_void (Some g)).
    destruct (invoke _ _ _ s) as [[] ?]; simpl in *; [by left|done].
  - assert (counts (invoke_rfun tid t s).2 = counts s) as Hsame.
    { destruct t as [[g|t]|];
        [apply (invoke_counts tid call_R (Some g))
        |apply (invoke_counts tid call_R t)|done]. }
    destruct (invoke_rfun _ _ s); simpl in *. by left.
  - specialize (Hinv _ call_void t).
    destruct (invoke _ _ _ s) as [[] ?]; simpl in *; [by left|done].
  - destruct ts as [|t ts]; [by left|]. unfold bind.
    specialize (Hinv _ call_void t).
    destruct (invoke _ _ _ s) as [[] ?]; simpl in *; [by left|done].
  - destruct ts as [|t ts]; [by left|]. unfold bind, attempt.
    specialize (Hinv _ call_R t).
    destruct (invoke _ _ _ s); simpl in *. by left.
  - destruct (bool_decide _); [by left|]. unfold bind.
    specialize (Hinv _ call_void t).
    destruct (invoke _ _ _ s) as [[] ?]; simpl in *; [by left|done].
  - pose proof (fulfil_counts p o s).
    destruct (fulfil p o s) as [[[]|e] s']; simpl in *; [by left|done].
  - right. by exists cnt.
  - destruct ts as [|t ts]; [by left|]. unfold bind.
    specialize (Hinv _ call_void t).
    destruct (invoke _ _ _ s) as [[] ?]; simpl in *; [by left|done].
  - destruct ts as [|t ts]; [by left|]. unfold bind, attempt.
    specialize (Hinv _ call_R t).
    destruct (invoke _ _ _ s); simpl in *. by left.
  - pose proof (fulfil_counts (b + i) o s).
    destruct (fulfil (b + i) o s) as [[[]|e] s']; simpl in *; [by left|done].
Qed.

Lemma counts_ok_same m m' :
  counts_ok m → joined m' →
  (∀ cn, main m' = MWaitCount cn → main m = MWaitCount cn) →
  counts (shared m') = counts (shared m) →
  (∀ k0, outstanding k0 m' = outstanding k0 m) →
  counts_ok m'.
Proof.
  intros (_ & Hc & Hnew & Hwait) Hj Hpc Hsame Hout.
  split; [done|]. rewrite Hsame. split; [|split].
  - intros cn k Hk. rewrite Hout. by apply Hc.
  - intros cn Hcn. rewrite Hout. by apply Hnew.
  - intros cn Hcn. by apply Hwait, Hpc.
Qed.

Lemma joined_thread m m' i t t' :
  joined m → threads_ m !! i = Some t → t ≠ TDone →
  main m' = main m → threads_ m' = <[i:=t']> (threads_ m) →
  joined m'.
Proof.
  unfold joined. intros Hj Hi Ht -> ->.
  destruct (main m) as [|cnt|ps rs|k|k|k|k|]; try done;
    intros j x Hjk Hx; (destruct (decide (i = j)) as [->|Hne];
      [destruct Ht; by eapply Hj
      |rewrite list_lookup_insert_ne in Hx by done; by eapply Hj]).
Qed.

Lemma outstanding_thread k0 m m' i t t' :
  threads_ m !! i = Some t →
  tasks_ (shared m') = tasks_ (shared m) →
  threads_ m' = <[i:=t']> (threads_ m) →
  outstanding k0 m' + waits_thread k0 t
  = outstanding k0 m + waits_thread k0 t'.
Proof.
  intros Hi Hq Hths. unfold outstanding. rewrite Hq, Hths.
  pose proof (sum_list_with_insert (waits_thread k0) _ _ _ t' Hi). lia.
Qed.

Lemma counts_ok_run_step m i fr t resume running :
  counts_ok m → threads_ m !! i = Some t → t ≠ TDone →
  (∀ k0, waits_thread k0 t = waits_frame k0 fr) →
  (∀ k0 fr', waits_thread k0 (running fr') = waits_frame k0 fr') →
  (∀ k0, waits_thread k0 resume = 0) →
  counts_ok (run_step i fr resume running m).
Proof.
  intros Hok Hi Hlive Ht Hrun Hres. unfold run_step.
  pose proof (frame_step_same_queue i fr (shared m)) as (Hq & _).
  pose proof (frame_step_counts i fr (shared m)) as Hstep.
  destruct (frame_step i fr (shared m)) as [[r|e] s']; simpl in *.
  - assert (∃ t', (match r with
                   | Some fr' => set_thread i (running fr') (set_shared s' m)
                   | None => set_thread i resume (set_shared s' m)
                   end) = set_thread i t' (set_shared s' m) ∧
                  ∀ k0, waits_thread k0 t' = from_option (waits_frame k0) 0 r)
      as (t' & -> & Ht').
    { destruct r as [fr'|]; eexists; split; done. }
    assert (joined (set_thread i t' (set_shared s' m))) as Hj.
    { destruct Hok as [Hj _]. by eapply joined_thread. }
    assert (∀ k0, outstanding k0 (set_thread i t' (set_shared s' m))
                  + waits_thread k0 t
                  = outstanding k0 m + waits_thread k0 t') as Hout.
    { intros k0. by apply (outstanding_thread k0 m _ i t t'). }
    destruct Hstep as [[Hsame Hw]|(cn & -> & -> & Hdown)].
    + apply (counts_ok_same m); try done.
      intros k0. specialize (Hout k0). rewrite Ht', Hw, Ht in Hout. lia.
    + destruct Hok as (_ & Hc & Hnew & Hwait). split; [done|].
      simpl. rewrite Hdown, length_alter.
      assert (∀ k0, outstanding k0 (set_thread i t' (set_shared s' m))
                    + (if decide (cn = k0) then 1 else 0)
                    = outstanding k0 m) as Hout'.
      { intros k0. specialize (Hout k0). rewrite Ht', Ht in Hout.
        simpl in Hout. lia. }
      split; [|split; [|done]].
      * intros c' k Hk. specialize (Hout' c').
        destruct (decide (cn = c')) as [->|Hne].
        -- rewrite list_lookup_alter_eq in Hk.
           destruct (counts (shared m) !! c') as [k'|] eqn:Hk'; [|done].
           inversion Hk; subst k. apply Hc in Hk'.
           destruct k' as [|k']; [lia|]. simpl. lia.
        -- rewrite list_lookup_alter_ne in Hk by done. apply Hc in Hk. lia.
      * intros c' Hc'. specialize (Hout' c'). specialize (Hnew c' Hc'). lia.
  - apply (counts_ok_same m); try done; [by destruct Hok|].
    intros k0. unfold outstanding. simpl. by rewrite Hq.
Qed.

Lemma counts_ok_client o m m' :
  destroyed_ (shared m) = in_destructor (main m) →
  counts_ok m → client_step o m = Some m' → counts_ok m'.
Proof.
  intros Hflag (_ & Hc & Hnew & _) Hstep. unfold client_step in Hstep.
  destruct (main m) eqn:Hpc; try done.
  destruct (call_op_counts o (shared m) Hflag)
    as (new & ks & Hq & Hcs & Hw & Hwait).
  destruct (call_op o (shared m)) as [r s']. simpl in *.
  inversion Hstep; subst m'; clear Hstep.
  assert (∀ k0, outstanding k0
                  (set_main match r with
                            | Returned (Waiting cn) => MWaitCount cn
                            | Returned (Gathering ps) => MGather ps []
                            | _ => MIdle
                            end (set_shared s' m))
                = outstanding k0 m
                  + sum_list_with (waits_closure k0) new) as Hout.
  { intros k0. unfold outstanding. simpl.
    rewrite Hq, sum_list_with_app.
    assert (sum_list_with (waits_item k0) (Some <$> new)
            = sum_list_with (waits_closure k0) new) as ->; [|lia].
    clear. induction new as [|c new IH]; csimpl; [done|]. by rewrite IH. }
  split; [by destruct r as [[]|]|]. simpl. rewrite Hcs.
  split; [|split].
  - intros cn k Hk. rewrite Hout, Hw.
    destruct (decide (cn < length (counts (shared m)))) as [Hlt|Hge].
    + rewrite lookup_app_l in Hk by done. apply Hc in Hk. lia.
    + rewrite lookup_app_r in Hk by lia. rewrite Hk. simpl.
      rewrite Hnew by lia. done.
  - intros cn Hcn. rewrite length_app in Hcn. rewrite Hout, Hw.
    rewrite decide_False by lia. rewrite Hnew by lia.
    rewrite (lookup_ge_None_2 ks) by lia. done.
  - intros cn Hcn. apply Hwait. by destruct r as [[]|]; inversion Hcn.
Qed.

Lemma counts_ok_main m m' :
  counts_ok m → main_step m = Some m' → counts_ok m'.
Proof.
  intros Hok Hstep. pose proof Hok as (Hj & Hc & Hnew & Hwait).
  unfold main_step in Hstep.
  assert (∀ pc, (∀ cn, pc ≠ MWaitCount cn) →
                joined (set_main pc m) → counts_ok (set_main pc m))
    as Hsame.
  { intros pc Hpc Hj'. split; [done|]. simpl.
    split; [done|]. split; [done|]. intros cn ->. by destruct (Hpc cn). }
  destruct (main m) as [|cnt|ps rs|k|k|k|k|] eqn:Hpc; try done.
  - destruct (decide _); [|done]. inversion Hstep; subst m'.
    apply Hsame; [done|exact I].
  - destruct ps as [|p ps];
      [inversion Hstep; subst m'; apply Hsame; [done|exact I]|].
    destruct (promises (shared m) !! p) as [[|v|e]|]; try done;
      inversion Hstep; subst m'; (apply Hsame; [done|exact I]).
  - destruct (decide _); inversion Hstep; subst m'.
    + split; [exact I|]. simpl. split; [|split; [|done]].
      * intros cn k' Hk. apply Hc in Hk. rewrite Hk. unfold outstanding.
        simpl. rewrite sum_list_with_app. simpl. lia.
      * intros cn Hcn. apply Hnew in Hcn. unfold outstanding in *.
        simpl. rewrite sum_list_with_app. simpl. lia.
    + apply Hsame; [done|]. unfold joined. simpl. intros j t Hjk. lia.
  - unfold joined in Hj. rewrite Hpc in Hj.
    destruct (threads_ m !! k) as [[]|] eqn:Hk; try done;
      inversion Hstep; subst m'.
    + apply Hsame; [done|]. unfold joined. simpl.
      intros j t Hjk Hjt. destruct (decide (j = k)) as [->|Hne].
      * congruence.
      * apply (Hj j); [lia|done].
    + apply (counts_ok_same m); try done.
      unfold joined. simpl. intros j t _ Hjt.
      apply (Hj j); [|done].
      apply lookup_ge_None in Hk. apply lookup_lt_Some in Hjt. lia.
  - unfold joined in Hj. rewrite Hpc in Hj.
    destruct (threads_ m !! k) as [t|] eqn:Hk;
      inversion Hstep; subst m'; [|apply Hsame; [done|exact I]].
    assert (t = TDone) as -> by (by apply (Hj k)).
    split; [|split; [|split]]; simpl.
    + unfold joined. simpl. intros j t Hjk Hjt.
      rewrite list_lookup_insert_ne in Hjt by lia.
      apply (Hj j); [lia|done].
    + intros cn k' Hk'. apply Hc in Hk'. rewrite Hk'.
      pose proof (outstanding_thread cn m
                    (set_main (MSpawn (S k)) (set_thread k DPump m))
                    k TDone DPump Hk eq_refl eq_refl) as Hout.
      simpl in Hout. lia.
    + intros cn Hcn. apply Hnew in Hcn.
      pose proof (outstanding_thread cn m
                    (set_main (MSpawn (S k)) (set_thread k DPump m))
                    k TDone DPump Hk eq_refl eq_refl) as Hout.
      simpl in Hout. lia.
    + done.
  - destruct (threads_ m !! k) as [[]|]; try done;
      inversion Hstep; subst m'; (apply Hsame; [done|exact I]).
Qed.

Lemma counts_ok_thread i m m' :
  counts_ok m → thread_step i m = Some m' → counts_ok m'.
Proof.
  intros Hok Hstep. pose proof Hok as (Hj & Hc & Hnew & Hwait).
  unfold thread_step in Hstep.
  destruct (threads_ m !! i) as [t|] eqn:Hi; [|done].
  assert (∀ t' q acc exe,
    t ≠ TDone → (∀ k0, waits_thread k0 t = 0) →
    (∀ k0, sum_list_with (waits_item k0) q + waits_thread k0 t'
           = sum_list_with (waits_item k0) (tasks_ (shared m))) →
    counts_ok (set_thread i t'
                 (set_shared (set_queue q acc exe (shared m)) m)))
    as Hmove.
  { intros t' q acc exe Hlive Ht Hsum. apply (counts_ok_same m); try done.
    - by eapply joined_thread.
    - intros k0. unfold outstanding. simpl. specialize (Hsum k0).
      pose proof (sum_list_with_insert (waits_thread k0) _ _ _ t' Hi).
      rewrite Ht in *. lia. }
  destruct t as [|fr| |fr| |]; try done.
  - unfold dequeue in Hstep.
    destruct (tasks_ (shared m)) as [|[c|] q] eqn:Hq; [done| |];
      inversion Hstep; subst m'; apply Hmove; try done;
      intros k0; simpl; lia.
  - inversion Hstep; subst m'. by eapply counts_ok_run_step.
  - unfold dequeue in Hstep.
    destruct (tasks_ (shared m)) as [|[c|] q] eqn:Hq;
      inversion Hstep; subst m'.
    + apply (counts_ok_same m); try done.
      * by eapply joined_thread.
      * intros k0. unfold outstanding. simpl.
        pose proof (sum_list_with_insert (waits_thread k0) _ _ _ DCount Hi).
        simpl in *. lia.
    + apply Hmove; try done. intros k0; simpl; lia.
    + apply (counts_ok_same m); try done.
      intros k0. unfold outstanding. simpl. by rewrite Hq.
  - inversion Hstep; subst m'. by eapply counts_ok_run_step.
  - inversion Hstep; subst m'. apply (counts_ok_same m); try done.
    + by eapply joined_thread.
    + intros k0. unfold outstanding. simpl.
      pose proof (sum_list_with_insert (waits_thread k0) _ _ _
        (if decide (Z.of_nat (numThreads_ m) =
                    ((numDones m + 1) `mod` size_modulus)%Z)
         then DPump else TDone) Hi) as Hsum.
      assert (waits_thread k0
                (if decide (Z.of_nat (numThreads_ m) =
                            ((numDones m + 1) `mod` size_modulus)%Z)
                 then DPump else TDone : @thread World R E) = 0) as Hz
        by by destruct (decide _).
      rewrite Hz in Hsum. simpl in Hsum. lia.
Qed.

Lemma counts_ok_step mv m m' :
  destroyed_ (shared m) = in_destructor (main m) →
  counts_ok m → step mv m = Some m' → counts_ok m'.
Proof.
  intros Hflag Hok Hstep. unfold step in Hstep.
  destruct (terminated m); [done|].
  destruct mv as [o| | |i]; simpl in Hstep.
  - by eapply counts_ok_client.
  - unfold destroy_step in Hstep. destruct (main m) eqn:Hpc; try done.
    inversion Hstep; subst m'. by apply (counts_ok_same m).
  - by eapply counts_ok_main.
  - by eapply counts_ok_thread.
Qed.


(** X17: the two [dispatchSync] on a pool that has no thread (one
    constructed with [0], or by default where the hardware concurrency is
    not known). The call over a non-empty range of tasks that have targets
    enqueues its wrappers and then waits: the void form for its counter,
    which holds the number of tasks, the other for its first future, which
    is not set. Nothing can move from there, not even the destructor,
    which the blocked owner cannot reach: the call never returns. *)
Theorem dispatchSync_blocks_without_threads
    (fs : list (callable ())) (gs : list (callable R)) (w : World) :
  (fs ≠ [] →
   ∃ m', step (Client (DispatchSync (Some <$> fs))) (TaskPool_new 0 w)
           = Some m' ∧
         main m' = MWaitCount 0 ∧
         counts (shared m') = [length fs] ∧
         ∀ mv, step mv m' = None) ∧
  (gs ≠ [] →
   ∃ m', step (Client (DispatchSyncR (Some <$> gs))) (TaskPool_new 0 w)
           = Some m' ∧
         main m' = MGather (seq 0 (length gs)) [] ∧
         promises (shared m') = replicate (length gs) Unset ∧
         ∀ mv, step mv m' = None).
Proof.
  pose (s0 := @new_pool World R E w).
  split; intros Hne.
  - destruct fs as [|f fs]; [done|].
    assert (call_op (DispatchSync (Some <$> f :: fs)) s0 =
            (Returned (Waiting 0),
             set_queue ((λ f, Some (CSync 0 (Some f))) <$> f :: fs)
                       ((λ f, CSync 0 (Some f)) <$> f :: fs) []
                       (set_counts [length (f :: fs)] s0)))
      as Hop.
    { unfold call_op.
      change (dispatchSync (Some <$> f :: fs)) with
        (bind (checkArgs_range (Some <$> f :: fs) : M ())
           (λ _, bind (make_count (length (Some <$> f :: fs)) : M nat)
              (λ count,
                 bind (for_each (λ t, dispatch (Some (CSync count t)))
                                (Some <$> f :: fs))
                      (λ _, ret (Some count))))).
      unfold bind at 1 2. rewrite checkArgs_range_valid by done.
      unfold bind at 1, make_count. rewrite for_each_fmap.
      destruct (for_each_dispatch (λ f, CSync 0 (Some f)) (f :: fs)
                  (set_counts ([] ++ [length (Some <$> f :: fs)])
                              s0) eq_refl)
        as (s1 & Hrun & ->).
      unfold bind. simpl in Hrun |- *. rewrite Hrun. simpl.
      by rewrite length_fmap. }
    unfold step, client_step. simpl terminated. simpl main. cbv iota.
    change (shared (TaskPool_new 0 w)) with s0. rewrite Hop.
    eexists. split; [done|]. split; [done|]. split; [done|].
    intros [o| | |i]; unfold step; simpl; done.
  - destruct gs as [|g gs]; [done|].
    assert (∃ s1, call_op (DispatchSyncR (Some <$> g :: gs)) s0 =
                    (Returned (Gathering (seq 0 (length (g :: gs)))), s1) ∧
                  promises s1 = replicate (length (g :: gs)) Unset)
      as (s1 & Hop & Hps).
    { unfold call_op.
      change (dispatchSync_R (Some <$> g :: gs)) with
        (bind (checkArgs_range (Some <$> g :: gs) : M ())
           (λ _, bind (for_each (λ t, dispatch_R (Some (RBind t)))
                                (Some <$> g :: gs))
                      (λ futures, ret (Some futures)))).
      unfold bind at 1 2. rewrite checkArgs_range_valid by done.
      destruct (for_each_dispatch_R RBind (Some <$> g :: gs) s0
                  eq_refl) as (s1 & Hrun & _ & Hp & _).
      unfold bind. rewrite Hrun. exists s1. simpl in *.
      by rewrite length_fmap in *. }
    unfold step, client_step. simpl terminated. simpl main. cbv iota.
    change (shared (TaskPool_new 0 w)) with s0. rewrite Hop.
    eexists. split; [done|]. split; [done|]. split; [done|].
    intros [o| | |i]; unfold step; simpl; try done.
    unfold main_step. simpl. by rewrite Hps.
Qed.

(** *** No future is left unresolved *)

Lemma resolved_sub m m' :
  resolved m → (∀ p, p ∈ owned m → p ∈ owned m') →
  promises (shared m') = promises (shared m) → resolved m'.
Proof.
  intros Hres Hsub Hsame p x Hp. rewrite Hsame in Hp.
  destruct (Hres p x Hp) as [Hin|Hset]; [left; by apply Hsub|by right].
Qed.

Lemma resolved_set m m' p0 (v : slot E R) :
  resolved m → (∀ p, p ∈ owned m → p ≠ p0 → p ∈ owned m') →
  promises (shared m') = <[p0:=v]> (promises (shared m)) → v ≠ Unset →
  resolved m'.
Proof.
  intros Hres Hsub Hset Hv p x Hp. rewrite Hset in Hp.
  destruct (decide (p = p0)) as [->|Hne].
  - apply list_lookup_insert_Some in Hp as [(_ & <- & _)|[? _]]; [|done].
    by right.
  - rewrite list_lookup_insert_ne in Hp by done.
    destruct (Hres p x Hp) as [Hin|Hx]; [left; by apply Hsub|by right].
Qed.

Lemma owned_take m i t c q running acc exe :
  threads_ m !! i = Some t → owned_thread t = [] →
  tasks_ (shared m) = Some c :: q →
  owned_thread running = owned_closure c →
  owned (set_thread i running
           (set_shared (set_queue q acc exe (shared m)) m))
  ≡ₚ owned m.
Proof.
  intros Hi Ht Hq Hrun. unfold owned. simpl. rewrite Hq. csimpl.
  pose proof (bind_insert_perm owned_thread (threads_ m) i t running Hi)
    as Hperm. rewrite Ht, app_nil_r, Hrun in Hperm. rewrite Hperm.
  rewrite <- (app_assoc (owned_closure c)).
  rewrite (Permutation_app_comm (owned_closure c)).
  by rewrite <- !app_assoc.
Qed.

Lemma owned_idle m i t t' :
  threads_ m !! i = Some t → owned_thread t = [] → owned_thread t' = [] →
  <[i:=t']> (threads_ m) ≫= owned_thread ≡ₚ threads_ m ≫= owned_thread.
Proof.
  intros Hi Ht Ht'.
  pose proof (bind_insert_perm owned_thread (threads_ m) i t t' Hi) as Hperm.
  by rewrite Ht, Ht', !app_nil_r in Hperm.
Qed.

Lemma resolved_run_step m i fr t resume running :
  promises_ok m → resolved m → threads_ m !! i = Some t →
  owned_thread t = owned_frame fr →
  (∀ fr', owned_thread (running fr') = owned_frame fr') →
  owned_thread resume = [] →
  resolved (run_step i fr resume running m).
Proof.
  intros Hok Hres Hi Ht Hrun Hidle. unfold run_step.
  pose proof (frame_step_same_queue i fr (shared m)) as (Hq & _).
  pose proof (frame_step_promises i fr (shared m)) as Hstep.
  assert (∀ p, p ∈ owned_frame fr →
               promises (shared m) !! p = Some Unset) as Hun.
  { intros p Hp. apply Hok. unfold owned. apply elem_of_app. right.
    apply list_elem_of_bind. exists t. rewrite Ht.
    split; [done|]. by eapply list_elem_of_lookup_2. }
  specialize (Hstep Hun).
  destruct (frame_step i fr (shared m)) as [[r|e] s']; simpl in *.
  - assert (∃ t', (match r with
                   | Some fr' => set_thread i (running fr') (set_shared s' m)
                   | None => set_thread i resume (set_shared s' m)
                   end) = set_thread i t' (set_shared s' m) ∧
                  owned_thread t' = from_option owned_frame [] r)
      as (t' & -> & Ht').
    { destruct r as [fr'|]; eexists; split; done. }
    pose proof (owned_set_thread m i t t' s' Hi Hq) as Hperm.
    rewrite Ht, Ht' in Hperm.
    destruct Hstep as [[Heq Hp]|(p0 & o & Heq & Hp)].
    + apply (resolved_sub m); [done| |done].
      rewrite Heq in Hperm. apply Permutation_app_inv_r in Hperm.
      intros p Hin. by rewrite Hperm.
    + apply (resolved_set m _ p0 (slot_of o)); [done| |done|by destruct o].
      assert (owned m ≡ₚ p0 :: owned (set_thread i t' (set_shared s' m)))
        as Hperm'.
      { rewrite Heq in Hperm.
        rewrite (Permutation_app_comm _ (p0 :: _)) in Hperm. simpl in Hperm.
        rewrite (Permutation_app_comm _ (from_option _ _ _)) in Hperm.
        rewrite Permutation_middle in Hperm.
        by apply Permutation_app_inv_l in Hperm. }
      intros p Hin Hne. rewrite Hperm' in Hin.
      by apply elem_of_cons in Hin as [->|Hin].
  - apply (resolved_sub m); [done| |done].
    intros p. unfold owned. simpl. by rewrite Hq.
Qed.

Lemma resolved_step mv m m' :
  owners_ok m → joined m → resolved m → step mv m = Some m' → resolved m'.
Proof.
  intros [Hok Hd] Hj Hres Hstep. unfold step in Hstep.
  destruct (terminated m); [done|].
  assert (∀ m1, tasks_ (shared m1) = tasks_ (shared m) →
                threads_ m1 = threads_ m →
                promises (shared m1) = promises (shared m) → resolved m1)
    as Hsame.
  { intros m1 Hq Hths Hps. apply (resolved_sub m); [done| |done].
    intros p. unfold owned. by rewrite Hq, Hths. }
  assert (∀ i t t' m1,
            threads_ m !! i = Some t → owned_thread t = [] →
            owned_thread t' = [] →
            tasks_ (shared m1) = tasks_ (shared m) →
            threads_ m1 = <[i:=t']> (threads_ m) →
            promises (shared m1) = promises (shared m) → resolved m1)
    as Hidle.
  { intros i t t' m1 Hi Ht Ht' Hq Hths Hps.
    apply (resolved_sub m); [done| |done].
    intros p. unfold owned. rewrite Hq, Hths.
    by rewrite (owned_idle m i t t'). }
  destruct mv as [o| | |i]; simpl in Hstep.
  - unfold client_step in Hstep. destruct (main m) eqn:Hpc; try done.
    specialize (Hd eq_refl).
    pose proof (allocates_call_op o (shared m) Hd)
      as (new & k & Hq & Hp & Hnew & _).
    destruct (call_op o (shared m)) as [r s']. simpl in *.
    inversion Hstep; subst m'. intros p x Hpx. simpl in Hpx.
    rewrite Hp in Hpx. unfold owned. simpl.
    rewrite Hq, bind_app, owned_new, Hnew.
    destruct (decide (p < length (promises (shared m)))) as [Hlt|Hge].
    + rewrite lookup_app_l in Hpx by done.
      destruct (Hres p x Hpx) as [Hin|Hx]; [left|by right].
      unfold owned in Hin. apply elem_of_app in Hin as [Hin|Hin].
      * apply elem_of_app. left. apply elem_of_app. by left.
      * apply elem_of_app. by right.
    + left. apply lookup_lt_Some in Hpx.
      rewrite length_app, length_replicate in Hpx.
      apply elem_of_app. left. apply elem_of_app. right.
      apply elem_of_seq. lia.
  - unfold destroy_step in Hstep. destruct (main m); try done.
    inversion Hstep; subst m'. by apply Hsame.
  - unfold main_step in Hstep. unfold joined in Hj.
    destruct (main m) as [|cnt|ps rs|k|k|k|k|] eqn:Hpc; try done.
    + destruct (decide _); [|done]. inversion Hstep; subst m'.
      by apply Hsame.
    + destruct ps as [|p ps]; [inversion Hstep; subst m'; by apply Hsame|].
      destruct (promises (shared m) !! p) as [[|v|e]|]; try done;
        inversion Hstep; subst m'; by apply Hsame.
    + destruct (decide _); inversion Hstep; subst m'; [|by apply Hsame].
      apply (resolved_sub m); [done| |done].
      intros p. unfold owned. simpl. rewrite bind_app. csimpl.
      by rewrite app_nil_r.
    + destruct (threads_ m !! k) as [[]|]; try done;
        inversion Hstep; subst m'; by apply Hsame.
    + destruct (threads_ m !! k) as [t|] eqn:Hk;
        inversion Hstep; subst m'; [|by apply Hsame].
      assert (t = TDone) as -> by (by apply (Hj k)).
      by apply (Hidle k TDone DPump).
    + destruct (threads_ m !! k) as [[]|]; try done;
        inversion Hstep; subst m'; by apply Hsame.
  - unfold thread_step in Hstep.
    destruct (threads_ m !! i) as [t|] eqn:Hi; [|done].
    assert (∀ c q acc exe running,
              owned_thread t = [] → tasks_ (shared m) = Some c :: q →
              owned_thread running = owned_closure c →
              resolved (set_thread i running
                          (set_shared (set_queue q acc exe (shared m)) m)))
      as Htake.
    { intros c q acc exe running Ht Hq Hrun.
      apply (resolved_sub m); [done| |done].
      intros p. by rewrite (owned_take m i t c q running). }
    assert (∀ q m1,
              tasks_ (shared m) = None :: q →
              tasks_ (shared m1) = q → threads_ m1 ≫= owned_thread
                ≡ₚ threads_ m ≫= owned_thread →
              promises (shared m1) = promises (shared m) → resolved m1)
      as Hempty.
    { intros q m1 Hq Hq1 Hths Hps.
      apply (resolved_sub m); [done| |done].
      intros p. unfold owned. by rewrite Hq, Hq1, Hths. }
    destruct t as [|fr| |fr| |]; try done.
    + unfold dequeue in Hstep.
      destruct (tasks_ (shared m)) as [|[c|] q] eqn:Hq; [done| |];
        inversion Hstep; subst m'.
      * by apply (Htake c q).
      * apply (Hempty q); try done. simpl.
        by apply (owned_idle m i WWait TDone).
    + inversion Hstep; subst m'. by eapply resolved_run_step.
    + unfold dequeue in Hstep.
      destruct (tasks_ (shared m)) as [|[c|] q] eqn:Hq;
        inversion Hstep; subst m'.
      * by apply (Hidle i DPump DCount).
      * by apply (Htake c q).
      * by apply (Hempty q).
    + inversion Hstep; subst m'. by eapply resolved_run_step.
    + inversion Hstep; subst m'.
      apply (Hidle i DCount
               (if decide (Z.of_nat (numThreads_ m) =
                           ((numDones m + 1) `mod` size_modulus)%Z)
                then DPump else TDone)); try done.
      by destruct (decide _).
Qed.


(** * Dispatch from other threads *)

(** ** The steps of an operation make up the operation *)

Lemma exec_more n k : ∀ pr s r,
  exec n pr s = Some r → exec (n + k) pr s = Some r.
Proof.
  induction n as [|n IH]; intros [r0|m] s r; simpl; try done.
  - by destruct k.
  - destruct (m s) as [[pr'|e] s']; [|done]. apply IH.
Qed.

Lemma exec_dispatch_steps n (task : option closure) pr s :
  exec (2 + n) (dispatch_steps task pr) s =
    match dispatch task s with
    | (Returned _, s') => exec n pr s'
    | (Raised e, s') => Some (Raised e, s')
    end.
Proof.
  unfold dispatch_steps, dispatch. simpl. unfold bind, ret.
  destruct (checkArgs task s) as [[[]|e] s1]; [|done]. simpl.
  unfold enqueue. done.
Qed.

Lemma exec_dispatch_R_steps n (task : option rfun)
    (k : nat → @prog World R E) s :
  exec (2 + n) (dispatch_R_steps task k) s =
    match dispatch_R task s with
    | (Returned p, s') => exec n (k p) s'
    | (Raised e, s') => Some (Raised e, s')
    end.
Proof.
  unfold dispatch_R_steps, dispatch_R. simpl. unfold bind, ret.
  destruct (checkArgs task s) as [[[]|e] s1]; [|done]. simpl.
  unfold make_promise, enqueue. done.
Qed.

Lemma exec_each_R n wrap (k : list nat → @prog World R E)
    (l : list (Task R)) :
  ∀ acc s,
  exec (2 * length l + n) (each_R wrap l acc k) s =
    match for_each (λ t, dispatch_R (wrap t)) l s with
    | (Returned ps, s') => exec n (k (acc ++ ps)) s'
    | (Raised e, s') => Some (Raised e, s')
    end.
Proof.
  induction l as [|t l IH]; intros acc s.
  - simpl. by rewrite app_nil_r.
  - replace (2 * length (t :: l) + n) with (2 + (2 * length l + n))
      by (simpl; lia).
    cbn [each_R for_each]. rewrite exec_dispatch_R_steps. unfold bind at 1.
    destruct (dispatch_R (wrap t) s) as [[p|e] s1]; [|done].
    rewrite IH. unfold bind, ret.
    destruct (for_each _ l s1) as [[ps|e] s2]; [|done].
    by rewrite <- app_assoc.
Qed.

Lemma exec_each_sync n cnt pr (l : list (Task ())) :
  ∀ s,
  exec (2 * length l + n) (each_sync cnt l pr) s =
    match for_each (λ t, dispatch (Some (CSync cnt t))) l s with
    | (Returned _, s') => exec n pr s'
    | (Raised e, s') => Some (Raised e, s')
    end.
Proof.
  induction l as [|t l IH]; intros s; [done|].
  replace (2 * length (t :: l) + n) with (2 + (2 * length l + n))
    by (simpl; lia).
  cbn [each_sync for_each]. rewrite exec_dispatch_steps. unfold bind at 1.
  destruct (dispatch _ s) as [[[]|e] s1]; [|done].
  rewrite IH. unfold bind, ret.
  by destruct (for_each _ l s1) as [[ps|e] s2].
Qed.

(** The steps of an operation, taken one after the other with no step of
    another thread in between, return what the operation returns when a
    client calls it in one move, and leave the pool's data as it does. *)
Lemma exec_op_prog (o : op) s :
  exec (op_fuel o) (op_prog o) s = Some (call_op o s).
Proof.
  destruct o as [t|t|ts|ts|ts|ts|ts|ts|fl t]; unfold op_fuel; simpl op_range;
    cbv iota beta.
  - change 2 with (2 + 0). simpl op_prog. rewrite exec_dispatch_steps.
    simpl. unfold bind. by destruct (dispatch _ s) as [[[]|e] s1].
  - change 2 with (2 + 0). simpl op_prog. rewrite exec_dispatch_R_steps.
    simpl. unfold bind. by destruct (dispatch_R _ s) as [[p|e] s1].
  - destruct ts as [|t ts]; [done|].
    simpl. unfold bind, ret.
    by destruct (checkArgs_range (t :: ts) s) as [[[]|e] s1].
  - destruct ts as [|t ts]; [done|].
    replace (3 + 2 * length (t :: ts)) with (S (2 * length (t :: ts) + 2))
      by lia.
    cbn [op_prog exec call_op dispatch_range_R]. unfold bind at 1 2 3, ret.
    destruct (checkArgs_range (t :: ts) s) as [[[]|e] s1]; [|done].
    rewrite exec_each_R.
    by destruct (for_each _ (t :: ts) s1) as [[ps|e] s2].
  - destruct ts as [|t ts]; [done|].
    replace (3 + 2 * length (t :: ts)) with (S (2 * length (t :: ts) + 2))
      by lia.
    cbn [op_prog exec call_op dispatchSync]. unfold bind at 1 2 3 4, ret.
    destruct (checkArgs_range (t :: ts) s) as [[[]|e] s1]; [|done].
    unfold make_count at 1 2. rewrite exec_each_sync. unfold bind.
    by destruct (for_each _ (t :: ts) _) as [[ps|e] s2].
  - destruct ts as [|t ts]; [done|].
    replace (3 + 2 * length (t :: ts)) with (S (2 * length (t :: ts) + 2))
      by lia.
    cbn [op_prog exec call_op dispatchSync_R]. unfold bind at 1 2 3, ret.
    destruct (checkArgs_range (t :: ts) s) as [[[]|e] s1]; [|done].
    rewrite exec_each_R. unfold bind.
    by destruct (for_each _ (t :: ts) s1) as [[ps|e] s2].
  - destruct ts as [|t ts]; [done|].
    replace (3 + 2 * length (t :: ts)) with (S (2 + 2 * length (t :: ts)))
      by lia.
    cbn [op_prog exec call_op dispatchSerial]. unfold bind at 1 2 3, ret.
    destruct (checkArgs_range (t :: ts) s) as [[[]|e] s1]; [|done].
    rewrite exec_dispatch_steps.
    destruct (dispatch _ s1) as [[[]|e] s2]; [|done]. by destruct (length ts).
  - destruct ts as [|t ts]; [done|].
    replace (3 + 2 * length (t :: ts)) with (S (2 + 2 * length (t :: ts)))
      by lia.
    cbn [op_prog exec call_op dispatchSerial_R]. unfold bind at 1 2 3 4, ret.
    destruct (checkArgs_range (t :: ts) s) as [[[]|e] s1]; [|done].
    unfold make_promises at 1 2. rewrite exec_dispatch_steps. unfold bind.
    destruct (dispatch _ _) as [[[]|e] s2]; [|done]. by destruct (length ts).
  - change 2 with (2 + 0). simpl op_prog. rewrite exec_dispatch_steps.
    simpl. unfold dispatchOnce, bind.
    by destruct (dispatch _ s) as [[[]|e] s1].
Qed.

(** ** What a step of an operation does *)

Lemma appends_refl s : appends s s.
Proof. exists []. simpl. by rewrite !app_nil_r. Qed.

Lemma appends_promises s ps : appends s (set_promises ps s).
Proof. exists []. simpl. by rewrite !app_nil_r. Qed.

Lemma appends_counts s cs : appends s (set_counts cs s).
Proof. exists []. simpl. by rewrite !app_nil_r. Qed.

Lemma appends_enqueue s c : appends s (enqueue (Some c) s).2.
Proof. by exists [c]. Qed.

Lemma appends_trans s1 s2 s3 : appends s1 s2 → appends s2 s3 → appends s1 s3.
Proof.
  intros (n1 & Hq1 & Ha1 & He1 & Hc1 & Hf1 & Hd1)
         (n2 & Hq2 & Ha2 & He2 & Hc2 & Hf2 & Hd2).
  exists (n1 ++ n2).
  rewrite Hq2, Ha2, He2, Hc2, Hf2, Hd2, Hq1, Ha1, fmap_app, !app_assoc.
  done.
Qed.

Lemma checkArgs_result {T} (task : option T) s :
  checkArgs task s = (Returned (), s) ∧ is_Some task ∧ destroyed_ s = false ∨
  (∃ e, checkArgs task s = (Raised e, s)).
Proof.
  unfold checkArgs. destruct (destroyed_ s); [right; by eauto|].
  destruct task; simpl; [left|right]; by eauto.
Qed.

Lemma checkArgs_range_result {T} (tasks : list (option T)) s :
  checkArgs_range tasks s = (Returned (), s) ∧ (None ∉ tasks) ∧
    destroyed_ s = false ∨
  (∃ e, checkArgs_range tasks s = (Raised e, s)).
Proof.
  unfold checkArgs_range. destruct (destroyed_ s); [right; by eauto|].
  destruct (forallb _ tasks) eqn:Hall; simpl; [left|right; by eauto].
  split; [done|]. split; [|done]. by apply all_valid_spec.
Qed.

Lemma sound_dispatch_steps (task : option closure) pr :
  sound pr → sound (dispatch_steps task pr).
Proof.
  intros Hpr. apply sound_step; unfold bind, ret.
  - intros s. destruct (checkArgs_result task s) as [(-> & _)|[e ->]];
      apply appends_refl.
  - intros s pr'.
    destruct (checkArgs_result task s) as [(-> & [c ->] & _)|[e ->]];
      [|done].
    simpl. intros [= <-]. apply sound_step; unfold bind, ret.
    + intros s1. apply appends_enqueue.
    + intros s1 pr1. simpl. by intros [= <-].
Qed.

Lemma sound_dispatch_R_steps (task : option rfun)
    (k : nat → @prog World R E) :
  (∀ p, sound (k p)) → sound (dispatch_R_steps task k).
Proof.
  intros Hk. apply sound_step; unfold bind, ret.
  - intros s. destruct (checkArgs_result task s) as [(-> & _)|[e ->]];
      [apply appends_promises|apply appends_refl].
  - intros s pr'.
    destruct (checkArgs_result task s) as [(-> & _)|[e ->]]; [|done].
    simpl. intros [= <-]. apply sound_step; unfold bind, ret.
    + intros s1. apply appends_enqueue.
    + intros s1 pr1. simpl. intros [= <-]. apply Hk.
Qed.

Lemma sound_each_R wrap (k : list nat → @prog World R E)
    (l : list (Task R)) :
  (∀ ps, sound (k ps)) → ∀ acc, sound (each_R wrap l acc k).
Proof.
  intros Hk. induction l as [|t l IH]; intros acc; simpl; [apply Hk|].
  apply sound_dispatch_R_steps. intros p. apply IH.
Qed.

Lemma sound_each_sync cnt pr (l : list (Task ())) :
  sound pr → sound (each_sync cnt l pr).
Proof.
  intros Hpr. induction l as [|t l IH]; simpl; [done|].
  by apply sound_dispatch_steps.
Qed.

(** A gate on a range, and what the thread does on its own after it. *)
Lemma sound_range_gate {T} (tasks : list (option T))
    (after_gate : M (@prog World R E)) :
  (∀ s, appends s (after_gate s).2) →
  (∀ s pr, None ∉ tasks → (after_gate s).1 = Returned pr → sound pr) →
  sound (PStep (bind (checkArgs_range tasks) (λ _, after_gate))).
Proof.
  intros Hkeep Hnext. apply sound_step; unfold bind.
  - intros s.
    destruct (checkArgs_range_result tasks s) as [(-> & _)|[e ->]];
      [apply Hkeep|apply appends_refl].
  - intros s pr.
    destruct (checkArgs_range_result tasks s) as [(-> & Hall & _)|[e ->]];
      [|done].
    by apply Hnext.
Qed.

Lemma sound_bulk (tasks : list (Task ())) :
  sound (PStep (bind (checkArgs_range tasks)
                  (λ _, ret (PStep
                     (bind (enqueue_bulk
                              ((λ t : Task (), @CUser World R E <$> t)
                                 <$> tasks))
                           (λ _, ret (PDone (Returned Void)))))))).
Proof.
  apply sound_range_gate; unfold bind, ret; cbn [fst snd].
  - intros s. apply appends_refl.
  - intros s pr Hall Heq. inversion Heq; subst pr; clear Heq.
    apply sound_step; unfold bind, ret.
    + intros s1. unfold enqueue_bulk.
      rewrite (valid_range_fmap _ Hall). cbn [fst snd].
      eexists. cbn [tasks_ accepted executed calls flags destroyed_
                    set_queue]. by rewrite omap_id_Some.
    + intros s1 pr1. cbn [fst snd]. intros [= <-]. apply sound_done.
Qed.

Lemma sound_op_prog (o : @op World R E) : sound (op_prog o).
Proof.
  destruct o as [t|t|ts|ts|ts|ts|ts|ts|fl t];
    try (destruct ts as [|t0 ts]; [apply sound_done|]); cbn [op_prog].
  - apply sound_dispatch_steps, sound_done.
  - apply sound_dispatch_R_steps. intros p. apply sound_done.
  - apply (sound_bulk (t0 :: ts)).
  - apply sound_range_gate; unfold bind, ret; cbn [fst snd].
    + intros s. apply appends_refl.
    + intros s pr _ [= <-]. apply sound_dispatch_R_steps. intros p.
      apply sound_each_R. intros ps. apply sound_done.
  - apply sound_range_gate; unfold bind, ret, make_count, make_promises;
      cbn [fst snd].
    + intros s. apply appends_counts.
    + intros s pr _ [= <-]. apply sound_dispatch_steps, sound_each_sync.
      apply sound_done.
  - apply sound_range_gate; unfold bind, ret; cbn [fst snd].
    + intros s. apply appends_refl.
    + intros s pr _ [= <-]. apply sound_dispatch_R_steps. intros p.
      apply sound_each_R. intros ps. apply sound_done.
  - apply sound_range_gate; unfold bind, ret; cbn [fst snd].
    + intros s. apply appends_refl.
    + intros s pr _ [= <-]. apply sound_dispatch_steps, sound_done.
  - apply sound_range_gate; unfold bind, ret, make_count, make_promises;
      cbn [fst snd].
    + intros s. apply appends_promises.
    + intros s pr _ [= <-]. apply sound_dispatch_steps, sound_done.
  - apply sound_dispatch_steps, sound_done.
Qed.

(** Every operation starts with a gate. *)
Lemma gated_op_prog (o : @op World R E) : gated (op_prog o).
Proof.
  assert (∀ T (task : option T) (k : M (@prog World R E)) s,
            destroyed_ s = true →
            ∃ e, bind (checkArgs task) (λ _, k) s = (Raised e, s)) as Hone.
  { intros T task k s Hd. unfold bind. rewrite checkArgs_destroyed by done.
    by eauto. }
  assert (∀ T (tasks : list (option T)) (k : M (@prog World R E)) s,
            destroyed_ s = true →
            ∃ e, bind (checkArgs_range tasks) (λ _, k) s = (Raised e, s))
    as Hrange.
  { intros T tasks k s Hd. unfold bind.
    rewrite checkArgs_range_destroyed by done. by eauto. }
  destruct o as [t|t|ts|ts|ts|ts|ts|ts|fl t]; simpl;
    try (destruct ts as [|t0 ts]; [done|]); simpl;
    intros s Hd; first [by apply Hone|by apply Hrange].
Qed.

(** ** The threads in the phases of the destructor *)

(** What a step of a thread does to the thread: it stays a drainer if it
    was one, and nothing else moves. *)
Lemma thread_step_shape i m m' :
  thread_step i m = Some m' →
  main m' = main m ∧ numThreads_ m' = numThreads_ m ∧
  ∃ t, threads_ m !! i = Some t ∧ t ≠ TDone ∧
       (threads_ m' = threads_ m ∧ is_Some (terminated m') ∨
        ∃ t', threads_ m' = <[i:=t']> (threads_ m) ∧
              terminated m' = terminated m ∧
              (is_drainer t → is_drainer t')).
Proof.
  unfold thread_step. intros Hstep.
  assert (∀ fr resume running t0,
    threads_ m !! i = Some t0 → t0 ≠ TDone →
    (is_drainer t0 → is_drainer resume ∧ ∀ fr', is_drainer (running fr')) →
    let m1 := run_step i fr resume running m in
    main m1 = main m ∧ numThreads_ m1 = numThreads_ m ∧
    ∃ t, threads_ m !! i = Some t ∧ t ≠ TDone ∧
         (threads_ m1 = threads_ m ∧ is_Some (terminated m1) ∨
          ∃ t', threads_ m1 = <[i:=t']> (threads_ m) ∧
                terminated m1 = terminated m ∧
                (is_drainer t → is_drainer t'))) as Hrun.
  { intros fr resume running t0 Hi Ht Hres. unfold run_step.
    destruct (frame_step i fr (shared m)) as [[[fr'|]|e] s']; simpl;
      (split; [done|]); (split; [done|]); exists t0;
      (split; [done|]); (split; [done|]).
    - right. exists (running fr'). split; [done|]. split; [done|].
      intros Hd. by apply Hres.
    - right. exists resume. split; [done|]. split; [done|].
      intros Hd. by apply Hres.
    - left. by eauto. }
  destruct (threads_ m !! i) as [t|] eqn:Hi; [|done].
  destruct t as [|fr| |fr| |]; try done.
  - destruct (dequeue (shared m)) as [[[c|] s']|]; [| |done];
      inversion Hstep; subst m'; simpl;
      (split; [done|]); (split; [done|]); exists WWait;
      (split; [done|]); (split; [done|]); right; by eauto.
  - inversion Hstep; subst m'. by apply (Hrun fr WWait WRun (WRun fr)).
  - destruct (dequeue (shared m)) as [[[c|] s']|];
      inversion Hstep; subst m'; simpl;
      (split; [done|]); (split; [done|]); exists DPump;
      (split; [done|]); (split; [done|]).
    + right. exists (DRun (FTarget c)). by auto.
    + left. by eauto.
    + right. exists DCount. by auto.
  - inversion Hstep; subst m'. by apply (Hrun fr DPump DRun (DRun fr)).
  - inversion Hstep; subst m'. simpl.
    (split; [done|]); (split; [done|]); exists DCount;
      (split; [done|]); (split; [done|]). right.
    eexists. split; [done|]. split; [done|]. intros _.
    by destruct (decide _).
Qed.

Lemma joined_step mv m m' : joined m → step mv m = Some m' → joined m'.
Proof.
  intros Hj Hstep. unfold step in Hstep. destruct (terminated m); [done|].
  destruct mv as [o| | |i].
  - unfold client_step in Hstep. destruct (main m); try done.
    destruct (call_op o (shared m)) as [r s'].
    inversion Hstep; subst m'. unfold joined. simpl.
    by destruct r as [[]|].
  - unfold destroy_step in Hstep. destruct (main m); try done.
    by inversion Hstep; subst m'.
  - unfold main_step in Hstep. unfold joined in *.
    destruct (main m) as [|cnt|ps rs|k|k|k|k|] eqn:Hpc; try done.
    + destruct (decide _); [|done]. by inversion Hstep; subst m'.
    + destruct ps as [|p ps]; [by inversion Hstep; subst m'|].
      destruct (promises (shared m) !! p) as [[|v|e]|]; try done;
        by inversion Hstep; subst m'.
    + destruct (decide _); inversion Hstep; subst m'; simpl; [done|].
      intros j t Hlt. lia.
    + destruct (threads_ m !! k) as [[]|] eqn:Hk; try done;
        inversion Hstep; subst m'; simpl.
      * intros j t Hlt Hjt. destruct (decide (j = k)) as [->|Hne].
        { congruence. }
        apply (Hj j t); [lia|done].
      * intros j t _ Hjt. apply (Hj j t); [|done].
        apply lookup_lt_Some in Hjt. apply lookup_ge_None in Hk. lia.
    + destruct (threads_ m !! k) as [t0|] eqn:Hk; inversion Hstep; subst m'; simpl;
        [|done].
      intros j t Hlt Hjt.
      rewrite list_lookup_insert_ne in Hjt by lia.
      apply (Hj j t); [lia|done].
    + destruct (threads_ m !! k) as [[]|]; try done;
        by inversion Hstep; subst m'.
  - apply thread_step_shape in Hstep
      as (Hpc & _ & t & Hi & Ht & [[Hths _]|(t' & Hths & _)]).
    + unfold joined in *. by rewrite Hpc, Hths.
    + by eapply joined_thread.
Qed.

Lemma draining_step mv m m' :
  draining m → step mv m = Some m' → draining m'.
Proof.
  intros Hd Hstep. unfold step in Hstep. destruct (terminated m); [done|].
  destruct mv as [o| | |i].
  - unfold client_step in Hstep. destruct (main m); try done.
    destruct (call_op o (shared m)) as [r s'].
    inversion Hstep; subst m'. unfold draining. simpl.
    by destruct r as [[]|].
  - unfold destroy_step in Hstep. destruct (main m); try done.
    by inversion Hstep; subst m'.
  - unfold main_step in Hstep. unfold draining in *.
    destruct (main m) as [|cnt|ps rs|k|k|k|k|] eqn:Hpc; try done.
    + destruct (decide _); [|done]. by inversion Hstep; subst m'.
    + destruct ps as [|p ps]; [by inversion Hstep; subst m'|].
      destruct (promises (shared m) !! p) as [[|v|e]|]; try done;
        by inversion Hstep; subst m'.
    + destruct (decide _); by inversion Hstep; subst m'.
    + destruct (threads_ m !! k) as [[]|] eqn:Hk; try done;
        inversion Hstep; subst m'; simpl; [done|].
      intros j t _ Hlt. lia.
    + destruct (threads_ m !! k) as [t0|] eqn:Hk; inversion Hstep; subst m'; simpl.
      * intros j t Hjt Hlt. destruct (decide (j = k)) as [->|Hne].
        { rewrite list_lookup_insert_eq in Hjt
            by (by eapply lookup_lt_Some).
          by inversion Hjt. }
        rewrite list_lookup_insert_ne in Hjt by done.
        apply (Hd j t); [done|lia].
      * intros j t Hjt. split; [|lia]. apply (Hd j t); [done|].
        apply lookup_lt_Some in Hjt. apply lookup_ge_None in Hk. lia.
    + destruct (threads_ m !! k) as [[]|] eqn:Hk; try done;
        inversion Hstep; subst m'; simpl.
      * intros j t Hjt. split; [by apply (Hd j t)|].
        intros Hlt. destruct (decide (j = k)) as [->|Hne]; [congruence|].
        apply (Hd j t); [done|lia].
      * intros j t Hjt. apply (Hd j t); [done|].
        apply lookup_lt_Some in Hjt. apply lookup_ge_None in Hk. lia.
  - apply thread_step_shape in Hstep
      as (Hpc & _ & t & Hi & Ht & [[Hths _]|(t' & Hths & _ & Hdr)]).
    + unfold draining in *. by rewrite Hpc, Hths.
    + unfold draining in *. rewrite Hpc, Hths.
      destruct (main m) as [|cnt|ps rs|k|k|k|k|]; try done.
      * intros j x Hjx Hlt. destruct (decide (j = i)) as [->|Hne].
        { rewrite list_lookup_insert_eq in Hjx
            by (by eapply lookup_lt_Some).
          inversion Hjx; subst x. apply Hdr. by apply (Hd i t). }
        rewrite list_lookup_insert_ne in Hjx by done. by apply (Hd j x).
      * intros j x Hjx. destruct (decide (j = i)) as [->|Hne].
        { rewrite list_lookup_insert_eq in Hjx
            by (by eapply lookup_lt_Some).
          inversion Hjx; subst x. destruct (Hd i t Hi) as [Hdt Hdone].
          split; [by apply Hdr|]. intros Hlt. by destruct Ht; apply Hdone. }
        rewrite list_lookup_insert_ne in Hjx by done. by apply (Hd j x).
      * by destruct Ht; apply (Hd i t).
Qed.

(** The destructor does not return after [std::terminate]. *)
Lemma finished_step mv m m' :
  draining m → (main m = MFinished → terminated m = None) →
  step mv m = Some m' →
  main m' = MFinished → terminated m' = None.
Proof.
  intros Hd Hinv Hstep Hfin. unfold step in Hstep.
  destruct (terminated m) eqn:Hterm; [done|].
  destruct mv as [o| | |i].
  - unfold client_step in Hstep. destruct (main m); try done.
    destruct (call_op o (shared m)) as [r s'].
    by inversion Hstep; subst m'.
  - unfold destroy_step in Hstep. destruct (main m); try done.
    by inversion Hstep; subst m'.
  - unfold main_step in Hstep.
    destruct (main m) as [|cnt|ps rs|k|k|k|k|] eqn:Hpc; try done.
    + destruct (decide _); [|done]. by inversion Hstep; subst m'.
    + destruct ps as [|p ps]; [by inversion Hstep; subst m'|].
      destruct (promises (shared m) !! p) as [[|v|e]|]; try done;
        by inversion Hstep; subst m'.
    + destruct (decide _); by inversion Hstep; subst m'.
    + destruct (threads_ m !! k) as [[]|]; try done;
        by inversion Hstep; subst m'.
    + destruct (threads_ m !! k); by inversion Hstep; subst m'.
    + destruct (threads_ m !! k) as [[]|]; try done;
        by inversion Hstep; subst m'.
  - apply thread_step_shape in Hstep as (Hpc & _ & t & Hi & Ht & _).
    rewrite Hpc in Hfin. unfold draining in Hd. rewrite Hfin in Hd.
    by destruct Ht; apply (Hd i t).
Qed.

(** ** The calls a task makes *)

Lemma invoke_calls {A} tid mk (t : Task A) s :
  match t with
  | None => invoke tid mk t s = (Raised bad_function_call, s)
  | Some f =>
      calls (invoke tid mk t s).2 = calls s ++ [(tid, mk f)] ∧
      flags (invoke tid mk t s).2 = flags s
  end.
Proof.
  unfold invoke. destruct t as [f|]; [|done]. by destruct (f (world s)).
Qed.

Lemma satisfy_calls p (v : slot E R) s :
  calls (satisfy p v s).2 = calls s ∧ flags (satisfy p v s).2 = flags s.
Proof. unfold satisfy. by destruct (promises s !! p) as [[| |]|]. Qed.

Lemma fulfil_calls p (o : outcome E R) s :
  calls (fulfil p o s).2 = calls s ∧ flags (fulfil p o s).2 = flags s.
Proof.
  destruct o as [v|e]; simpl; [|apply satisfy_calls].
  unfold try_catch.
  pose proof (satisfy_calls p (Value v) s) as [H1 H2].
  destruct (satisfy p (Value v) s) as [[[]|e] s1]; [done|].
  simpl in H1, H2. rewrite <- H1, <- H2. apply satisfy_calls.
Qed.

(** A step inside a task that returns: the calls it makes are the next of
    those the task has to make; the wrapper of [dispatchOnce] calls its
    task and sets the flag, or finds the flag set and calls nothing. *)
Lemma frame_step_calls tid fr s r s' :
  frame_step tid fr s = (Returned r, s') →
  (∀ c, r ≠ Some (FTarget c)) ∧
  match fr with
  | FTarget (COnce fl task) =>
      r = None ∧
      (fl ∈ flags s ∧ calls s' = calls s ∧ flags s' = flags s ∨
       (fl ∉ flags s) ∧ ∃ f, task = Some f ∧
         calls s' = calls s ++ [(tid, call_void f)] ∧
         flags s' = fl :: flags s)
  | _ =>
      ∃ made, (calls s').*2 = (calls s).*2 ++ made ∧
              to_call fr = made ++ from_option to_call [] r ∧
              flags s' = flags s
  end.
Proof.
  assert (∀ (t : Task ()) (k : option (@frame World R E)) r s',
    bind (invoke tid call_void t) (λ _, ret k) s = (Returned r, s') →
    r = k ∧ ∃ f, t = Some f ∧ calls s' = calls s ++ [(tid, call_void f)] ∧
                 flags s' = flags s) as Hvoid.
  { intros t k r0 s0. unfold bind, ret.
    pose proof (invoke_calls tid call_void t s) as Hi.
    destruct t as [f|]; [|by rewrite Hi].
    destruct (invoke tid call_void (Some f) s) as [[[]|e] s1]; [|done].
    intros [= <- <-]. by eauto. }
  assert (∀ (t : Task R) (k : outcome E R → option (@frame World R E)) r s',
    bind (attempt (invoke tid call_R t)) (λ o, ret (k o)) s
      = (Returned r, s') →
    (∃ o, r = k o) ∧
    (calls s').*2 = (calls s).*2 ++ (call_R <$> option_list t) ∧
    flags s' = flags s) as Hres.
  { intros t k r0 s0. unfold bind, ret, attempt.
    pose proof (invoke_calls tid call_R t s) as Hi.
    destruct t as [f|].
    - destruct (invoke tid call_R (Some f) s) as [o s1].
      intros [= <- <-]. destruct Hi as [Hc Hf]. simpl in Hc, Hf.
      rewrite Hc, fmap_app. by eauto.
    - rewrite Hi. intros [= <- <-]. simpl. rewrite app_nil_r. by eauto. }
  destruct fr as [[g|p t|cnt t|ts|b ts|fl t]|p o|cnt|ts|b i ts|b i o ts];
    cbn [frame_step]; intros Hstep.
  - apply Hvoid in Hstep as (-> & f & [= <-] & Hc & Hf).
    split; [done|]. exists [call_void g]. by rewrite Hc, fmap_app.
  - assert (∃ o, r = Some (FPromiseSet p o) ∧
              (calls s').*2 = (calls s).*2 ++ rfun_call t ∧
              flags s' = flags s) as (o & -> & Hc & Hf).
    { destruct t as [[f|t]|]; cbn [invoke_rfun] in Hstep.
      - apply (Hres (Some f) (λ o, Some (FPromiseSet p o))) in Hstep
          as ([o ->] & Hc & Hf). by eauto.
      - apply (Hres t (λ o, Some (FPromiseSet p o))) in Hstep
          as ([o ->] & Hc & Hf). exists o. by destruct t.
      - unfold bind, attempt, throw, ret in Hstep.
        inversion Hstep; subst. simpl. rewrite app_nil_r. by eauto. }
    split; [done|]. exists (rfun_call t). simpl. by rewrite app_nil_r.
  - apply Hvoid in Hstep as (-> & f & -> & Hc & Hf).
    split; [done|]. exists [call_void f]. by rewrite Hc, fmap_app.
  - destruct ts as [|t ts]; cbn [serial_step] in Hstep.
    + inversion Hstep; subst. split; [done|]. exists []. simpl.
      by rewrite app_nil_r.
    + apply Hvoid in Hstep as (-> & f & -> & Hc & Hf).
      split; [done|]. exists [call_void f]. by rewrite Hc, fmap_app.
  - destruct ts as [|t ts]; cbn [serialR_step] in Hstep.
    + inversion Hstep; subst. split; [done|]. exists []. simpl.
      by rewrite app_nil_r.
    + apply (Hres t (λ o, Some (FSerialRSet b 0 o ts))) in Hstep
        as ([o ->] & Hc & Hf).
      split; [done|]. exists (call_R <$> option_list t).
      split; [done|]. split; [|done]. by destruct t.
  - unfold call_once, bind, ret in Hstep.
    destruct (bool_decide (fl ∈ flags s)) eqn:Hfl.
    + apply bool_decide_eq_true in Hfl. inversion Hstep; subst.
      split; [done|]. split; [done|]. left. by auto.
    + apply bool_decide_eq_false in Hfl.
      pose proof (invoke_calls tid call_void t s) as Hi.
      destruct t as [f|]; [|by (done || (simpl in Hstep; done))].
      destruct (invoke tid call_void (Some f) s) as [[[]|e] s1]; [|done].
      destruct Hi as [Hc Hf]. inversion Hstep; subst. simpl in *.
      split; [done|]. split; [done|]. right. split; [done|].
      exists f. rewrite Hf. by auto.
  - unfold bind, ret in Hstep.
    pose proof (fulfil_calls p o s) as [Hc Hf].
    destruct (fulfil p o s) as [[[]|e] s1]; [|done].
    inversion Hstep; subst. split; [done|]. exists []. simpl in *.
    by rewrite Hc, app_nil_r.
  - inversion Hstep; subst. split; [done|]. exists []. simpl.
    by rewrite app_nil_r.
  - destruct ts as [|t ts]; cbn [serial_step] in Hstep.
    + inversion Hstep; subst. split; [done|]. exists []. simpl.
      by rewrite app_nil_r.
    + apply Hvoid in Hstep as (-> & f & -> & Hc & Hf).
      split; [done|]. exists [call_void f]. by rewrite Hc, fmap_app.
  - destruct ts as [|t ts]; cbn [serialR_step] in Hstep.
    + inversion Hstep; subst. split; [done|]. exists []. simpl.
      by rewrite app_nil_r.
    + apply (Hres t (λ o, Some (FSerialRSet b i o ts))) in Hstep
        as ([o ->] & Hc & Hf).
      split; [done|]. exists (call_R <$> option_list t).
      split; [done|]. split; [|done]. by destruct t.
  - unfold bind, ret in Hstep.
    pose proof (fulfil_calls (b + i) o s) as [Hc Hf].
    destruct (fulfil (b + i) o s) as [[[]|e] s1]; [|done].
    inversion Hstep; subst. split; [done|]. exists []. simpl in *.
    by rewrite Hc, app_nil_r.
Qed.

(** ** The account of the calls *)

(** The account is about the calls, the tasks taken, the flags and the
    threads. *)
Lemma calls_ok_same m m' :
  calls_ok m →
  calls (shared m') = calls (shared m) →
  executed (shared m') = executed (shared m) →
  flags (shared m') = flags (shared m) →
  threads_ m' = threads_ m →
  calls_ok m'.
Proof.
  unfold calls_ok. intros (winners & Hinv) Hc He Hf Hths.
  exists winners. by rewrite Hc, He, Hf, Hths.
Qed.

(** Thread [i] goes from [t] to [t']: it has made the calls [made], taken
    the tasks [taken] from the queue, and set the flags of [won]. *)
Lemma calls_ok_change m m' i t t' made taken
    (won : list (nat * callable ())) :
  calls_ok m →
  threads_ m !! i = Some t →
  threads_ m' = <[i:=t']> (threads_ m) →
  (calls (shared m')).*2 = (calls (shared m)).*2 ++ made →
  executed (shared m') = executed (shared m) ++ taken →
  flags (shared m') = won.*1 ++ flags (shared m) →
  NoDup (won.*1 ++ flags (shared m)) →
  made ++ to_call_thread t' ≡ₚ
    to_call_thread t ++ (taken ≫= called_by)
      ++ ((λ x, call_void x.2) <$> won) →
  (once_wrapper <$> won) ++ at_once t' ⊆+ at_once t ++ taken →
  calls_ok m'.
Proof.
  unfold calls_ok.
  intros (winners & HA & HB & HC & HD) Hi Hths Hc He Hf Hnd Hmade Hwon.
  exists (won ++ winners). rewrite Hths, Hc, He, Hf.
  pose proof (bind_insert_perm to_call_thread _ i t t' Hi) as Hp1.
  pose proof (bind_insert_perm at_once _ i t t' Hi) as Hp2.
  rewrite bind_app, !fmap_app.
  set (C := (calls (shared m)).*2) in *.
  set (X := threads_ m ≫= to_call_thread) in *.
  set (X' := <[i:=t']> (threads_ m) ≫= to_call_thread) in *.
  set (Y := threads_ m ≫= at_once) in *.
  set (Y' := <[i:=t']> (threads_ m) ≫= at_once) in *.
  set (EB := executed (shared m) ≫= called_by) in *.
  set (WB := (λ x : nat * callable (), call_void x.2) <$> winners) in *.
  set (TB := taken ≫= called_by) in *.
  set (VB := (λ x : nat * callable (), call_void x.2) <$> won) in *.
  set (T := to_call_thread t) in *. set (T' := to_call_thread t') in *.
  set (A := at_once t) in *. set (A' := at_once t') in *.
  set (OW := once_wrapper <$> winners) in *.
  set (OV := once_wrapper <$> won) in *.
  set (EX := executed (shared m)) in *.
  split; [|split; [|split; [|done]]].
  - apply (Permutation_app_inv_r T).
    transitivity (C ++ made ++ (X' ++ T)); [solve_Permutation|].
    rewrite Hp1.
    transitivity ((C ++ X) ++ (made ++ T')); [solve_Permutation|].
    rewrite HA, Hmade. solve_Permutation.
  - apply (submseteq_app_inv_r _ _ A).
    transitivity (OV ++ OW ++ (Y' ++ A)); [solve_submseteq|].
    rewrite Hp2.
    transitivity ((OW ++ Y) ++ (OV ++ A')); [solve_submseteq|].
    etrans; [apply submseteq_app; [exact HB|exact Hwon]|].
    solve_submseteq.
  - by rewrite HC.
Qed.

(** What the steps of an operation have done when it returns. *)
Lemma exec_appends n : ∀ pr s r s',
  sound pr → exec n pr s = Some (r, s') → appends s s'.
Proof.
  induction n as [|n IH]; intros [r0|m0] s r s' Hpr Hexec;
    simpl in Hexec; try done.
  - inversion Hexec; subst. apply appends_refl.
  - inversion Hexec; subst. apply appends_refl.
  - inversion Hpr as [|? Hkeep Hnext]; subst.
    specialize (Hkeep s). specialize (Hnext s).
    destruct (m0 s) as [[pr'|e] s1]; simpl in *.
    + eapply appends_trans; [exact Hkeep|].
      eapply IH; [|exact Hexec]. by apply Hnext.
    + by inversion Hexec; subst.
Qed.

Lemma call_op_appends (o : @op World R E) s : appends s (call_op o s).2.
Proof.
  pose proof (exec_op_prog o s) as Hexec.
  destruct (call_op o s) as [r s'].
  by apply (exec_appends _ _ _ _ _ (sound_op_prog o) Hexec).
Qed.

Lemma calls_ok_step mv m m' :
  joined m → calls_ok m → step mv m = Some m' → terminated m' = None →
  calls_ok m'.
Proof.
  intros Hj Hok Hstep Hterm. unfold step in Hstep.
  destruct (terminated m); [done|].
  destruct mv as [o| | |i].
  - unfold client_step in Hstep. destruct (main m); try done.
    destruct (call_op_appends o (shared m))
      as (new & _ & _ & He & Hc & Hf & _).
    destruct (call_op o (shared m)) as [r s'].
    inversion Hstep; subst m'. by apply (calls_ok_same m).
  - unfold destroy_step in Hstep. destruct (main m); try done.
    inversion Hstep; subst m'. by apply (calls_ok_same m).
  - unfold main_step in Hstep.
    destruct (main m) as [|cnt|ps rs|k|k|k|k|] eqn:Hpc; try done.
    + destruct (decide _); [|done]. inversion Hstep; subst m'.
      by apply (calls_ok_same m).
    + destruct ps as [|p ps];
        [inversion Hstep; subst m'; by apply (calls_ok_same m)|].
      destruct (promises (shared m) !! p) as [[|v|e]|]; try done;
        inversion Hstep; subst m'; by apply (calls_ok_same m).
    + destruct (decide _); inversion Hstep; subst m';
        by apply (calls_ok_same m).
    + destruct (threads_ m !! k) as [[]|]; try done;
        inversion Hstep; subst m'; by apply (calls_ok_same m).
    + destruct (threads_ m !! k) as [t0|] eqn:Hk; inversion Hstep; subst m';
        [|by apply (calls_ok_same m)].
      assert (t0 = TDone) as ->.
      { unfold joined in Hj. rewrite Hpc in Hj. by apply (Hj k). }
      apply (calls_ok_change m _ k TDone DPump [] [] []); simpl;
        rewrite ?app_nil_r; try done.
      by destruct Hok as (? & _ & _ & _ & ?).
    + destruct (threads_ m !! k) as [[]|]; try done;
        inversion Hstep; subst m'; by apply (calls_ok_same m).
  - assert (NoDup (flags (shared m))) as Hnd
      by by destruct Hok as (? & _ & _ & _ & ?).
    assert (∀ fr t resume running,
      threads_ m !! i = Some t →
      to_call_thread t = to_call fr →
      at_once t = at_once (WRun fr) →
      to_call_thread resume = [] → at_once resume = [] →
      (∀ fr', to_call_thread (running fr') = to_call fr') →
      (∀ fr', (∀ c, fr' ≠ FTarget c) → at_once (running fr') = []) →
      terminated (run_step i fr resume running m) = None →
      calls_ok (run_step i fr resume running m)) as Hrun.
    { intros fr t resume running Hi Htc Hao Hres1 Hres2 Hrun1 Hrun2.
      unfold run_step.
      destruct (frame_step i fr (shared m)) as [[r|e] s'] eqn:Hfr; [|done].
      pose proof (frame_step_same_queue i fr (shared m)) as (_ & _ & He & _).
      rewrite Hfr in He. simpl in He.
      apply frame_step_calls in Hfr as [Hnot Hfr].
      assert (∀ made,
        (calls s').*2 = (calls (shared m)).*2 ++ made →
        to_call fr = made ++ from_option to_call [] r →
        flags s' = flags (shared m) →
        at_once t = [] ∨ r = None →
        calls_ok match r with
                 | Some f' => set_thread i (running f') (set_shared s' m)
                 | None => set_thread i resume (set_shared s' m)
                 end) as Hplain.
      { intros made Hc Hto Hf Hat.
        apply (calls_ok_change m _ i t
                 match r with Some f' => running f' | None => resume end
                 made [] []); try done.
        - by destruct r.
        - by destruct r.
        - by destruct r; simpl; rewrite He, app_nil_r.
        - by destruct r.
        - simpl. rewrite !app_nil_r, Htc, Hto.
          destruct r as [fr'|]; simpl; [by rewrite Hrun1|by rewrite Hres1].
        - simpl. destruct r as [fr'|]; simpl;
            [|rewrite Hres2; apply submseteq_nil_l].
          rewrite Hrun2; [apply submseteq_nil_l|].
          intros c ->. by apply (Hnot c). }
      intros _.
      destruct fr as [[g|p t0|cnt t0|ts|b ts|fl t0]|p o|cnt|ts|b k ts|b k o ts];
        try (destruct Hfr as (made & Hc & Hto & Hf);
             by apply (Hplain made); auto).
      destruct Hfr as (-> & [(Hin & Hc & Hf)|(Hnin & f & -> & Hc & Hf)]).
      - apply (Hplain []); rewrite ?Hc, ?app_nil_r; by auto.
      - apply (calls_ok_change m _ i t resume [call_void f] []
                 [(fl, f)]); simpl; try done.
        + by rewrite Hc, fmap_app.
        + by rewrite He, app_nil_r.
        + by apply NoDup_cons.
        + by rewrite Hres1, Htc.
        + by rewrite Hres2, Hao, !app_nil_r. }
    unfold thread_step in Hstep.
    destruct (threads_ m !! i) as [t|] eqn:Hi; [|done].
    destruct t as [|fr| |fr| |]; try done.
    + unfold dequeue in Hstep.
      destruct (tasks_ (shared m)) as [|[c|] q]; [done| |];
        inversion Hstep; subst m'.
      * apply (calls_ok_change m _ i WWait (WRun (FTarget c)) [] [c] []);
          simpl; rewrite ?app_nil_r; try done.
        by destruct c; simpl; try apply submseteq_nil_l.
      * apply (calls_ok_change m _ i WWait TDone [] [] []);
          simpl; rewrite ?app_nil_r; try done.
    + inversion Hstep; subst m'. apply (Hrun fr (WRun fr)); try done.
      intros [cn| | | | |] Hne; try done. by destruct (Hne cn).
    + unfold dequeue in Hstep.
      destruct (tasks_ (shared m)) as [|[c|] q];
        inversion Hstep; subst m'; [| |done].
      * apply (calls_ok_change m _ i DPump DCount [] [] []);
          simpl; rewrite ?app_nil_r; try done.
      * apply (calls_ok_change m _ i DPump (DRun (FTarget c)) [] [c] []);
          simpl; rewrite ?app_nil_r; try done.
        by destruct c; simpl; try apply submseteq_nil_l.
    + inversion Hstep; subst m'. apply (Hrun fr (DRun fr)); try done.
      intros [cn| | | | |] Hne; try done. by destruct (Hne cn).
    + inversion Hstep; subst m'.
      apply (calls_ok_change m _ i DCount
               (if decide (Z.of_nat (numThreads_ m)
                           = ((numDones m + 1) `mod` size_modulus)%Z)
                then DPump else TDone) [] [] []);
        simpl; rewrite ?app_nil_r; try done;
        by destruct (decide _).
Qed.

(** ** The queue once the drainers have started *)

(** A thread that is not a drainer is met only before the drainers
    start. *)
Lemma worker_before_drain m i t :
  joined m → draining m → threads_ m !! i = Some t → is_drainer t = false →
  before_drain (main m) = true.
Proof.
  unfold joined, draining. intros Hj Hd Hi Ht.
  destruct (main m) as [|cnt|ps rs|k|k|k|k|]; try done.
  - destruct (decide (i < k)) as [Hlt|Hge].
    + specialize (Hd i t Hi Hlt). by rewrite Ht in Hd.
    + rewrite (Hj i t) in Ht; [done|lia|done].
  - destruct (Hd i t Hi) as [Hdr _]. by rewrite Ht in Hdr.
  - by rewrite (Hd i t Hi) in Ht.
Qed.

Lemma emptied_before m : before_drain (main m) = true → emptied m.
Proof.
  unfold emptied. intros Hb j t _ Hdr. by destruct (main m).
Qed.

Lemma emptied_insert m m' i t t' :
  emptied m → threads_ m !! i = Some t →
  main m' = main m → threads_ m' = <[i:=t']> (threads_ m) →
  (drained (main m) i t' →
   drained (main m) i t ∨ tasks_ (shared m') = []) →
  (tasks_ (shared m) = [] → tasks_ (shared m') = []) →
  emptied m'.
Proof.
  unfold emptied. intros He Hi Hpc Hths Hdr Hq j x Hjx Hx.
  rewrite Hpc in Hx. rewrite Hths in Hjx.
  destruct (decide (j = i)) as [->|Hne].
  - rewrite list_lookup_insert_eq in Hjx by (by eapply lookup_lt_Some).
    inversion Hjx; subst x.
    destruct (Hdr Hx) as [Ht|Hnil]; [|done]. apply Hq. by eapply He.
  - rewrite list_lookup_insert_ne in Hjx by done. apply Hq. by eapply He.
Qed.

(** With no dispatch under way, a queue that a drainer has found empty
    stays empty. *)
Lemma emptied_step mv m m' :
  in_destructor (main m) = true → joined m → draining m → emptied m →
  step mv m = Some m' → emptied m'.
Proof.
  intros Hin Hj Hd He Hstep. unfold step in Hstep.
  destruct (terminated m); [done|].
  destruct mv as [o| | |i].
  - unfold client_step in Hstep. by destruct (main m).
  - unfold destroy_step in Hstep. by destruct (main m).
  - unfold main_step in Hstep. unfold emptied in *.
    destruct (main m) as [|cnt|ps rs|k|k|k|k|] eqn:Hpc; try done.
    + destruct (decide _); by inversion Hstep; subst m'.
    + destruct (threads_ m !! k) as [[]|] eqn:Hk; try done;
        inversion Hstep; subst m'; simpl; [done|].
      intros j t _ [Hlt _]. lia.
    + destruct (threads_ m !! k) as [t0|] eqn:Hk;
        inversion Hstep; subst m'; simpl.
      * intros j t Hjt [Hlt Hsaw]. destruct (decide (j = k)) as [->|Hne].
        { rewrite list_lookup_insert_eq in Hjt
            by (by eapply lookup_lt_Some).
          by inversion Hjt; subst t. }
        rewrite list_lookup_insert_ne in Hjt by done.
        apply (He j t Hjt). split; [lia|done].
      * intros j t Hjt Hsaw. apply (He j t Hjt). split; [|done].
        apply lookup_lt_Some in Hjt. apply lookup_ge_None in Hk. lia.
    + destruct (threads_ m !! k) as [[]|] eqn:Hk; try done;
        inversion Hstep; subst m'; simpl.
      * intros j t Hjt Hsaw. by apply (He j t Hjt).
      * intros j t Hjt _. apply (He j t Hjt).
        unfold draining in Hd. rewrite Hpc in Hd.
        destruct (Hd j t Hjt) as [_ Hdone]. rewrite Hdone; [done|].
        apply lookup_lt_Some in Hjt. apply lookup_ge_None in Hk. lia.
  - pose proof Hstep as Hshape.
    apply thread_step_shape in Hshape as (Hpc & _ & t & Hi & Ht & _).
    destruct (before_drain (main m)) eqn:Hb.
    { apply emptied_before. by rewrite Hpc. }
    assert (is_drainer t = true) as Hdr.
    { destruct (is_drainer t) eqn:Hdr; [done|].
      by rewrite (worker_before_drain m i t) in Hb. }
    assert (main m ≠ MFinished) as Hfin.
    { intros Hfin. unfold draining in Hd. rewrite Hfin in Hd.
      by destruct Ht; apply (Hd i t). }
    assert (drained (main m) i t → saw_empty t) as Hsaw.
    { by destruct (main m) as [|cnt|ps rs|k|k|k|k|]; try done; intros []. }
    assert (∀ m1, main m1 = main m → threads_ m1 = threads_ m →
                  tasks_ (shared m1) = tasks_ (shared m) → emptied m1)
      as Hsame.
    { unfold emptied. intros m1 -> -> ->. done. }
    assert (∀ m1 hd, main m1 = main m → threads_ m1 = threads_ m →
                     tasks_ (shared m) = hd :: tasks_ (shared m1) →
                     emptied m1) as Hless.
    { unfold emptied. intros m1 hd Hpc1 Hths1 Hq j x Hjx Hx.
      rewrite Hpc1 in Hx. rewrite Hths1 in Hjx.
      by rewrite (He j x Hjx Hx) in Hq. }
    unfold thread_step in Hstep. rewrite Hi in Hstep.
    destruct t as [|fr| |fr| |]; try done.
    + unfold dequeue in Hstep.
      destruct (tasks_ (shared m)) as [|[c|] q] eqn:Hq;
        inversion Hstep; subst m'.
      * apply (emptied_insert m _ i DPump DCount); try done.
        intros _. by right.
      * apply (emptied_insert m _ i DPump (DRun (FTarget c))); try done.
        -- intros Hx. by apply Hsaw in Hx.
        -- by rewrite Hq.
      * by apply (Hless _ None).
    + inversion Hstep; subst m'. unfold run_step.
      pose proof (frame_step_same_queue i fr (shared m)) as (Hq & _).
      destruct (frame_step i fr (shared m)) as [[[fr'|]|e] s'];
        simpl in Hq.
      * apply (emptied_insert m _ i (DRun fr) (DRun fr')); try done.
        -- intros Hx. by apply Hsaw in Hx.
        -- simpl. by rewrite Hq.
      * apply (emptied_insert m _ i (DRun fr) DPump); try done.
        -- intros Hx. by apply Hsaw in Hx.
        -- simpl. by rewrite Hq.
      * by apply Hsame.
    + inversion Hstep; subst m'.
      eapply (emptied_insert m _ i DCount); try done.
      intros _. left.
      destruct (main m) as [|cnt|ps rs|k|k|k|k|] eqn:Hpc'; try done.
      split; [|done]. destruct (decide (i < k)) as [Hlt|Hge]; [done|].
      unfold joined in Hj. rewrite Hpc' in Hj.
      by rewrite (Hj i DCount) in Ht by (lia || done).
Qed.

(** ** The pool with its other callers *)

Lemma sys_run_keeps (P : @System World R E → Prop) :
  (∀ g σ σ', P σ → sys_step g σ = Some σ' → P σ') →
  ∀ gs σ σ', P σ → sys_run gs σ = Some σ' → P σ'.
Proof.
  intros Hstep gs. induction gs as [|g gs IH]; intros σ σ' HP Hrun;
    simpl in Hrun.
  - by inversion Hrun; subst σ'.
  - destruct (sys_step g σ) as [σ1|] eqn:Hg; [|done].
    eapply IH; [|done]. by eapply Hstep.
Qed.

Lemma sys_run_app gs1 gs2 σ :
  sys_run (gs1 ++ gs2) σ =
    match sys_run gs1 σ with
    | Some σ1 => sys_run gs2 σ1
    | None => None
    end.
Proof.
  revert σ. induction gs1 as [|g gs1 IH]; intros σ; simpl; [done|].
  by destruct (sys_step g σ).
Qed.

Lemma spawn_workers_spec k ths :
  spawn_workers k ths = ths ++ replicate k WWait.
Proof.
  revert ths. induction k as [|k IH]; intros ths; simpl;
    [by rewrite app_nil_r|].
  by rewrite IH, <- app_assoc.
Qed.

Lemma sys_ok_new n k (w : World) : sys_ok n (System_new (R:=R) (E:=E) n k w).
Proof.
  unfold sys_ok, System_new, TaskPool_new. simpl.
  rewrite spawn_workers_spec. simpl.
  assert (∀ B (f : thread → list B),
            f WWait = [] → replicate n (@WWait World R E) ≫= f = [])
    as Hnil.
  { intros B f Hf. induction n as [|n' IH]; csimpl; [done|].
    by rewrite Hf, IH. }
  split; [apply Forall_replicate, sound_done|].
  split.
  { split; simpl; [by rewrite length_replicate|].
    intros _. by apply Forall_replicate. }
  repeat (split; [done|]).
  intros _. exists []. simpl. rewrite !Hnil by done.
  repeat split; try done. apply NoDup_nil_2.
Qed.

(** A step of another thread's operation on the pool. *)
Lemma sys_ok_appends n σ s' prs :
  sys_ok n σ → appends (shared (pool σ)) s' → Forall sound prs →
  sys_ok n (mkSystem (set_shared s' (pool σ)) prs).
Proof.
  unfold sys_ok.
  intros (_ & Hw & Hn & Hflag & Hfifo & Hj & Hd & Hfin & Hcalls)
         (new & Hq & Ha & He & Hc & Hf & Hdes) Hprs. simpl.
  split; [done|]. split; [done|]. split; [done|].
  split; [by rewrite Hdes|].
  split; [by rewrite Hq, Ha, He, Hfifo, omap_app, omap_id_Some, app_assoc|].
  split; [done|]. split; [done|]. split; [done|].
  intros Hterm. by apply (calls_ok_same (pool σ)); auto.
Qed.

Lemma sys_ok_step n g σ σ' :
  sys_ok n σ → sys_step g σ = Some σ' → sys_ok n σ'.
Proof.
  intros Hok Hg.
  pose proof Hok as (Hprs & Hw & Hn & Hflag & Hfifo & Hj & Hd & Hfin & Hcalls).
  destruct g as [mv|j o|j]; simpl in Hg.
  - destruct (step mv (pool σ)) as [m'|] eqn:Hstep; [|done].
    inversion Hg; subst σ'. unfold sys_ok. simpl.
    destruct (workers_ok_step _ _ _ Hw Hstep) as [Hw' Hn'].
    split; [done|]. split; [done|]. split; [congruence|].
    split; [by eapply flag_step|].
    split; [by eapply fifo_step|].
    split; [by eapply joined_step|].
    split; [by eapply draining_step|].
    split; [by eapply finished_step|].
    intros Hterm. eapply calls_ok_step; [done| |done|done].
    apply Hcalls. unfold step in Hstep. by destruct (terminated (pool σ)).
  - destruct (terminated (pool σ)) eqn:Hterm; [done|].
    destruct (main (pool σ)) eqn:Hpc; try done;
      destruct (others σ !! j) as [[r|body]|]; try done;
      destruct (released r (shared (pool σ))); try done;
      inversion Hg; subst σ'; unfold sys_ok; simpl;
      (split; [apply Forall_insert; [done|apply sound_op_prog]|]);
      by destruct Hok as [_ Hrest].
  - destruct (terminated (pool σ)) eqn:Hterm; [done|].
    assert (∀ body, others σ !! j = Some (PStep body) →
      sys_ok n
        (let '(r, s') := body (shared (pool σ)) in
         mkSystem (set_shared s' (pool σ))
           (<[j:=match r with
                 | Returned pr' => pr'
                 | Raised e => PDone (Raised e)
                 end]> (others σ)))) as Hother.
    { intros body Hj0.
      pose proof (Forall_lookup_1 _ _ _ _ Hprs Hj0) as Hm0.
      inversion Hm0 as [|? Hkeep Hnext]; subst.
      specialize (Hkeep (shared (pool σ))).
      specialize (Hnext (shared (pool σ))).
      destruct (body (shared (pool σ))) as [[pr'|e] s']; simpl in *;
        (apply sys_ok_appends; [done|done|]); apply Forall_insert; try done.
      - by apply Hnext.
      - apply sound_done. }
    destruct (main (pool σ)) eqn:Hpc; try done;
      destruct (others σ !! j) as [[r|body]|] eqn:Hj0; try done;
      specialize (Hother body eq_refl);
      destruct (body (shared (pool σ))) as [r s'];
      by inversion Hg; subst σ'.
Qed.

Lemma sys_ok_reachable n k (w : World) σ :
  sys_reachable (System_new n k w) σ → sys_ok n σ.
Proof.
  intros [gs Hrun].
  apply (sys_run_keeps (sys_ok n) (sys_ok_step n) gs _ _
           (sys_ok_new n k w) Hrun).
Qed.

(** With the pool sealed and no dispatch under way, nothing is put on the
    queue any more. *)
Lemma quiet_step n g σ σ' :
  sys_ok n σ → quiet σ → sys_step g σ = Some σ' → quiet σ'.
Proof.
  intros (Hprs & Hw & Hn & Hflag & Hfifo & Hj & Hd & Hfin & Hcalls)
         (Hin & Hgated & Hempty) Hg.
  destruct g as [mv|j o|j]; simpl in Hg.
  - destruct (step mv (pool σ)) as [m'|] eqn:Hstep; [|done].
    inversion Hg; subst σ'. unfold quiet. simpl.
    split; [|split; [done|by eapply emptied_step]].
    pose proof (flag_step _ _ _ Hflag Hstep) as Hflag'.
    unfold step in Hstep. destruct (terminated (pool σ)); [done|].
    destruct mv as [o| | |i].
    + unfold client_step in Hstep. by destruct (main (pool σ)).
    + unfold destroy_step in Hstep. by destruct (main (pool σ)).
    + apply main_step_flag in Hstep as [_ ->]. done.
    + apply thread_step_shape in Hstep as (-> & _). done.
  - destruct (terminated (pool σ)) eqn:Hterm; [done|].
    destruct (main (pool σ)) eqn:Hpc; try done;
      destruct (others σ !! j) as [[r|body]|]; try done;
      destruct (released r (shared (pool σ))); try done;
      inversion Hg; subst σ'; unfold quiet; simpl;
      (split; [by rewrite Hpc|]);
      (split; [apply Forall_insert; [done|apply gated_op_prog]|done]).
  - destruct (terminated (pool σ)) eqn:Hterm; [done|].
    assert (∀ body, others σ !! j = Some (PStep body) →
      quiet
        (let '(r, s') := body (shared (pool σ)) in
         mkSystem (set_shared s' (pool σ))
           (<[j:=match r with
                 | Returned pr' => pr'
                 | Raised e => PDone (Raised e)
                 end]> (others σ)))) as Hother.
    { intros body Hj0.
      pose proof (Forall_lookup_1 _ _ _ _ Hgated Hj0) as Hm0.
      simpl in Hm0.
      destruct (Hm0 (shared (pool σ))) as [e ->]; [congruence|].
      unfold quiet. simpl. split; [done|].
      split; [by apply Forall_insert|]. done. }
    destruct (main (pool σ)) eqn:Hpc; try done;
      destruct (others σ !! j) as [[r|body]|] eqn:Hj0; try done;
      specialize (Hother body eq_refl);
      destruct (body (shared (pool σ))) as [r s'];
      by inversion Hg; subst σ'.
Qed.


(** X3: [dispatchOnce] (lines 243-248) and its flags. In every state that
    a pool and the callers of its operations reach with no exception
    having left a thread: the flags that are set are pairwise distinct;
    each of them was set by a wrapper of [dispatchOnce] that a thread took
    from the queue with this flag, one wrapper for each flag, whose task
    was called and returned ([winners]); the wrappers that threads have
    taken and not yet run are other ones; and the calls made so far,
    with those the threads have still to make inside the tasks they are
    in, are those of the other tasks taken from the queue and one call for
    each flag that is set: a wrapper that finds its flag set calls
    nothing. *)
Theorem dispatchOnce_calls_one_task_per_flag (n k : nat) (w : World) σ :
  sys_reachable (System_new n k w) σ →
  terminated (pool σ) = None →
  let s := shared (pool σ) in
  NoDup (flags s) ∧
  ∃ winners : list (nat * callable ()),
    winners.*1 ≡ₚ flags s ∧
    (once_wrapper <$> winners) ++ (threads_ (pool σ) ≫= at_once)
      ⊆+ executed s ∧
    (calls s).*2 ++ (threads_ (pool σ) ≫= to_call_thread)
      ≡ₚ (executed s ≫= called_by)
         ++ ((λ x, call_void x.2) <$> winners).
Proof.
  intros Hreach Hterm s.
  pose proof (sys_ok_reachable n k w σ Hreach)
    as (_ & _ & _ & _ & _ & _ & _ & _ & Hcalls).
  destruct (Hcalls Hterm) as (winners & HA & HB & HC & HD).
  split; [done|]. by exists winners.
Qed.

End properties.

(** * The properties on the sample inputs *)

(** C3, where the claim fails: [dispatch] over an empty range on a destroyed
    pool returns, and throws nothing. *)
Lemma empty_range_on_destroyed_pool_returns :
  destroyed_ sealed_pool = true ∧
  call_op (DispatchRange []) sealed_pool = (Returned Void, sealed_pool) ∧
  call_op (DispatchSyncR []) sealed_pool = (Returned (Results []), sealed_pool) ∧
  (call_op (DispatchSerial []) sealed_pool).1 ≠ Raised PoolDestroyed.
Proof. repeat split; done. Qed.

Lemma dispatch_on_destroyed_pool_witness :
  destroyed_ sealed_pool = true ∧
  call_op (Dispatch (Some (say 1))) sealed_pool
    = (Raised PoolDestroyed, sealed_pool) ∧
  call_op (DispatchOnce 0 (Some (say 1))) sealed_pool
    = (Raised PoolDestroyed, sealed_pool) ∧
  call_op (DispatchSerialR [Some (square 2)]) sealed_pool
    = (Raised PoolDestroyed, sealed_pool).
Proof.
  split; [reflexivity|]. split; [|split].
  - exact (dispatch_on_destroyed_pool
             (Dispatch (Some (say 1))) sealed_pool eq_refl).
  - exact (dispatch_on_destroyed_pool
             (DispatchOnce 0 (Some (say 1))) sealed_pool eq_refl).
  - exact (dispatch_on_destroyed_pool
             (DispatchSerialR [Some (square 2)]) sealed_pool eq_refl).
Defined.

Lemma invalid_task_rejects_whole_range_witness :
  destroyed_ fresh_pool = false ∧
  dispatch_range [Some (say 1); None] fresh_pool
    = (Raised InvalidTask, fresh_pool) ∧
  dispatchSerial_R [None; Some (square 2)] fresh_pool
    = (Raised InvalidTask, fresh_pool).
Proof.
  split; [reflexivity|].
  destruct (invalid_task_rejects_whole_range
              [Some (say 1); None] [None; Some (square 2)] fresh_pool eq_refl)
    as [Hv Hr].
  split.
  - apply Hv. repeat constructor.
  - apply Hr. repeat constructor.
Defined.

Lemma dispatch_R_future_carries_outcome_witness :
  destroyed_ fresh_pool = false ∧
  ∃ s1,
    dispatch_R (Some (RUser (boom_R 5))) fresh_pool = (Returned 0, s1) ∧
    ∃ s3,
      run_closure 1 (CPromise 0 (Some (RUser (boom_R 5)))) s1
        = (Returned true, s3) ∧
      future_get <$> promises s3 !! 0 = Some (Some (Raised (user_exn 5))).
Proof.
  split; [reflexivity|].
  destruct (dispatch_R_future_carries_outcome (boom_R 5) fresh_pool eq_refl)
    as (s1 & Hdispatch & _ & Hunset & Hrun).
  exists s1. split; [exact Hdispatch|].
  destruct (Hrun 1 s1 Hunset) as (s3 & Hrun3 & Hget & _).
  exists s3. split; [exact Hrun3|exact Hget].
Defined.

(** C6, where the claim fails: in the void form the second input is never
    called when the first one throws. *)
Lemma serial_void_stops_at_first_failure :
  ∃ s1 s3,
    dispatchSerial [Some (boom 7); Some (say 2)] fresh_pool
      = (Returned (), s1) ∧
    tasks_ s1 = [Some (CSerial [Some (boom 7); Some (say 2)])] ∧
    run_closure 0 (CSerial [Some (boom 7); Some (say 2)]) s1
      = (Raised (user_exn 7), s3) ∧
    calls s3 = [(0, call_void (boom 7))] ∧
    world s3 = [].
Proof. do 2 eexists. repeat split; reflexivity. Qed.

Lemma serial_batch_is_one_composite_run_in_order_witness :
  destroyed_ fresh_pool = false ∧
  (∃ s1,
     dispatchSerial [Some (say 1); Some (say 2)] fresh_pool
       = (Returned (), s1) ∧
     tasks_ s1 = [Some (CSerial [Some (say 1); Some (say 2)])]) ∧
  ∃ s3,
    run_closure 4 (CSerial [Some (say 1); Some (say 2)]) fresh_pool
      = (Returned true, s3) ∧
    calls s3 = [(4, call_void (say 1)); (4, call_void (say 2))].
Proof.
  split; [reflexivity|].
  destruct (serial_batch_is_one_composite_run_in_order
              [say 1; say 2] [square 2] fresh_pool eq_refl) as [Hvoid _].
  destruct (Hvoid ltac:(discriminate)) as [Hdispatch Hrun].
  split; [exact Hdispatch|].
  destruct (Hrun 4 fresh_pool) as (r & s3 & Hrun3 & Hcalls & Hr & _).
  vm_compute in Hr. subst r.
  exists s3. split; [exact Hrun3|exact Hcalls].
Defined.

Lemma serial_R_sets_each_slot_on_its_own_witness :
  destroyed_ fresh_pool = false ∧
  ∃ s1 s3,
    dispatchSerial_R [Some (square 2); Some (boom_R 5); Some (square 3)]
      fresh_pool = (Returned [0; 1; 2], s1) ∧
    tasks_ s1 =
      [Some (CSerialR 0 [Some (square 2); Some (boom_R 5);
                         Some (square 3)])] ∧
    run_closure 4
      (CSerialR 0 [Some (square 2); Some (boom_R 5); Some (square 3)])
      (set_promises [Unset; Unset; Unset] fresh_pool)
      = (Returned true, s3) ∧
    future_get <$> promises s3 !! 0 = Some (Some (Returned 4)) ∧
    future_get <$> promises s3 !! 1 = Some (Some (Raised (user_exn 5))) ∧
    future_get <$> promises s3 !! 2 = Some (Some (Returned 9)).
Proof.
  split; [reflexivity|].
  destruct (serial_R_sets_each_slot_on_its_own
              [square 2; boom_R 5; square 3] fresh_pool eq_refl
              ltac:(discriminate))
    as (s1 & Hdispatch & Hqueue & _ & _ & Hrun).
  assert (∀ j, j < 3 →
            promises (set_promises [Unset; Unset; Unset] fresh_pool)
              !! (0 + j) = Some (@Unset nat nat)) as Hunset.
  { intros [|[|[|j]]] Hj; try reflexivity. lia. }
  destruct (Hrun 4 _ Hunset) as (s3 & Hrun3 & _ & _ & Hslots).
  exists s1, s3. split; [exact Hdispatch|]. split; [exact Hqueue|].
  split; [exact Hrun3|]. split; [|split].
  - exact (Hslots 0 _ eq_refl).
  - exact (Hslots 1 _ eq_refl).
  - exact (Hslots 2 _ eq_refl).
Defined.

(** C8, where the claim fails: the future holds a value, the success
    callback throws, and both callbacks are called. *)
Lemma onComplete_calls_both_when_success_throws :
  ∃ body,
    onComplete (Value 3) throwing_success quiet_failure = Some body ∧
    obs_calls (body (mkObserver [] [])).2
      = [called_success 3; called_failure (user_exn 3)].
Proof. eexists. split; reflexivity. Qed.

(** C10, at the failing input: [dispatchOnce] of an empty task on a pool
    that is not destroyed returns, and the wrapper it has enqueued throws
    [bad_function_call] in the thread that runs it. *)
Lemma dispatchOnce_accepts_empty_task :
  destroyed_ fresh_pool = false ∧
  ∃ s1 s3,
    dispatchOnce 0 None fresh_pool = (Returned (), s1) ∧
    tasks_ s1 = [Some (COnce 0 None)] ∧
    run_closure 0 (COnce 0 None) s1 = (Raised bad_function_call, s3) ∧
    dispatch_R None fresh_pool = (Raised InvalidTask, fresh_pool).
Proof. split; [reflexivity|]. do 2 eexists. repeat split; reflexivity. Qed.

(** C9, where the claim fails: when [hardware_concurrency] reports [0] the
    default pool has no worker. *)
Lemma default_pool_without_workers :
  numThreads_ (TaskPool_default (R:=nat) (E:=nat) 0 ([] : list nat)) = 0 ∧
  threads_ (TaskPool_default (R:=nat) (E:=nat) 0 ([] : list nat)) = [].
Proof. split; reflexivity. Qed.

Lemma default_pool_has_hardware_concurrency_workers_witness :
  let mvs := [Client (Dispatch (Some (say 1))); Thread 1; Thread 1] in
  run mvs (TaskPool_default 2 []) = Some (after mvs 2) ∧
  numThreads_ (after mvs 2) = 2 ∧ length (threads_ (after mvs 2)) = 2 ∧
  Forall (λ t, t = WWait ∨ ∃ fr, t = WRun fr) (threads_ (after mvs 2)) ∧
  Forall (λ t, is_worker t) (threads_ (after mvs 2)).
Proof.
  intros mvs.
  assert (run mvs (TaskPool_default 2 []) = Some (after mvs 2)) as Hrun
    by (vm_compute; reflexivity).
  assert (in_destructor (main (after mvs 2)) = false) as Hlive
    by (vm_compute; reflexivity).
  assert (before_drain (main (after mvs 2))) as Hbefore
    by (vm_compute; exact I).
  destruct (default_pool_has_hardware_concurrency_workers 2 [] (after mvs 2)
              (ex_intro _ _ Hrun)) as (_ & Hn & Hlen & Hloop & Hworkers & _).
  split; [exact Hrun|]. split; [exact Hn|]. split; [exact Hlen|].
  split; [exact (Hloop Hlive)|exact (Hworkers Hbefore)].
Defined.

(** C2, where the claim fails: of two drainers, the first to find the
    queue empty makes the counter [1], not [2], and leaves its loop; the
    second makes the counter reach [2] and goes round once more. *)
Lemma first_drainer_leaves_last_goes_round :
  let m1 := after run_to_first_count 2 in
  let m1' := after (run_to_first_count ++ [Thread 0]) 2 in
  let m2 := after run_to_second_count 2 in
  let m2' := after (run_to_second_count ++ [Thread 1]) 2 in
  (run run_to_first_count (TaskPool_new 2 []) = Some m1 ∧
   numThreads_ m1 = 2 ∧
   threads_ m1 !! 0 = Some DCount ∧ numDones m1 = 0%Z ∧
   step (Thread 0) m1 = Some m1' ∧
   numDones m1' = 1%Z ∧ threads_ m1' !! 0 = Some TDone) ∧
  (run run_to_second_count (TaskPool_new 2 []) = Some m2 ∧
   threads_ m2 !! 1 = Some DCount ∧ numDones m2 = 1%Z ∧
   step (Thread 1) m2 = Some m2' ∧
   numDones m2' = 2%Z ∧ threads_ m2' !! 1 = Some DPump).
Proof. vm_compute. repeat split. Qed.

Lemma drainer_leaves_unless_counter_reaches_numThreads_witness :
  let m := after run_to_first_count 2 in
  ∃ m',
    step (Thread 0) m = Some m' ∧
    numDones m' ≠ Z.of_nat (numThreads_ m) ∧
    threads_ m' !! 0 = Some TDone.
Proof.
  intros m.
  assert (terminated m = None) as Hterm by (vm_compute; reflexivity).
  assert (threads_ m !! 0 = Some DCount) as Hcount
    by (vm_compute; reflexivity).
  assert (((numDones m + 1) `mod` size_modulus)%Z
          ≠ Z.of_nat (numThreads_ m)) as Hne
    by (vm_compute; discriminate).
  destruct (drainer_leaves_unless_counter_reaches_numThreads 0 m Hterm Hcount)
    as (m' & Hstep & Hn & _ & Hdone).
  exists m'. split; [exact Hstep|].
  rewrite Hn. split; [exact Hne|]. apply Hdone. by rewrite Hn.
Defined.



Lemma promise_is_set_by_its_one_owner_witness :
  let m := after run_to_set_exception 1 in
  run run_to_set_exception (TaskPool_new 1 []) = Some m ∧
  threads_ m !! 0 = Some (WRun (FPromiseSet 0 (Raised (user_exn 5)))) ∧
  promises (shared m) !! 0 = Some Unset ∧
  ∃ m',
    step (Thread 0) m = Some m' ∧ terminated m' = None ∧
    promises (shared m') = <[0:=Failure (user_exn 5)]> (promises (shared m)).
Proof.
  intros m.
  assert (run run_to_set_exception (TaskPool_new 1 []) = Some m) as Hrun
    by (vm_compute; reflexivity).
  assert (terminated m = None) as Hterm by (vm_compute; reflexivity).
  assert (threads_ m !! 0 = Some (WRun (FPromiseSet 0 (Raised (user_exn 5)))))
    as Hset by (vm_compute; reflexivity).
  destruct (promise_is_set_by_its_one_owner 1 [] m 0 _ 0 (Raised (user_exn 5))
              (ex_intro _ _ Hrun) Hterm (or_introl Hset) (or_introl eq_refl))
    as (Hunset & _ & _ & Hstep).
  split; [exact Hrun|]. split; [exact Hset|]. split; [exact Hunset|].
  exact Hstep.
Defined.

Lemma single_dispatch_checks_its_task_witness :
  destroyed_ fresh_pool = false ∧
  call_op (Dispatch None) fresh_pool = (Raised InvalidTask, fresh_pool) ∧
  call_op (DispatchR None) fresh_pool = (Raised InvalidTask, fresh_pool).
Proof.
  split; [reflexivity|].
  exact (single_dispatch_checks_its_task None fresh_pool eq_refl).
Defined.

Lemma bulk_dispatch_appends_in_order_witness :
  destroyed_ fresh_pool = false ∧
  ∃ s1,
    dispatch_range [Some (say 1); Some (say 2)] fresh_pool
      = (Returned (), s1) ∧
    tasks_ s1 = [Some (CUser (say 1)); Some (CUser (say 2))].
Proof.
  split; [reflexivity|].
  destruct (bulk_dispatch_appends_in_order [say 1; say 2] fresh_pool eq_refl)
    as (s1 & Hrun & Hq & _).
  exists s1. split; [exact Hrun|exact Hq].
Defined.

Lemma range_futures_in_input_order_witness :
  destroyed_ fresh_pool = false ∧
  ∃ s1,
    dispatch_range_R [Some (square 2); Some (boom_R 5)] fresh_pool
      = (Returned [0; 1], s1) ∧
    tasks_ s1 = [Some (CPromise 0 (Some (RUser (square 2))));
                 Some (CPromise 1 (Some (RUser (boom_R 5))))] ∧
    promises s1 = [Unset; Unset].
Proof.
  split; [reflexivity|].
  destruct (range_futures_in_input_order [square 2; boom_R 5] fresh_pool
              eq_refl) as [(s1 & Hrun & Hq & Hp) _].
  exists s1. split; [exact Hrun|]. split; [exact Hq|exact Hp].
Defined.

Lemma dispatchSync_counts_its_tasks_witness :
  destroyed_ fresh_pool = false ∧
  ∃ s1,
    dispatchSync [Some (say 1); Some (say 2)] fresh_pool
      = (Returned (Some 0), s1) ∧
    counts s1 = [2] ∧
    tasks_ s1 = [Some (CSync 0 (Some (say 1))); Some (CSync 0 (Some (say 2)))] ∧
    ∃ s3,
      run_closure 0 (CSync 0 (Some (say 1))) s1 = (Returned true, s3) ∧
      world s3 = [1] ∧
      counts s3 = [1].
Proof.
  split; [reflexivity|].
  destruct (dispatchSync_counts_its_tasks [say 1; say 2] fresh_pool eq_refl
              ltac:(discriminate)) as [(s1 & Hrun & Hc & Hq) Hwrap].
  exists s1. split; [exact Hrun|]. split; [exact Hc|]. split; [exact Hq|].
  assert (counts s1 !! 0 = Some 2) as Hk0 by (rewrite Hc; reflexivity).
  assert (world s1 = []) as Hw.
  { vm_compute in Hrun. injection Hrun as <-. reflexivity. }
  destruct (Hwrap 0 (say 1) s1 2 Hk0) as (s3 & Hrun3 & Hw3 & _ & Hc3).
  exists s3. unfold say in Hrun3, Hw3, Hc3 at 1. simpl in Hrun3, Hw3, Hc3.
  rewrite Hw in Hw3. rewrite Hc in Hc3.
  split; [exact Hrun3|]. split; [exact Hw3|exact Hc3].
Defined.

Lemma destroyed_exactly_in_destructor_witness :
  let m := after run_to_first_count 2 in
  run run_to_first_count (TaskPool_new 2 []) = Some m ∧
  destroyed_ (shared m) = in_destructor (main m) ∧
  in_destructor (main m) = true.
Proof.
  intros m.
  assert (run run_to_first_count (TaskPool_new 2 []) = Some m) as Hrun
    by (vm_compute; reflexivity).
  split; [exact Hrun|]. split.
  - exact (destroyed_exactly_in_destructor 2 [] m (ex_intro _ _ Hrun)).
  - vm_compute; reflexivity.
Defined.

Lemma tasks_taken_in_accepted_order_witness :
  let m := after run_to_first_taken 1 in
  run run_to_first_taken (TaskPool_new 1 []) = Some m ∧
  accepted (shared m) = executed (shared m) ++ omap id (tasks_ (shared m)) ∧
  executed (shared m) = [CUser (say 1)] ∧
  tasks_ (shared m) = [Some (CUser (say 2))].
Proof.
  intros m.
  assert (run run_to_first_taken (TaskPool_new 1 []) = Some m) as Hrun
    by (vm_compute; reflexivity).
  split; [exact Hrun|]. split.
  - exact (tasks_taken_in_accepted_order 1 [] m (ex_intro _ _ Hrun)).
  - split; vm_compute; reflexivity.
Defined.

Lemma workers_stay_until_destructor_witness :
  let m := after run_to_first_taken 2 in
  run run_to_first_taken (TaskPool_new 2 []) = Some m ∧
  in_destructor (main m) = false ∧
  length (threads_ m) = 2 ∧
  Forall (λ t, t = WWait ∨ ∃ fr, t = WRun fr) (threads_ m).
Proof.
  intros m.
  assert (run run_to_first_taken (TaskPool_new 2 []) = Some m) as Hrun
    by (vm_compute; reflexivity).
  assert (in_destructor (main m) = false) as Hpc
    by (vm_compute; reflexivity).
  destruct (workers_stay_until_destructor 2 [] m (ex_intro _ _ Hrun) Hpc)
    as (Hlen & Hths & _).
  split; [exact Hrun|]. split; [exact Hpc|]. split; [exact Hlen|exact Hths].
Defined.

Lemma drainer_never_takes_empty_task_witness :
  let m := after run_to_first_drainer 2 in
  run run_to_first_drainer (TaskPool_new 2 []) = Some m ∧
  threads_ m !! 0 = Some DPump ∧
  ∃ m', step (Thread 0) m = Some m' ∧ terminated m' = None.
Proof.
  intros m.
  assert (run run_to_first_drainer (TaskPool_new 2 []) = Some m) as Hrun
    by (vm_compute; reflexivity).
  assert (terminated m = None) as Hterm by (vm_compute; reflexivity).
  assert (threads_ m !! 0 = Some DPump) as Hpump
    by (vm_compute; reflexivity).
  assert (Z.of_nat 2 + 1 < size_modulus)%Z as Hfit
    by (vm_compute; reflexivity).
  destruct (drainer_never_takes_empty_task 2 [] m 0 Hfit (ex_intro _ _ Hrun)
              Hterm Hpump) as (_ & m' & Hstep & Hterm' & _).
  split; [exact Hrun|]. split; [exact Hpump|].
  exists m'. split; [exact Hstep|exact Hterm'].
Defined.

Lemma exception_leaves_only_tasks_without_promise_witness :
  let m := after run_to_throwing_task 1 in
  run run_to_throwing_task (TaskPool_new 1 []) = Some m ∧
  threads_ m !! 0 = Some (WRun (FTarget (CUser (boom 7)))) ∧
  ∃ m', step (Thread 0) m = Some m' ∧
        terminated m' = Some (user_exn 7) ∧
        ∀ mv, step mv m' = None.
Proof.
  intros m.
  assert (run run_to_throwing_task (TaskPool_new 1 []) = Some m) as Hrun
    by (vm_compute; reflexivity).
  assert (terminated m = None) as Hterm by (vm_compute; reflexivity).
  assert (threads_ m !! 0 = Some (WRun (FTarget (CUser (boom 7)))))
    as Hth by (vm_compute; reflexivity).
  destruct (exception_leaves_only_tasks_without_promise 1 [] m 0 _
              (ex_intro _ _ Hrun) Hterm (or_introl Hth))
    as (m' & Hstep & _ & _ & Huser & Hstop).
  split; [exact Hrun|]. split; [exact Hth|].
  exists m'. split; [exact Hstep|].
  pose proof (Huser (boom 7) eq_refl) as Hboom.
  split; [exact Hboom|]. exact (Hstop _ Hboom).
Defined.

Lemma dispatchSync_R_gathers_in_order_witness :
  let m := after run_to_first_result 1 in
  run run_to_first_result (TaskPool_new 1 []) = Some m ∧
  main m = MGather [1] [4] ∧
  ∃ b, [1] = seq (b + 1) 1 ∧
       ∀ j v, [4] !! j = Some v →
              promises (shared m) !! (b + j) = Some (Value v).
Proof.
  intros m.
  assert (run run_to_first_result (TaskPool_new 1 []) = Some m) as Hrun
    by (vm_compute; reflexivity).
  assert (terminated m = None) as Hterm by (vm_compute; reflexivity).
  assert (main m = MGather [1] [4]) as Hpc by (vm_compute; reflexivity).
  destruct (dispatchSync_R_gathers_in_order 1 [] m [1] [4]
              (ex_intro _ _ Hrun) Hpc Hterm) as (b & Hps & Hrs & _).
  split; [exact Hrun|]. split; [exact Hpc|].
  exists b. split; [exact Hps|exact Hrs].
Defined.


Lemma dispatchSync_blocks_without_threads_witness :
  ∃ m',
    step (Client (DispatchSync [Some (say 1)]))
         (TaskPool_new (R:=nat) 0 []) = Some m' ∧
    main m' = MWaitCount 0 ∧ counts (shared m') = [1] ∧
    ∀ mv, step mv m' = None.
Proof.
  exact (proj1 (dispatchSync_blocks_without_threads [say 1] [square 2] [])
           ltac:(discriminate)).
Defined.


Lemma dispatchOnce_calls_one_task_per_flag_witness :
  let σ := after_sys run_once_twice 1 0 in
  let s := shared (pool σ) in
  sys_run run_once_twice (System_new 1 0 []) = Some σ ∧
  executed s = [COnce 7 (Some (say 1)); COnce 7 (Some (say 2))] ∧
  flags s = [7] ∧
  world s = [1] ∧
  ∃ winners : list (nat * callable ()),
    winners.*1 ≡ₚ [7] ∧
    once_wrapper <$> winners ⊆+ executed s ∧
    (calls s).*2 ≡ₚ (λ x, call_void x.2) <$> winners.
Proof.
  intros σ s.
  assert (sys_run run_once_twice (System_new 1 0 []) = Some σ) as Hrun
    by (vm_compute; reflexivity).
  assert (terminated (pool σ) = None) as Hterm by (vm_compute; reflexivity).
  assert (threads_ (pool σ) = [WWait]) as Hths by (vm_compute; reflexivity).
  assert (executed s = [COnce 7 (Some (say 1)); COnce 7 (Some (say 2))])
    as Hexe by (vm_compute; reflexivity).
  assert (flags s = [7]) as Hflags by (vm_compute; reflexivity).
  assert (world s = [1]) as Hworld by (vm_compute; reflexivity).
  clearbody σ.
  destruct (dispatchOnce_calls_one_task_per_flag 1 0 [] σ
              (ex_intro _ _ Hrun) Hterm) as (_ & winners & Hwin & Hsub & Hcalls).
  fold s in Hwin, Hsub, Hcalls.
  rewrite Hflags in Hwin. rewrite Hths in Hsub, Hcalls.
  rewrite Hexe in Hcalls.
  change ((calls s).*2 ++ []
          ≡ₚ [] ++ ((λ x : nat * callable (), call_void x.2) <$> winners))
    in Hcalls.
  change ((once_wrapper <$> winners) ++ [] ⊆+ executed s) in Hsub.
  rewrite app_nil_r in Hsub, Hcalls.
  split; [exact Hrun|]. split; [exact Hexe|]. split; [exact Hflags|].
  split; [exact Hworld|]. exists winners.
  split; [exact Hwin|]. split; [exact Hsub|exact Hcalls].
Defined.
